(** * update.py: the reference-resolution and rewrite engine

    A shallow embedding of [src/update.py] (GitHub Actions version updater)
    and the properties its specification states about it.

    Conventions of the embedding.
    - A Python [str] is a [list ascii]; a character stands for the code point
      of the same number, so texts are those of the Latin-1 range.  [lit s]
      writes a literal.  The classes [\s], [\w] and [\d] are those of
      Python's [re] on [str] patterns, restricted to that range.
    - The three regular expressions of [process_line] are values of a small
      regex type, run by a backtracking matcher with Python's greedy
      semantics; [re.search] and [re.sub] are defined on top of it.  A
      replacement text with a backslash (an escape for [re.sub]) is not
      followed: the run ends with [TemplateEscape].
    - [packaging.version.parse] and the [>] of its [Version] are embedded
      after the PEP 440 pattern and the comparison key of the library
      (release 22 and later: a text that is no version raises
      [InvalidVersion]).  The numbers of a version go through [int], which
      refuses more than 4300 digits (CPython's default) with [ValueError].
    - The global [version_cache] and [rate_limit_exceeded], the [stats]
      dictionary, the file system and everything printed are fields of one
      [State]; functions are computations [M A] that thread the state and
      may raise a Python exception.  The state reached when an exception is
      raised is kept, so that what a crashed run did can be observed.
      Printing is taken to succeed: [print] adds to the trace and raises
      nothing.
    - The outside world is a [World] of oracles: the answer to the n-th
      request, the clock, and how the n-th I/O call ends.  A response body
      is given by what [handle_version_response] makes of it (the name of a
      tag is a string), a rate-limit header by what [int] makes of it.
      [time.sleep] is CPython's: it refuses a time that does not fit 64
      bits of nanoseconds.
    - A file holds a text and paths are POSIX paths.  Whether the bytes of
      a file are UTF-8, and whether UTF-8 can encode a text that is
      written, the world says with the I/O call.
    - [update_all_actions] is given the list of the files that its walk
      yields.  The walk itself, over the tree that [os.walk] finds, and
      the extensions that [main] reads from the command line are embedded
      with the further observations, where [main] puts the two together.
      [print_summary] and the other arguments of [argparse] are left out. *)

From Stdlib Require Import List Ascii String ZArith NArith Lia Bool Arith PeanoNat.
Import ListNotations.

Set Implicit Arguments.

(** ** Strings *)

Definition str := list ascii.

Definition lit (s : string) : str := list_ascii_of_string s.

Definition code (c : ascii) : nat := nat_of_ascii c.

Definition between (lo hi : nat) (c : ascii) : bool :=
  (lo <=? code c) && (code c <=? hi).

Definition is_char (x : ascii) (c : ascii) : bool := Ascii.eqb x c.

(** [\d] : decimal digits (the only ones below code point 256). *)
Definition is_digit (c : ascii) : bool := between 48 57 c.

(** [\s] on a [str] pattern: Python's Unicode white space below 256. *)
Definition is_space (c : ascii) : bool :=
  between 9 13 c || between 28 32 c
  || (code c =? 133) || (code c =? 160).

Definition is_ascii_lower (c : ascii) : bool := between 97 122 c.
Definition is_ascii_upper (c : ascii) : bool := between 65 90 c.

(** [\w] on a [str] pattern: alphanumeric code points and the underscore. *)
Definition is_word (c : ascii) : bool :=
  is_digit c || is_ascii_lower c || is_ascii_upper c || (code c =? 95)
  || (code c =? 170) || (code c =? 178) || (code c =? 179) || (code c =? 181)
  || (code c =? 185) || (code c =? 186) || between 188 190 c
  || between 192 214 c || between 216 246 c || between 248 255 c.

(** [[\w-]] *)
Definition is_word_dash (c : ascii) : bool := is_word c || (code c =? 45).

(** [[a-f0-9]] *)
Definition is_hex (c : ascii) : bool := between 97 102 c || is_digit c.

(** [[\d.]] *)
Definition is_digit_dot (c : ascii) : bool := is_digit c || (code c =? 46).

Definition nonempty (s : str) : bool :=
  match s with [] => false | _ :: _ => true end.

Fixpoint str_eqb (a b : str) : bool :=
  match a, b with
  | [], [] => true
  | x :: a', y :: b' => Ascii.eqb x y && str_eqb a' b'
  | _, _ => false
  end.

(** [s.startswith(p)], returning what follows the prefix. *)
Fixpoint strip_prefix (p s : str) : option str :=
  match p with
  | [] => Some s
  | x :: p' =>
      match s with
      | y :: s' => if Ascii.eqb x y then strip_prefix p' s' else None
      | [] => None
      end
  end.

(** ** Regular expressions

    The three patterns of [process_line] are sequences of literals and of
    greedy repetitions of a character class; only such repetitions are
    captured.  [Grp c] is [([c]+)], [Plus c] is [[c]+], [Star c] is [[c]*],
    [Opt x] is [x?]. *)

Inductive item : Type :=
| Lit (l : str)
| Plus (c : ascii -> bool)
| Star (c : ascii -> bool)
| Opt (x : ascii)
| Grp (c : ascii -> bool).

Definition regex := list item.

Section Matcher.
Variable R : Type.

(** Greedy [c*] followed by the continuation [k]: the longest run is tried
    first, then ever shorter ones (backtracking). [k] receives the run and
    what follows it. *)
Fixpoint star (c : ascii -> bool) (k : str -> str -> option R) (s : str)
  : option R :=
  match s with
  | x :: s' =>
      if c x then
        match star c (fun run rest => k (x :: run) rest) s' with
        | Some r => Some r
        | None => k [] s
        end
      else k [] s
  | [] => k [] []
  end.

Definition plus (c : ascii -> bool) (k : str -> str -> option R) (s : str)
  : option R :=
  match s with
  | x :: s' => if c x then star c (fun run rest => k (x :: run) rest) s' else None
  | [] => None
  end.
End Matcher.

(** [match_here p s]: match [p] at the start of [s]; the result is the list
    of captured groups and the text after the match. *)
Fixpoint match_here (p : regex) (s : str) : option (list str * str) :=
  match p with
  | [] => Some ([], s)
  | Lit l :: p' =>
      match strip_prefix l s with
      | Some s' => match_here p' s'
      | None => None
      end
  | Plus c :: p' => plus c (fun _ rest => match_here p' rest) s
  | Star c :: p' => star c (fun _ rest => match_here p' rest) s
  | Opt x :: p' =>
      match s with
      | y :: s' =>
          if Ascii.eqb x y then
            match match_here p' s' with
            | Some r => Some r
            | None => match_here p' s
            end
          else match_here p' s
      | [] => match_here p' []
      end
  | Grp c :: p' =>
      plus c (fun g rest =>
                match match_here p' rest with
                | Some (gs, e) => Some (g :: gs, e)
                | None => None
                end) s
  end.

(** [re.search]: the leftmost match.  The result is the text before the
    match, the groups, and the text after the match. *)
Fixpoint re_search (p : regex) (s : str) : option (str * list str * str) :=
  match match_here p s with
  | Some (gs, e) => Some ([], gs, e)
  | None =>
      match s with
      | [] => None
      | x :: s' =>
          match re_search p s' with
          | Some (pre, gs, e) => Some (x :: pre, gs, e)
          | None => None
          end
      end
  end.

(** [re.sub(p, repl, s)] for a pattern that never matches the empty string
    and a replacement without escapes: every leftmost non-overlapping match
    is replaced.  Each match consumes a character, so [length s] rounds
    are enough. *)
Fixpoint re_sub_rounds (n : nat) (p : regex) (repl s : str) : str :=
  match n with
  | O => s
  | S n' =>
      match re_search p s with
      | None => s
      | Some (pre, _, e) => pre ++ repl ++ re_sub_rounds n' p repl e
      end
  end.

Definition re_sub (p : regex) (repl s : str) : str :=
  re_sub_rounds (List.length s) p repl s.

(** [r'uses:\s+([\w-]+)/([\w-]+)@([a-f0-9]+)\s+#\s*v?([\d.]+)'] *)
Definition uses_re : regex :=
  [ Lit (lit "uses:"); Plus is_space; Grp is_word_dash; Lit (lit "/");
    Grp is_word_dash; Lit (lit "@"); Grp is_hex; Plus is_space;
    Lit (lit "#"); Star is_space; Opt "v"%char; Grp is_digit_dot ].

(** [r'@([a-f0-9]+)'] *)
Definition hash_re : regex := [ Lit (lit "@"); Grp is_hex ].

(** [r'#\s*v?[\d.]+'] *)
Definition version_comment_re : regex :=
  [ Lit (lit "#"); Star is_space; Opt "v"%char; Plus is_digit_dot ].

(** ** packaging.version

    [version.parse(s)] builds a [Version] when the whole of [s] fits the
    PEP 440 pattern of the library (compiled with [re.IGNORECASE], between
    [^\s*] and [\s*$]) and raises [InvalidVersion] otherwise:

<<
    v?
    (?:(?P<epoch>[0-9]+)!)?
    (?P<release>[0-9]+(?:\.[0-9]+){0,})
    (?P<pre>[-_\.]?(?P<pre_l>alpha|a|beta|b|preview|pre|c|rc)[-_\.]?(?P<pre_n>[0-9]+)?)?
    (?P<post>(?:-(?P<post_n1>[0-9]+))|(?:[-_\.]?(?P<post_l>post|rev|r)[-_\.]?(?P<post_n2>[0-9]+)?))?
    (?P<dev>[-_\.]?(?P<dev_l>dev)[-_\.]?(?P<dev_n>[0-9]+)?)?
    (?:\+(?P<local>[a-z0-9]+(?:[-_\.][a-z0-9]+){0,}))?
>>
    ([{0,}] written for the star.)  Every optional part starts with characters that no later part accepts,
    so the greedy choice taken below is the one the pattern ends with. *)

Inductive pre_tag : Type := PreA | PreB | PreRC.

Inductive local_part : Type :=
| LInt (n : N)
| LStr (s : str).

Record Version : Type := mkVersion {
  v_epoch : N;
  v_release : list N;
  v_pre : option (pre_tag * N);
  v_post : option N;
  v_dev : option N;
  v_local : option (list local_part)
}.

Definition lower (c : ascii) : ascii :=
  if is_ascii_upper c then ascii_of_nat (code c + 32) else c.

Fixpoint span (c : ascii -> bool) (s : str) : str * str :=
  match s with
  | x :: s' =>
      if c x then let (a, b) := span c s' in (x :: a, b) else ([], s)
  | [] => ([], [])
  end.

Fixpoint lstrip (s : str) : str :=
  match s with
  | x :: s' => if is_space x then lstrip s' else s
  | [] => []
  end.

Definition strip (s : str) : str := rev (lstrip (rev (lstrip s))).

Definition digit_val (c : ascii) : N := N.of_nat (code c - 48).

(** [int(ds)] for a run of decimal digits, as to its value. *)
Definition num (ds : str) : N :=
  fold_left (fun acc c => (acc * 10 + digit_val c)%N) ds 0%N.

(** [int] refuses a text of more than 4300 digits with [ValueError] (the
    default of [sys.set_int_max_str_digits]); zeros that lead count. *)
Definition int_max_str_digits : nat := 4300.

Definition int_refuses (ds : str) : bool :=
  int_max_str_digits <? List.length ds.

Definition is_sep (c : ascii) : bool :=
  is_char "-" c || is_char "_" c || is_char "." c.

(** [[-_\.]?] *)
Definition opt_sep (s : str) : str :=
  match s with
  | x :: s' => if is_sep x then s' else s
  | [] => []
  end.

(** [([0-9]+)?] *)
Definition opt_num (s : str) : option str * str :=
  match span is_digit s with
  | ([], _) => (None, s)
  | (ds, r) => (Some ds, r)
  end.

(** An ordered alternation of literals: the first that is a prefix. *)
Fixpoint first_prefix (T : Type) (alts : list (str * T)) (s : str)
  : option (T * str) :=
  match alts with
  | [] => None
  | (l, t) :: alts' =>
      match strip_prefix l s with
      | Some r => Some (t, r)
      | None => first_prefix alts' s
      end
  end.

Definition parse_epoch (s : str) : option str * str :=
  match span is_digit s with
  | (d :: ds, x :: r) => if is_char "!" x then (Some (d :: ds), r) else (None, s)
  | _ => (None, s)
  end.

(** [[0-9]+(?:\.[0-9]+)*], entered after the first digit; [cur] holds the
    digits of the current component, the last one first. *)
Fixpoint scan_release (cur : str) (s : str) : list str * str :=
  match s with
  | c :: s' =>
      if is_digit c then scan_release (c :: cur) s'
      else if is_char "." c then
        match s' with
        | d :: s'' =>
            if is_digit d then
              let (rel, rest) := scan_release [d] s'' in
              (rev cur :: rel, rest)
            else ([rev cur], s)
        | [] => ([rev cur], s)
        end
      else ([rev cur], s)
  | [] => ([rev cur], [])
  end.

Definition parse_release (s : str) : option (list str * str) :=
  match s with
  | d :: s' => if is_digit d then Some (scan_release [d] s') else None
  | [] => None
  end.

Definition pre_letters : list (str * pre_tag) :=
  [ (lit "alpha", PreA); (lit "a", PreA); (lit "beta", PreB); (lit "b", PreB);
    (lit "preview", PreRC); (lit "pre", PreRC); (lit "c", PreRC);
    (lit "rc", PreRC) ].

Definition post_letters : list (str * unit) :=
  [ (lit "post", tt); (lit "rev", tt); (lit "r", tt) ].

Definition dev_letters : list (str * unit) := [ (lit "dev", tt) ].

(** A letter with the digits that follow it, if any. *)
Definition parse_pre (s : str) : option (pre_tag * option str) * str :=
  match first_prefix pre_letters (opt_sep s) with
  | Some (t, r) =>
      let (n, r') := opt_num (opt_sep r) in (Some (t, n), r')
  | None => (None, s)
  end.

Definition parse_lettered (letters : list (str * unit)) (s : str)
  : option (option str) * str :=
  match first_prefix letters (opt_sep s) with
  | Some (_, r) =>
      let (n, r') := opt_num (opt_sep r) in (Some n, r')
  | None => (None, s)
  end.

Definition parse_post (s : str) : option (option str) * str :=
  match s with
  | x :: s' =>
      if is_char "-" x then
        match span is_digit s' with
        | (d :: ds, r) => (Some (Some (d :: ds)), r)
        | ([], _) => parse_lettered post_letters s
        end
      else parse_lettered post_letters s
  | [] => (None, [])
  end.

Definition parse_dev (s : str) : option (option str) * str :=
  parse_lettered dev_letters s.

Definition is_local_char (c : ascii) : bool := is_digit c || is_ascii_lower c.

(** [[a-z0-9]+(?:[-_\.][a-z0-9]+)*], entered after the first character;
    [cur] is the current part, reversed. *)
Fixpoint scan_local (cur : str) (s : str) : list str * str :=
  match s with
  | c :: s' =>
      if is_local_char c then scan_local (c :: cur) s'
      else if is_sep c then
        match s' with
        | d :: s'' =>
            if is_local_char d then
              let (parts, rest) := scan_local [d] s'' in
              (rev cur :: parts, rest)
            else ([rev cur], s)
        | [] => ([rev cur], s)
        end
      else ([rev cur], s)
  | [] => ([rev cur], [])
  end.

Definition parse_local (s : str) : option (list str) * str :=
  match s with
  | x :: d :: s' =>
      if is_char "+" x && is_local_char d then
        let (parts, rest) := scan_local [d] s' in (Some parts, rest)
      else (None, s)
  | _ => (None, s)
  end.

(** The groups of a match of the pattern: every number as its digits. *)
Record Groups : Type := mkGroups {
  g_epoch : option str;
  g_release : list str;
  g_pre : option (pre_tag * option str);
  g_post : option (option str);
  g_dev : option (option str);
  g_local : option (list str)
}.

(** The match of the pattern on the whole of [s]. *)
Definition version_groups (s : str) : option Groups :=
  let s0 := map lower (strip s) in
  let s1 := match s0 with
            | x :: s' => if is_char "v" x then s' else s0
            | [] => []
            end in
  let (epoch, s2) := parse_epoch s1 in
  match parse_release s2 with
  | None => None
  | Some (release, s3) =>
      let (pre, s4) := parse_pre s3 in
      let (post, s5) := parse_post s4 in
      let (dev, s6) := parse_dev s5 in
      let (loc, s7) := parse_local s6 in
      match s7 with
      | [] => Some (mkGroups epoch release pre post dev loc)
      | _ :: _ => None
      end
  end.

(** What [Version.__init__] makes of the groups.  A letter without a
    number counts as followed by [0]; a part of the local version that is
    all digits is a number. *)
Definition num_or_0 (n : option str) : N :=
  match n with Some ds => num ds | None => 0%N end.

Definition local_part_of (p : str) : local_part :=
  if forallb is_digit p then LInt (num p) else LStr p.

Definition version_of (g : Groups) : Version :=
  mkVersion (num_or_0 (g_epoch g))
            (map num (g_release g))
            (match g_pre g with
             | Some (t, n) => Some (t, num_or_0 n)
             | None => None
             end)
            (option_map num_or_0 (g_post g))
            (option_map num_or_0 (g_dev g))
            (option_map (map local_part_of) (g_local g)).

(** The texts that [Version.__init__] passes to [int]. *)
Definition some_digits (n : option str) : list str :=
  match n with Some ds => [ds] | None => [] end.

Definition converted (g : Groups) : list str :=
  some_digits (g_epoch g)
  ++ g_release g
  ++ match g_pre g with Some (_, n) => some_digits n | None => [] end
  ++ match g_post g with Some n => some_digits n | None => [] end
  ++ match g_dev g with Some n => some_digits n | None => [] end
  ++ match g_local g with
     | Some parts => filter (forallb is_digit) parts
     | None => []
     end.

(** [version.parse]: [None] stands for [InvalidVersion], raised when the
    pattern does not match.  When it matches, the numbers are converted:
    [version_parse] gives the [Version] that comes of it, and
    [version_too_long] says whether [int] refuses one of them, in which
    case [version.parse] raises [ValueError] and builds nothing. *)
Definition version_parse (s : str) : option Version :=
  option_map version_of (version_groups s).

Definition version_too_long (s : str) : bool :=
  match version_groups s with
  | Some g => existsb int_refuses (converted g)
  | None => false
  end.

(** *** The comparison key ([_cmpkey]) *)

Inductive ext (A : Type) : Type :=
| NegInf
| Fin (a : A)
| PosInf.
Arguments NegInf {A}.
Arguments PosInf {A}.

Definition ext_compare (A : Type) (cmp : A -> A -> comparison)
  (x y : ext A) : comparison :=
  match x, y with
  | NegInf, NegInf => Eq
  | NegInf, _ => Lt
  | _, NegInf => Gt
  | PosInf, PosInf => Eq
  | PosInf, _ => Gt
  | _, PosInf => Lt
  | Fin a, Fin b => cmp a b
  end.

(** Lexicographic order of tuples: a proper prefix is smaller. *)
Fixpoint lex_compare (A : Type) (cmp : A -> A -> comparison)
  (x y : list A) : comparison :=
  match x, y with
  | [], [] => Eq
  | [], _ :: _ => Lt
  | _ :: _, [] => Gt
  | a :: x', b :: y' =>
      match cmp a b with
      | Eq => lex_compare cmp x' y'
      | c => c
      end
  end.

Definition then_compare (c : comparison) (d : comparison) : comparison :=
  match c with Eq => d | _ => c end.

Definition char_compare (a b : ascii) : comparison :=
  Nat.compare (code a) (code b).

Definition pre_rank (t : pre_tag) : nat :=
  match t with PreA => 0 | PreB => 1 | PreRC => 2 end.

Definition pre_compare (x y : pre_tag * N) : comparison :=
  then_compare (Nat.compare (pre_rank (fst x)) (pre_rank (fst y)))
               (N.compare (snd x) (snd y)).

(** A numeric local part is keyed [(n, empty string)], a textual one
    [(-Infinity, s)]: text sorts before numbers. *)
Definition local_part_compare (x y : local_part) : comparison :=
  match x, y with
  | LInt a, LInt b => N.compare a b
  | LInt _, LStr _ => Gt
  | LStr _, LInt _ => Lt
  | LStr a, LStr b => lex_compare char_compare a b
  end.

Fixpoint drop_zeros (l : list N) : list N :=
  match l with
  | 0%N :: l' => drop_zeros l'
  | _ => l
  end.

Record Key : Type := mkKey {
  k_epoch : N;
  k_release : list N;
  k_pre : ext (pre_tag * N);
  k_post : ext N;
  k_dev : ext N;
  k_local : ext (list local_part)
}.

Definition cmpkey (v : Version) : Key :=
  mkKey (v_epoch v)
        (rev (drop_zeros (rev (v_release v))))
        (match v_pre v, v_post v, v_dev v with
         | None, None, Some _ => NegInf
         | None, _, _ => PosInf
         | Some p, _, _ => Fin p
         end)
        (match v_post v with None => NegInf | Some n => Fin n end)
        (match v_dev v with None => PosInf | Some n => Fin n end)
        (match v_local v with None => NegInf | Some l => Fin l end).

Definition key_compare (a b : Key) : comparison :=
  then_compare (N.compare (k_epoch a) (k_epoch b))
  (then_compare (lex_compare N.compare (k_release a) (k_release b))
  (then_compare (ext_compare pre_compare (k_pre a) (k_pre b))
  (then_compare (ext_compare N.compare (k_post a) (k_post b))
  (then_compare (ext_compare N.compare (k_dev a) (k_dev b))
     (ext_compare (lex_compare local_part_compare) (k_local a) (k_local b)))))).

(** [a > b] on versions. *)
Definition version_gt (a b : Version) : bool :=
  match key_compare (cmpkey a) (cmpkey b) with
  | Gt => true
  | _ => false
  end.

(** ** The outside world *)

(** A rate-limit header as [int(response.headers.get(name, 0))] sees it:
    missing, a text that [int] reads as [z], or a text that [int] rejects. *)
Inductive header : Type :=
| HAbsent
| HInt (z : Z)
| HBad.

(** The body of a response as [handle_version_response] uses it:
    [response.json()] fails; the document is falsy (an empty list);
    indexing it raises [KeyError]; indexing it raises [TypeError]; or the
    first entry carries the strings [name] and [commit.sha]. *)
Inductive body : Type :=
| BodyNotJson
| BodyFalsy
| BodyKeyError
| BodyTypeError
| BodyTags (name sha : str).

Record Response : Type := mkResponse {
  status_code : Z;
  x_ratelimit_remaining : header;
  x_ratelimit_reset : header;
  json : body
}.

(** What [requests.get] does: it raises one of the three exception classes
    caught by [execute_github_request], or an [OSError] that [requests]
    does not wrap (a bundle of certificates that is not found, say), or it
    returns a response. *)
Inductive net_outcome : Type :=
| ConnectionError
| Timeout
| RequestException
| PlainOSError
| Responded (r : Response).

Inductive io_op : Type :=
| OpRead (path : str)
| OpMakeDirs (dir : str)
| OpCopy (src dst : str)
| OpWrite (path : str).

(** An I/O call succeeds, or raises [OSError], or meets a text that the
    codec refuses.  An [OSError] comes at once ([IoFail]) or when the file
    is closed ([IoFailAtClose]).  A failed copy or write may have left the
    first [n] characters in the target, or not have touched it ([None]: the
    target could not be opened).  [IoUnicodeError]: the file read is no
    UTF-8, or the text written holds a character that UTF-8 cannot encode
    (a lone surrogate); the texts of the embedding do not show which, so
    the world says it. *)
Inductive io_outcome : Type :=
| IoOk
| IoFail (left : option nat)
| IoFailAtClose (left : nat)
| IoUnicodeError (left : nat).

Record World : Type := mkWorld {
  net : nat -> str -> str -> option str -> net_outcome;
  clock : nat -> Z;
  io : nat -> io_op -> io_outcome
}.

(** ** State *)

Inductive message : Type :=
| MsgSkippingRequest
| MsgConnectionError
| MsgTimedOut (owner repo : str)
| MsgRequestError (owner repo : str)
| MsgInvalidToken
| MsgHttpError (owner repo : str)
| MsgJsonError (owner repo : str)
| MsgRateLimitWaiting (wait_time : Z)
| MsgRateLimitReached
| MsgErrorProcessing (file_path : str)
| MsgFoundUpdate (owner repo current_version latest_version : str)
| MsgDryRun (current_sha latest_sha latest_version : str)
| MsgUpdatedFile (file_path : str)
| MsgErrorWriting (file_path : str)
| MsgBackupCreated (backup_file_path : str)
| MsgErrorBackup (file_path : str)
| MsgChecking (file_path : str).

Inductive event : Type :=
| Print (m : message)
| Request (owner repo : str)
| Sleep (seconds : Z)
| MadeDirs (dir : str)
| Copied (src dst : str)
| Wrote (path : str).

Inductive exn : Type :=
| TypeError
| ValueError
| InvalidVersion
| SystemExit (status : Z)
| OSError
| TemplateEscape
| OverflowError
| UnicodeDecodeError
| UnicodeEncodeError.

Record FileSystem : Type := mkFS {
  files : list (str * str);
  dirs : list str
}.

Record Stats : Type := mkStats {
  total_files : nat;
  files_updated : nat;
  total_changes : nat
}.

(** [trace] is in the order of time.  [requests_made] and [io_made] count
    the calls made so far and index the oracles of the world. *)
Record State : Type := mkState {
  version_cache : list ((str * str) * (str * str));
  rate_limit_exceeded : bool;
  stats : Stats;
  fs : FileSystem;
  trace : list event;
  requests_made : nat;
  io_made : nat
}.

Definition initial_state (disk : FileSystem) : State :=
  mkState [] false (mkStats 0 0 0) disk [] 0 0.

Definition set_cache (c : list ((str * str) * (str * str))) (st : State) : State :=
  mkState c (rate_limit_exceeded st) (stats st) (fs st) (trace st)
          (requests_made st) (io_made st).

Definition set_flag (b : bool) (st : State) : State :=
  mkState (version_cache st) b (stats st) (fs st) (trace st)
          (requests_made st) (io_made st).

Definition set_stats (x : Stats) (st : State) : State :=
  mkState (version_cache st) (rate_limit_exceeded st) x (fs st) (trace st)
          (requests_made st) (io_made st).

Definition set_fs (d : FileSystem) (st : State) : State :=
  mkState (version_cache st) (rate_limit_exceeded st) (stats st) d (trace st)
          (requests_made st) (io_made st).

Definition log (e : event) (st : State) : State :=
  mkState (version_cache st) (rate_limit_exceeded st) (stats st) (fs st)
          (trace st ++ [e]) (requests_made st) (io_made st).

Definition count_request (st : State) : State :=
  mkState (version_cache st) (rate_limit_exceeded st) (stats st) (fs st)
          (trace st) (S (requests_made st)) (io_made st).

Definition count_io (st : State) : State :=
  mkState (version_cache st) (rate_limit_exceeded st) (stats st) (fs st)
          (trace st) (requests_made st) (S (io_made st)).

(** ** Computations *)

Inductive result (A : Type) : Type :=
| Ok (a : A)
| Raise (e : exn).
Arguments Raise {A} e.

Definition M (A : Type) : Type := State -> State * result A.

Definition ret (A : Type) (a : A) : M A := fun st => (st, Ok a).

Definition raise (A : Type) (e : exn) : M A := fun st => (st, Raise e).
Arguments raise {A} e.

Definition bind (A B : Type) (c : M A) (k : A -> M B) : M B :=
  fun st =>
    match c st with
    | (st', Ok a) => k a st'
    | (st', Raise e) => (st', Raise e)
    end.

Notation "x <- c ;; k" := (bind c (fun x => k))
  (at level 61, c at next level, right associativity).
Notation "' pat <- c ;; k" := (bind c (fun x => match x with pat => k end))
  (at level 61, pat pattern, c at next level, right associativity).
Notation "c ;;; k" := (bind c (fun _ => k))
  (at level 61, right associativity).

Definition gets (A : Type) (f : State -> A) : M A := fun st => (st, Ok (f st)).

Definition modify (f : State -> State) : M unit := fun st => (f st, Ok tt).

Definition print (m : message) : M unit := modify (log (Print m)).

Definition when (b : bool) (c : M unit) : M unit := if b then c else ret tt.

(** [try: c  except (IOError, OSError): h] *)
Definition except_oserror (A : Type) (c : M A) (h : M A) : M A :=
  fun st =>
    match c st with
    | (st', Raise OSError) => h st'
    | r => r
    end.

(** ** Dictionaries and the file system *)

Definition key_eqb (a b : str * str) : bool :=
  str_eqb (fst a) (fst b) && str_eqb (snd a) (snd b).

Fixpoint cache_get (k : str * str) (c : list ((str * str) * (str * str)))
  : option (str * str) :=
  match c with
  | [] => None
  | (k', v) :: c' => if key_eqb k' k then Some v else cache_get k c'
  end.

Fixpoint cache_put (k : str * str) (v : str * str)
  (c : list ((str * str) * (str * str))) : list ((str * str) * (str * str)) :=
  match c with
  | [] => [(k, v)]
  | (k', v') :: c' =>
      if key_eqb k' k then (k', v) :: c' else (k', v') :: cache_put k v c'
  end.

Fixpoint file_get (p : str) (l : list (str * str)) : option str :=
  match l with
  | [] => None
  | (q, c) :: l' => if str_eqb q p then Some c else file_get p l'
  end.

Fixpoint file_put (p c : str) (l : list (str * str)) : list (str * str) :=
  match l with
  | [] => [(p, c)]
  | (q, d) :: l' =>
      if str_eqb q p then (q, c) :: l' else (q, d) :: file_put p c l'
  end.

Definition put_file (p c : str) (d : FileSystem) : FileSystem :=
  mkFS (file_put p c (files d)) (dirs d).

Definition add_dir (p : str) (d : FileSystem) : FileSystem :=
  if existsb (str_eqb p) (dirs d) then d else mkFS (files d) (p :: dirs d).

Definition LF : ascii := "010"%char.
Definition CR : ascii := "013"%char.

(** Text mode with universal newlines: [\r\n] and [\r] are read as [\n]. *)
Fixpoint universal_newlines (s : str) : str :=
  match s with
  | [] => []
  | c :: s' =>
      if is_char CR c then
        match s' with
        | d :: s'' =>
            if is_char LF d then LF :: universal_newlines s''
            else LF :: universal_newlines s'
        | [] => [LF]
        end
      else c :: universal_newlines s'
  end.

(** [readlines]: cut after every [\n]; [cur] is the current line, reversed. *)
Fixpoint split_lines (cur : str) (s : str) : list str :=
  match s with
  | [] => match cur with [] => [] | _ :: _ => [rev cur] end
  | c :: s' =>
      if is_char LF c then rev (c :: cur) :: split_lines [] s'
      else split_lines (c :: cur) s'
  end.

Definition readlines (content : str) : list str :=
  split_lines [] (universal_newlines content).

(** *** [os.path] (POSIX) *)

Definition is_slash (c : ascii) : bool := is_char "/" c.

(** [(p[:i], p[i:])] for [i = p.rfind('/') + 1]. *)
Fixpoint split_last_slash (p : str) : str * str :=
  match p with
  | [] => ([], [])
  | c :: p' =>
      let (h, t) := split_last_slash p' in
      if nonempty h then (c :: h, t)
      else if is_slash c then ([c], t)
      else ([], c :: t)
  end.

Fixpoint lstrip_slashes (s : str) : str :=
  match s with
  | c :: s' => if is_slash c then lstrip_slashes s' else s
  | [] => []
  end.

Definition dirname (p : str) : str :=
  let head := fst (split_last_slash p) in
  if nonempty head && negb (forallb is_slash head)
  then rev (lstrip_slashes (rev head))
  else head.

Definition basename (p : str) : str := snd (split_last_slash p).

Definition ends_with_slash (a : str) : bool :=
  match rev a with
  | c :: _ => is_slash c
  | [] => false
  end.

Definition join (a b : str) : str :=
  match b with
  | c :: _ =>
      if is_slash c then b
      else if negb (nonempty a) || ends_with_slash a then a ++ b
      else a ++ lit "/" ++ b
  | [] =>
      if negb (nonempty a) || ends_with_slash a then a else a ++ lit "/"
  end.

Section Program.
Variable w : World.

(** Every I/O call asks the world first. *)
Definition io_call (op : io_op) : M io_outcome :=
  fun st => (count_io st, Ok (io w (io_made st) op)).

(** [with open(path, 'r', encoding='utf-8') as file: file.readlines()] *)
Definition read_file (path : str) : M (list str) :=
  o <- io_call (OpRead path) ;;
  match o with
  | IoFail _ | IoFailAtClose _ => raise OSError
  | IoOk | IoUnicodeError _ =>
      d <- gets fs ;;
      match file_get path (files d) with
      | None => raise OSError
      | Some content =>
          match o with
          | IoOk => ret (readlines content)
          | _ => raise UnicodeDecodeError
          end
      end
  end.

(** [os.makedirs(dir, exist_ok=True)] *)
Definition makedirs (dir : str) : M unit :=
  o <- io_call (OpMakeDirs dir) ;;
  match o with
  | IoOk =>
      d <- gets fs ;;
      match file_get dir (files d) with
      | Some _ => raise OSError
      | None => modify (set_fs (add_dir dir d)) ;;; modify (log (MadeDirs dir))
      end
  | _ => raise OSError
  end.

(** [shutil.copyfile(src, dst)], which copies bytes: every failure is an
    [OSError]. *)
Definition copyfile (src dst : str) : M unit :=
  o <- io_call (OpCopy src dst) ;;
  d <- gets fs ;;
  match file_get src (files d) with
  | None => raise OSError
  | Some content =>
      match o with
      | IoOk =>
          modify (set_fs (put_file dst content d)) ;;;
          modify (log (Copied src dst))
      | IoFail None => raise OSError
      | IoFail (Some n) | IoFailAtClose n | IoUnicodeError n =>
          modify (set_fs (put_file dst (firstn n content) d)) ;;; raise OSError
      end
  end.

(** The file at [path] now holds [content]. *)
Definition store (path content : str) : M unit :=
  modify (fun st => set_fs (put_file path content (fs st)) st).

(** [open(path, 'w', encoding='utf-8')] empties the file.  The world says
    once how the writing will end; its answer goes with the file object. *)
Definition open_w (path : str) : M io_outcome :=
  o <- io_call (OpWrite path) ;;
  match o with
  | IoFail None => raise OSError
  | _ => store path [] ;;; ret o
  end.

(** [file.writelines(lines)]: what it raises, it raises after the first
    [n] characters, which the closing of the file leaves in it. *)
Definition writelines (o : io_outcome) (path : str) (lines : list str)
  : M unit :=
  match o with
  | IoFail (Some n) =>
      store path (firstn n (List.concat lines)) ;;; raise OSError
  | IoUnicodeError n =>
      store path (firstn n (List.concat lines)) ;;; raise UnicodeEncodeError
  | _ => ret tt
  end.

(** The end of the [with] block: the file is closed, and what was
    buffered reaches it. *)
Definition close_w (o : io_outcome) (path : str) (lines : list str)
  : M unit :=
  match o with
  | IoFailAtClose n =>
      store path (firstn n (List.concat lines)) ;;; raise OSError
  | _ => store path (List.concat lines) ;;; modify (log (Wrote path))
  end.

(** *** The resolver *)

Definition check_rate_limit (verbose : bool) : M bool :=
  exceeded <- gets rate_limit_exceeded ;;
  if exceeded
  then when verbose (print MsgSkippingRequest) ;;; ret true
  else ret false.

Definition get_cached_version (owner repo : str) : M (option (str * str)) :=
  cache <- gets version_cache ;;
  ret (cache_get (owner, repo) cache).

(** [int(response.headers.get(name, 0))] *)
Definition int_header (h : header) : M Z :=
  match h with
  | HAbsent => ret 0%Z
  | HInt z => ret z
  | HBad => raise ValueError
  end.

(** [time.sleep(seconds)] for an [int] that is not negative.  The time
    is kept in nanoseconds in 64 bits: more than [sleep_limit] seconds
    raise [OverflowError]. *)
Definition sleep_limit : Z := 9223372036.

Definition sleep (seconds : Z) : M unit :=
  if (sleep_limit <? seconds)%Z then raise OverflowError
  else modify (log (Sleep seconds)).

Definition handle_rate_limit (response : Response) : M unit :=
  remaining <- int_header (x_ratelimit_remaining response) ;;
  reset_time <- int_header (x_ratelimit_reset response) ;;
  if (remaining =? 0)%Z then
    now <- gets (fun st => clock w (requests_made st)) ;;
    let wait_time := Z.max 0 (reset_time - now) in
    print (MsgRateLimitWaiting wait_time) ;;;
    sleep wait_time ;;;
    modify (set_flag false)
  else
    modify (set_flag true) ;;;
    print MsgRateLimitReached.

Definition handle_http_error (response : Response) (owner repo : str)
  : M unit :=
  if (status_code response =? 401)%Z then
    print MsgInvalidToken ;;; raise (SystemExit 1)
  else if (status_code response =? 403)%Z then
    handle_rate_limit response
  else
    print (MsgHttpError owner repo).

(** [raise_for_status] raises [HTTPError] for a status from 400 to 599. *)
Definition is_http_error (response : Response) : bool :=
  ((400 <=? status_code response) && (status_code response <? 600))%Z.

Definition execute_github_request (owner repo : str)
  (github_token : option str) : M (option Response) :=
  n <- gets requests_made ;;
  modify count_request ;;;
  modify (log (Request owner repo)) ;;;
  match net w n owner repo github_token with
  | Responded response =>
      if is_http_error response then
        handle_http_error response owner repo ;;; ret None
      else ret (Some response)
  | ConnectionError => print MsgConnectionError ;;; ret None
  | Timeout => print (MsgTimedOut owner repo) ;;; ret None
  | RequestException => print (MsgRequestError owner repo) ;;; ret None
  | PlainOSError => raise OSError
  end.

Definition handle_version_response (response : Response) (owner repo : str)
  : M (option (str * str)) :=
  if (status_code response =? 200)%Z then
    match json response with
    | BodyNotJson => print (MsgJsonError owner repo) ;;; ret None
    | BodyFalsy => ret None
    | BodyKeyError => print (MsgJsonError owner repo) ;;; ret None
    | BodyTypeError => raise TypeError
    | BodyTags latest_version latest_sha =>
        modify (fun st =>
                  set_cache (cache_put (owner, repo)
                               (latest_version, latest_sha)
                               (version_cache st)) st) ;;;
        ret (Some (latest_version, latest_sha))
    end
  else ret None.

Definition get_latest_version (owner repo : str) (github_token : option str)
  (verbose : bool) : M (option (str * str)) :=
  limited <- check_rate_limit verbose ;;
  if limited then ret None
  else
    cached_result <- get_cached_version owner repo ;;
    match cached_result with
    | Some r => ret (Some r)
    | None =>
        response <- execute_github_request owner repo github_token ;;
        match response with
        | Some r => handle_version_response r owner repo
        | None => ret None
        end
    end.

(** *** The matcher and the rewriter *)

(** [latest_version.lower().startswith('v')] *)
Definition starts_with_v (s : str) : bool :=
  match s with
  | c :: _ => is_char "v" (lower c)
  | [] => false
  end.

(** [re.sub] with a replacement built from upstream text.  A backslash in
    the replacement is an escape that [re.sub] expands or rejects; the
    embedding does not follow it and ends the run with [TemplateEscape]. *)
Definition re_sub_text (p : regex) (repl s : str) : M str :=
  if existsb (is_char "\") repl then raise TemplateEscape
  else ret (re_sub p repl s).

Definition process_line (line : str) (github_token : option str)
  (dry_run verbose : bool) : M (str * bool) :=
  match re_search uses_re line with
  | Some (_, [owner; repo; current_sha; current_version], _) =>
      resolved <- get_latest_version owner repo github_token verbose ;;
      match resolved with
      | None => raise TypeError
      | Some (tag, latest_sha) =>
          let latest_version :=
            if nonempty tag && starts_with_v tag then tl tag else tag in
          if nonempty latest_version && nonempty latest_sha then
            match version_parse latest_version with
            | None => raise InvalidVersion
            | Some latest =>
                if version_too_long latest_version then raise ValueError
                else
                match version_parse current_version with
                | None => raise InvalidVersion
                | Some current =>
                    if version_too_long current_version then raise ValueError
                    else
                    if version_gt latest current then
                      when verbose
                        (print (MsgFoundUpdate owner repo current_version
                                  latest_version)) ;;;
                      if dry_run then
                        print (MsgDryRun current_sha latest_sha
                                 latest_version) ;;;
                        ret (line, true)
                      else
                        line1 <- re_sub_text hash_re
                                   (lit "@" ++ latest_sha) line ;;
                        line2 <- re_sub_text version_comment_re
                                   (lit "# v" ++ latest_version) line1 ;;
                        ret (line2, true)
                    else ret (line, false)
                end
            end
          else ret (line, false)
      end
  | _ => ret (line, false)
  end.

(** *** The file updater *)

Definition create_backup (file_path : str) (verbose : bool) : M unit :=
  except_oserror
    (let backup_dir := join (dirname file_path) (lit "backups") in
     makedirs backup_dir ;;;
     let backup_file_path := join backup_dir (basename file_path) in
     copyfile file_path backup_file_path ;;;
     when verbose (print (MsgBackupCreated backup_file_path)))
    (print (MsgErrorBackup file_path)).

(** The [with] block of [finalize_update]: the file is opened, the lines
    are written, the message is printed, and the file is closed. *)
Definition write_file (file_path : str) (updated_lines : list str)
  (verbose : bool) : M unit :=
  file <- open_w file_path ;;
  writelines file file_path updated_lines ;;;
  when verbose (print (MsgUpdatedFile file_path)) ;;;
  close_w file file_path updated_lines.

Definition count_update (changes_made : nat) (st : State) : State :=
  set_stats (mkStats (total_files (stats st))
                     (S (files_updated (stats st)))
                     (total_changes (stats st) + changes_made)) st.

Definition finalize_update (file_path : str) (updated_lines : list str)
  (changed : bool) (changes_made : nat) (dry_run backup verbose : bool)
  : M unit :=
  if changed then
    modify (count_update changes_made) ;;;
    if negb dry_run then
      when backup (create_backup file_path verbose) ;;;
      except_oserror
        (write_file file_path updated_lines verbose)
        (print (MsgErrorWriting file_path))
    else ret tt
  else ret tt.

(** The [for line in lines] loop of [update_action_version]. *)
Fixpoint for_lines (lines : list str) (github_token : option str)
  (dry_run verbose : bool) (updated_lines : list str) (changed : bool)
  (changes_made : nat) : M (list str * bool * nat) :=
  match lines with
  | [] => ret (updated_lines, changed, changes_made)
  | line :: rest =>
      r <- process_line line github_token dry_run verbose ;;
      let (updated_line, was_changed) := r in
      if was_changed
      then for_lines rest github_token dry_run verbose
             (updated_lines ++ [updated_line]) true (S changes_made)
      else for_lines rest github_token dry_run verbose
             (updated_lines ++ [updated_line]) changed changes_made
  end.

Definition update_action_version (file_path : str)
  (github_token : option str) (dry_run backup verbose : bool) : M unit :=
  except_oserror
    (lines <- read_file file_path ;;
     r <- for_lines lines github_token dry_run verbose [] false 0 ;;
     let '(updated_lines, changed, changes_made) := r in
     finalize_update file_path updated_lines changed changes_made
       dry_run backup verbose)
    (print (MsgErrorProcessing file_path)).

(** *** The orchestrator

    [paths] lists, in the order of the walk, the files that [os.walk]
    yields and whose name ends with one of the extensions. *)

Definition count_file (st : State) : State :=
  set_stats (mkStats (S (total_files (stats st)))
                     (files_updated (stats st))
                     (total_changes (stats st))) st.

Fixpoint for_files (paths : list str) (github_token : option str)
  (dry_run backup verbose : bool) : M unit :=
  match paths with
  | [] => ret tt
  | file_path :: rest =>
      when verbose (print (MsgChecking file_path)) ;;;
      modify count_file ;;;
      update_action_version file_path github_token dry_run backup verbose ;;;
      for_files rest github_token dry_run backup verbose
  end.

Definition update_all_actions (paths : list str) (github_token : option str)
  (dry_run backup verbose : bool) : M unit :=
  modify (set_stats (mkStats 0 0 0)) ;;;
  for_files paths github_token dry_run backup verbose.

(** One run of the program on a disk. *)
Definition run (disk : FileSystem) (paths : list str)
  (github_token : option str) (dry_run backup verbose : bool)
  : State * result unit :=
  update_all_actions paths github_token dry_run backup verbose
    (initial_state disk).
End Program.


(** ** Observations on runs *)

(** The requests of a trace, in order, as [(owner, repo)] pairs. *)
Fixpoint requests_of (t : list event) : list (str * str) :=
  match t with
  | [] => []
  | Request owner repo :: t' => (owner, repo) :: requests_of t'
  | _ :: t' => requests_of t'
  end.

(** How many network calls a trace holds for one [(owner, repo)]. *)
Definition requests_to (k : str * str) (t : list event) : nat :=
  List.length (filter (key_eqb k) (requests_of t)).

(** What the resolver reads and writes of the state. *)
Definition net_view (st : State)
  : list ((str * str) * (str * str)) * bool * nat * list (str * str) :=
  (version_cache st, rate_limit_exceeded st, requests_made st,
   requests_of (trace st)).

(** [requests.get] ended with an [OSError] of its own. *)
Definition is_plain_oserror (o : net_outcome) : bool :=
  match o with
  | PlainOSError => true
  | _ => false
  end.

(** The requests, among [reqs], that ended so, when the first of them is
    the [n]-th of the run. *)
Fixpoint refused_from (w : World) (github_token : option str) (n : nat)
  (reqs : list (str * str)) : list (str * str) :=
  match reqs with
  | [] => []
  | k :: rest =>
      if is_plain_oserror (net w n (fst k) (snd k) github_token)
      then k :: refused_from w github_token (S n) rest
      else refused_from w github_token (S n) rest
  end.

(** How many requests of a trace for one [(owner, repo)] ended so. *)
Definition refused (w : World) (github_token : option str) (k : str * str)
  (t : list event) : nat :=
  List.length (filter (key_eqb k) (refused_from w github_token 0 (requests_of t))).

Section Invariant.
Variable w : World.
Variable github_token : option str.

(** The state of a run that has not crashed: the guard is in its normal
    state, the requests are counted, and a pair was requested once if the
    cache holds it and once for every request that ended with an [OSError]
    of [requests.get]. *)
Definition cache_tracks_requests (st : State) : Prop :=
  rate_limit_exceeded st = false
  /\ requests_made st = List.length (requests_of (trace st))
  /\ forall k,
       requests_to k (trace st)
       = match cache_get k (version_cache st) with
         | Some _ => 1
         | None => 0
         end + refused w github_token k (trace st).

Definition at_most_one_request (st : State) : Prop :=
  forall k, requests_to k (trace st) <= 1 + refused w github_token k (trace st).

(** The exceptional outcome of a step of a run: the bound holds, and an
    [OSError], which the file updater catches, comes from a state that
    still satisfies the invariant. *)
Definition crashed (e : exn) (st : State) : Prop :=
  at_most_one_request st /\ (e = OSError -> cache_tracks_requests st).

Definition cached (k : str * str) (st : State) : Prop :=
  cache_tracks_requests st /\ cache_get k (version_cache st) <> None.
End Invariant.

(** Two states that the resolver cannot tell apart. *)
Definition same_resolver_state (a b : State) : Prop :=
  version_cache a = version_cache b
  /\ rate_limit_exceeded a = rate_limit_exceeded b
  /\ requests_made a = requests_made b.

(** [c] behaves alike in states that the resolver cannot tell apart. *)
Definition resolver_only (A : Type) (c : M A) : Prop :=
  forall a b,
    same_resolver_state a b ->
    snd (c a) = snd (c b) /\ same_resolver_state (fst (c a)) (fst (c b)).

(** A second run of the updater on the disk the first run left, with the
    cache holding what the first run resolved. *)
Definition second_run (w : World) (first : State) (paths : list str)
  (github_token : option str) (dry_run backup verbose : bool)
  : State * result unit :=
  update_all_actions w paths github_token dry_run backup verbose
    (mkState (version_cache first) false (mkStats 0 0 0) (fs first) [] 0 0).

(** Resolving a sequence of pairs, one call after the other. *)
Fixpoint resolve_each (w : World) (pairs : list (str * str))
  (github_token : option str) (verbose : bool)
  : M (list (option (str * str))) :=
  match pairs with
  | [] => ret []
  | (owner, repo) :: rest =>
      r <- get_latest_version w owner repo github_token verbose ;;
      rs <- resolve_each w rest github_token verbose ;;
      ret (r :: rs)
  end.

(** *** Hoare triples for computations *)

Definition hoare (A : Type) (P : State -> Prop) (c : M A)
  (Q : A -> State -> Prop) (E : exn -> State -> Prop) : Prop :=
  forall st, P st ->
    match c st with
    | (st', Ok a) => Q a st'
    | (st', Raise e) => E e st'
    end.

(** [c] leaves the observation [f] of the state as it was, whatever the
    outcome. *)
Definition keeps (V A : Type) (f : State -> V) (c : M A) : Prop :=
  forall st, f (fst (c st)) = f st.

(** [c] never ends with the exception [e]. *)
Definition never_raises (A : Type) (e : exn) (c : M A) : Prop :=
  forall st, snd (c st) <> Raise e.

(** [c] ends normally or with the exception [e]. *)
Definition only_raises (A : Type) (e : exn) (c : M A) : Prop :=
  forall st e', snd (c st) = Raise e' -> e' = e.

(** Where [create_backup] puts the copy of a file. *)
Definition backup_dir_of (file_path : str) : str :=
  join (dirname file_path) (lit "backups").

Definition backup_path_of (file_path : str) : str :=
  join (backup_dir_of file_path) (basename file_path).

(** [version.parse(a) > version.parse(b)]; [None] when either raises. *)
Definition newer (a b : string) : option bool :=
  match version_parse (lit a), version_parse (lit b) with
  | Some x, Some y => Some (version_gt x y)
  | _, _ => None
  end.

(** *** Worlds and disks of the examples *)

Definition always_ok : nat -> io_op -> io_outcome := fun _ _ => IoOk.

Definition world_of (answer : net_outcome) : World :=
  mkWorld (fun _ _ _ _ => answer) (fun _ => 0%Z) always_ok.

Definition tags (name sha : string) : net_outcome :=
  Responded (mkResponse 200 HAbsent HAbsent (BodyTags (lit name) (lit sha))).

Definition ci_yml : str := lit ".github/workflows/ci.yml".
Definition release_yml : str := lit ".github/workflows/release.yml".
Definition ci_backup : str := lit ".github/workflows/backups/ci.yml".

Definition checkout_line : str :=
  lit "      - uses: actions/checkout@abc123 # v3.1" ++ [LF].

Definition tool_line : str :=
  lit "      - uses: acme/tool@deadbeef # v1.2.0" ++ [LF].

Definition disk_of (ci release : str) : FileSystem :=
  mkFS [(ci_yml, ci); (release_yml, release)] [].

Definition soft_403 : net_outcome :=
  Responded (mkResponse 403 (HInt 12) (HInt 1700000600) BodyNotJson).

Definition hard_403 : Response :=
  mkResponse 403 (HInt 0) (HInt 1700000600) BodyNotJson.

(** A reset that lies one second more than [sleep_limit] after the time
    of [guard_world]. *)
Definition far_403 : Response :=
  mkResponse 403 (HInt 0) (HInt 10923372037) BodyNotJson.

Definition guard_world : World :=
  mkWorld (fun _ _ _ _ => soft_403) (fun _ => 1700000000%Z) always_ok.

(** A world that answers the first request with a tag and every later one
    with a 403 that leaves quota. *)
Definition then_limited : World :=
  mkWorld (fun n _ _ _ =>
             match n with
             | O => tags "v4.0.0" "cafebabe"
             | S _ => soft_403
             end)
          (fun _ => 1700000000%Z) always_ok.

(** A world in which every copy fails before the target is opened. *)
Definition no_copy : nat -> io_op -> io_outcome :=
  fun _ op =>
    match op with
    | OpCopy _ _ => IoFail None
    | _ => IoOk
    end.

Definition no_copy_world : World :=
  mkWorld (fun _ _ _ _ => tags "v1.3.0" "cafebabe") (fun _ => 0%Z) no_copy.

Definition updated_tool_line : str :=
  lit "      - uses: acme/tool@cafebabe # v1.3.0" ++ [LF].

(** I/O oracles that fail one kind of call, before the target is opened. *)
Definition failing (bad : io_op -> bool) : nat -> io_op -> io_outcome :=
  fun _ op => if bad op then IoFail None else IoOk.

Definition is_read (op : io_op) : bool :=
  match op with OpRead _ => true | _ => false end.

Definition is_makedirs (op : io_op) : bool :=
  match op with OpMakeDirs _ => true | _ => false end.

Definition is_write (op : io_op) : bool :=
  match op with OpWrite _ => true | _ => false end.

Definition faulty_world (bad : io_op -> bool) : World :=
  mkWorld (fun _ _ _ _ => tags "v1.3.0" "cafebabe") (fun _ => 0%Z) (failing bad).

(** A world in which one kind of call ends as [how] says. *)
Definition world_ending (bad : io_op -> bool) (how : io_outcome) : World :=
  mkWorld (fun _ _ _ _ => tags "v1.3.0" "cafebabe") (fun _ => 0%Z)
    (fun _ op => if bad op then how else IoOk).

(** *** Lines of the reference shape *)

(** [s] is empty or starts with a character outside [c]. *)
Definition starts_outside (c : ascii -> bool) (s : str) : bool :=
  match s with
  | [] => true
  | x :: _ => negb (c x)
  end.

Definition without (x : ascii) (s : str) : bool :=
  forallb (fun c => negb (is_char x c)) s.

(** A line of the reference shape: [v] is what stands between the comment
    marker (and its white space) and the version. *)
Definition reference_line (pre ws1 owner repo sha ws2 ws3 v ver post : str)
  : str :=
  pre ++ lit "uses:" ++ ws1 ++ owner ++ lit "/" ++ repo ++ lit "@" ++ sha
      ++ ws2 ++ lit "#" ++ ws3 ++ v ++ ver ++ post.

(** The classes of the parts of a match of [uses_re], and the end of the
    version: [post] is empty or starts outside [[\d.]]. *)
Definition reference_shape (ws1 owner repo sha ws2 ws3 ver post : str) : bool :=
  (nonempty ws1 && forallb is_space ws1)
  && (nonempty owner && forallb is_word_dash owner)
  && (nonempty repo && forallb is_word_dash repo)
  && (nonempty sha && forallb is_hex sha)
  && (nonempty ws2 && forallb is_space ws2)
  && forallb is_space ws3
  && (nonempty ver && forallb is_digit_dot ver)
  && starts_outside is_digit_dot post.

(** The number of places of [s] at which [l] starts ([s.count(l)], for an
    [l] like [uses:] that cannot overlap itself). *)
Fixpoint count_of (l s : str) : nat :=
  match strip_prefix l s with Some _ => 1 | None => 0 end
  + match s with
    | [] => 0
    | _ :: s' => count_of l s'
    end.

(** Nothing else on the line looks like a hash or a version comment. *)
Definition plain_context (pre post : str) : bool :=
  without "@" pre && without "#" pre && without "@" post && without "#" post.


(** ** Further observations *)

From Stdlib Require Import Permutation Sorted.

(** The answers after which [get_latest_version] returns [None] without
    raising and without touching the guard: a transport failure, an HTTP
    error other than 401 and 403, a status other than 200, or a 200 whose
    body is no JSON, is falsy or lacks a key. *)
Definition resolves_to_nothing (o : net_outcome) : bool :=
  match o with
  | ConnectionError | Timeout | RequestException => true
  | PlainOSError => false
  | Responded r =>
      if is_http_error r then
        negb (status_code r =? 401)%Z && negb (status_code r =? 403)%Z
      else if (status_code r =? 200)%Z then
        match json r with
        | BodyNotJson | BodyFalsy | BodyKeyError => true
        | BodyTypeError | BodyTags _ _ => false
        end
      else true
  end.

(** The exception with which the processing of a reference ends after an
    answer that gives no version, if it is such an answer: every answer but
    a 200 with a list of tags and an [OSError] of [requests.get], which
    ends the processing of the file only.  [now] is the time at which a
    403 is handled. *)
Definition crash_of (now : Z) (o : net_outcome) : option exn :=
  match o with
  | ConnectionError | Timeout | RequestException => Some TypeError
  | PlainOSError => None
  | Responded r =>
      if is_http_error r then
        if (status_code r =? 401)%Z then Some (SystemExit 1)
        else if (status_code r =? 403)%Z then
          match x_ratelimit_remaining r, x_ratelimit_reset r with
          | HBad, _ | _, HBad => Some ValueError
          | HInt remaining, reset =>
              if (remaining =? 0)%Z
                 && (sleep_limit
                     <? Z.max 0 (match reset with HInt z => z | _ => 0 end
                                 - now))%Z
              then Some OverflowError
              else Some TypeError
          | HAbsent, reset =>
              if (sleep_limit
                  <? Z.max 0 (match reset with HInt z => z | _ => 0 end
                              - now))%Z
              then Some OverflowError
              else Some TypeError
          end
        else Some TypeError
      else if (status_code r =? 200)%Z then
        match json r with
        | BodyTags _ _ => None
        | _ => Some TypeError
        end
      else Some TypeError
  end.

(** Every event that [c] adds to the trace satisfies [P], and [c] only
    adds to the trace. *)
Definition emits (A : Type) (P : event -> Prop) (c : M A) : Prop :=
  forall st, exists t, trace (fst (c st)) = trace st ++ t /\ Forall P t.

(** What the resolver and the matcher may do to the outside. *)
Definition resolver_event (e : event) : Prop :=
  match e with
  | Print _ | Request _ _ => True
  | Sleep seconds => (0 <= seconds)%Z
  | MadeDirs _ | Copied _ _ | Wrote _ => False
  end.

(** What a run over [paths] may do to the outside: it never sleeps a
    negative time, writes listed files only, copies a listed file to its
    backup path only, and none of these in a dry run, the last two only
    when backups are asked for. *)
Definition run_event (paths : list str) (dry_run backup : bool) (e : event)
  : Prop :=
  match e with
  | Print _ | Request _ _ => True
  | Sleep seconds => (0 <= seconds)%Z
  | MadeDirs dir =>
      dry_run = false /\ backup = true
      /\ exists p, In p paths /\ dir = backup_dir_of p
  | Copied src dst =>
      dry_run = false /\ backup = true
      /\ In src paths /\ dst = backup_path_of src
  | Wrote path => dry_run = false /\ In path paths
  end.

(** The paths that a run over [paths] may write to. *)
Definition touched (paths : list str) (dry_run backup : bool) (q : str)
  : Prop :=
  dry_run = false
  /\ (In q paths
      \/ (backup = true /\ exists p, In p paths /\ q = backup_path_of p)).

(** The content of the file at [q], if there is one. *)
Definition file_at (q : str) (st : State) : option str :=
  file_get q (files (fs st)).

(** What [for_lines] does to a line that it may not change. *)
Definition line_kept (dry_run : bool) (line updated_line : str) : Prop :=
  dry_run = true \/ re_search uses_re line = None -> updated_line = line.

(** ** The arguments and the walk *)

(** [s.endswith(suffix)] *)
Definition ends_with (suffix s : str) : bool :=
  match strip_prefix (rev suffix) (rev s) with
  | Some _ => true
  | None => false
  end.

(** [s.split(sep)] for a separator of one character. *)
Fixpoint split (sep : ascii) (s : str) : list str :=
  match s with
  | [] => [[]]
  | x :: s' =>
      if Ascii.eqb sep x then [] :: split sep s'
      else
        match split sep s' with
        | item :: items => (x :: item) :: items
        | [] => [[x]]
        end
  end.

(** [sep.join(items)] *)
Fixpoint joined (sep : ascii) (items : list str) : str :=
  match items with
  | [] => []
  | item :: items' =>
      match items' with
      | [] => item
      | _ :: _ => item ++ sep :: joined sep items'
      end
  end.

(** The list comprehension of [main]: every item of the argument, cut at
    the commas, stripped of the white space around it, after a dot. *)
Definition parse_extensions (extensions : str) : list str :=
  map (fun ext => lit "." ++ strip ext) (split "," extensions).

(** An item of the argument as the user writes it: a core between two runs
    of white space.  The core holds no comma and neither starts nor ends
    with white space; it may be empty. *)
Definition padded_item (i : str * str * str) : bool :=
  let '(before, core, after) := i in
  forallb is_space before && forallb is_space after
  && without "," core
  && starts_outside is_space core && starts_outside is_space (rev core).

Definition item_text (i : str * str * str) : str :=
  let '(before, core, after) := i in before ++ core ++ after.

Definition item_core (i : str * str * str) : str :=
  let '(_, core, _) := i in core.

(** [a <= b] on [str]: the order of code points, a prefix first. *)
Fixpoint str_leb (a b : str) : bool :=
  match a, b with
  | [], _ => true
  | _ :: _, [] => false
  | x :: a', y :: b' =>
      (code x <? code y) || ((code x =? code y) && str_leb a' b')
  end.

Section Sorting.
Variable A : Type.
Variable key : A -> str.

Fixpoint insert (x : A) (l : list A) : list A :=
  match l with
  | [] => [x]
  | y :: l' => if str_leb (key x) (key y) then x :: l else y :: insert x l'
  end.

(** [sorted(l)]: the sort is stable, as Python's is. *)
Definition sorted (l : list A) : list A := fold_right insert [] l.

(** The order in which [sorted] puts its elements. *)
Definition key_le (a b : A) : Prop := str_leb (key a) (key b) = true.
End Sorting.

(** What [os.walk] sees of the tree under the folder: a directory lists its
    entries in an order of its own.  A symbolic link to a directory is not
    followed and stands here as a directory without entries. *)
#[local] Unset Elimination Schemes.
Inductive node : Type :=
| File
| Dir (entries : list (str * node)).
#[local] Set Elimination Schemes.

(** The [files] of a directory, in the order of the listing. *)
Definition file_names (entries : list (str * node)) : list str :=
  flat_map (fun e => match snd e with File => [fst e] | Dir _ => [] end)
           entries.

(** [any(filename.endswith(ext) for ext in extensions)] *)
Definition has_extension (extensions : list str) (filename : str) : bool :=
  existsb (fun ext => ends_with ext filename) extensions.

(** [[d for d in dirs if d != "backups"]], every directory with what the
    walk yields below it, which [below] computes. *)
Definition subwalks (below : str -> node -> list str)
  : list (str * node) -> list (str * list str) :=
  fix each (es : list (str * node)) : list (str * list str) :=
    match es with
    | [] => []
    | (d, sub) :: es' =>
        match sub with
        | File => each es'
        | Dir _ =>
            if str_eqb d (lit "backups") then each es'
            else (d, below d sub) :: each es'
        end
    end.

(** The loop over [os.walk(folder_path)] in [update_all_actions]: the paths
    handed to [update_action_version], in order.  For every directory the
    files come first, sorted; then the subdirectories that are not named
    [backups], sorted, if the walk is recursive. *)
Fixpoint walk (recursive : bool) (extensions : list str) (root : str)
  (n : node) : list str :=
  match n with
  | File => []
  | Dir entries =>
      map (join root)
          (filter (has_extension extensions)
                  (sorted (fun filename => filename) (file_names entries)))
      ++ (if recursive
          then
            List.concat
              (map snd
                 (sorted fst
                    (subwalks
                       (fun d sub =>
                          walk recursive extensions (join root d) sub)
                       entries)))
          else [])
  end.

(** [name] is a file in the directory reached from the node through the
    directories [ds]. *)
Inductive file_under : node -> list str -> str -> Prop :=
| file_here entries name :
    In (name, File) entries -> file_under (Dir entries) [] name
| file_below entries d sub ds name :
    In (d, Dir sub) entries -> file_under (Dir sub) ds name ->
    file_under (Dir entries) (d :: ds) name.

(** The files that the walk is to yield: the files of the tree whose name
    ends with one of the extensions, reached without passing through a
    directory named [backups], and in the folder itself if the walk is not
    recursive.  The path is the folder joined with the directories, then
    with the name. *)
Definition candidate (recursive : bool) (extensions : list str) (root : str)
  (tree : node) (p : str) : Prop :=
  exists ds name,
    file_under tree ds name
    /\ (recursive = false -> ds = [])
    /\ ~ In (lit "backups") ds
    /\ has_extension extensions name = true
    /\ p = join (fold_left join ds root) name.

(** Two trees that differ in the order of their listings only.  Names are
    told apart in a directory whose listing is reordered. *)
Inductive same_tree : node -> node -> Prop :=
| same_refl n : same_tree n n
| same_trans a b c : same_tree a b -> same_tree b c -> same_tree a c
| same_reordered es es' :
    NoDup (map fst es) -> Permutation es es' ->
    same_tree (Dir es) (Dir es')
| same_inside es1 d sub sub' es2 :
    same_tree (Dir sub) (Dir sub') ->
    same_tree (Dir (es1 ++ (d, Dir sub) :: es2))
              (Dir (es1 ++ (d, Dir sub') :: es2)).

(** The command line, as [argparse] returns it. *)
Record Args : Type := mkArgs {
  arg_path : str;
  arg_github_token : option str;
  arg_dry_run : bool;
  arg_backup : bool;
  arg_extensions : str;
  arg_recursive : bool;
  arg_verbose : bool
}.

(** [main], on the tree that the walk finds under [args.path]. *)
Definition main (w : World) (args : Args) (tree : node) : M unit :=
  let extensions := parse_extensions (arg_extensions args) in
  update_all_actions w
    (walk (arg_recursive args) extensions (arg_path args) tree)
    (arg_github_token args) (arg_dry_run args) (arg_backup args)
    (arg_verbose args).

(** What [main] may write and copy: candidates of the walk with the
    extensions of the command line, and nothing in a dry run. *)
Definition main_event (args : Args) (tree : node) (e : event) : Prop :=
  match e with
  | Wrote p | Copied p _ =>
      arg_dry_run args = false
      /\ candidate (arg_recursive args)
           (parse_extensions (arg_extensions args)) (arg_path args) tree p
  | _ => True
  end.

(** The messages that are printed [if verbose] only. *)
Definition detail (e : event) : bool :=
  match e with
  | Print MsgSkippingRequest
  | Print (MsgFoundUpdate _ _ _ _)
  | Print (MsgUpdatedFile _)
  | Print (MsgBackupCreated _)
  | Print (MsgChecking _) => true
  | _ => false
  end.

(** * Properties *)

(** ** The scenarios of the specification *)

(** Scenario A: an older pin is rewritten to the newest hash and version. *)
Example scenario_A :
  snd (process_line (world_of (tags "v1.3.0" "cafebabe"))
         (lit "uses: acme/tool@deadbeef # v1.2.0") None false false
         (initial_state (mkFS [] [])))
  = Ok (lit "uses: acme/tool@cafebabe # v1.3.0", true).
Proof. vm_compute. reflexivity. Qed.

(** Scenario B: a pin newer than the first listed tag is kept. *)
Example scenario_B :
  snd (process_line (world_of (tags "v1.3.0" "cafebabe"))
         (lit "uses: acme/tool@deadbeef # v2.0.0") None false false
         (initial_state (mkFS [] [])))
  = Ok (lit "uses: acme/tool@deadbeef # v2.0.0", false).
Proof. vm_compute. reflexivity. Qed.

(** Scenario C: [# version-unknown] does not fit the pattern; the line is
    kept, nothing is resolved and nothing is printed. *)
Example scenario_C :
  process_line (world_of (tags "v1.3.0" "cafebabe"))
    (lit "uses: acme/tool@deadbeef # version-unknown") None false true
    (initial_state (mkFS [] []))
  = (initial_state (mkFS [] []),
     Ok (lit "uses: acme/tool@deadbeef # version-unknown", false)).
Proof. vm_compute. reflexivity. Qed.

(** Scenario D: with backup mode on, the copy holds the old text and the
    file the new one. *)
Example scenario_D :
  let out := run (world_of (tags "v1.3.0" "cafebabe"))
               (mkFS [(ci_yml, tool_line)] []) [ci_yml] None false true false in
  snd out = Ok tt
  /\ files (fs (fst out)) = [(ci_yml, updated_tool_line); (ci_backup, tool_line)]
  /\ stats (fst out) = mkStats 1 1 1.
Proof. cbv zeta. repeat split; vm_compute; reflexivity. Qed.

(** With a plain tag a second run changes nothing. *)
Example second_run_of_scenario_A :
  let w := world_of (tags "v1.3.0" "cafebabe") in
  let first := run w (mkFS [(ci_yml, tool_line)] []) [ci_yml] None false false
                 false in
  let second := second_run w (fst first) [ci_yml] None false false false in
  snd second = Ok tt
  /\ stats (fst second) = mkStats 1 0 0
  /\ fs (fst second) = fs (fst first)
  /\ requests_made (fst second) = 0.
Proof. cbv zeta. repeat split; vm_compute; reflexivity. Qed.

(** Versions compare as PEP 440 orders them. *)
Example versions_compare :
  newer "1.3.0" "1.2.0" = Some true
  /\ newer "1.10" "1.9" = Some true
  /\ newer "1.2" "1.2.0" = Some false
  /\ newer "1.2.0" "1.2" = Some false
  /\ newer "1.0rc1" "1.0" = Some false
  /\ newer "1.3.0-1" "1.3.0" = Some true
  /\ newer "1.0.dev1" "1.0a1" = Some false
  /\ newer "1.0+abc" "1.0" = Some true
  /\ newer "1!0.1" "5" = Some true
  /\ newer "1.2." "1.2" = None
  /\ newer "latest" "1" = None.
Proof. repeat split; vm_compute; reflexivity. Qed.

(** ** Unresolved references (C1) *)

Section Unresolved.
Variable w : World.

(** A matched line whose resolution returns nothing makes [process_line]
    raise: [None] is unpacked into two names. *)
Lemma process_line_unresolved line pre owner repo sha ver post tok dry verbose st st' :
  re_search uses_re line = Some (pre, [owner; repo; sha; ver], post) ->
  get_latest_version w owner repo tok verbose st = (st', Ok None) ->
  process_line w line tok dry verbose st = (st', Raise TypeError).
Proof.
  intros Hm Hr. unfold process_line. rewrite Hm.
  unfold bind. rewrite Hr. reflexivity.
Qed.

(** A transport failure is reported and resolves to nothing. *)
Lemma transport_failure_resolves_to_none owner repo tok verbose st :
  rate_limit_exceeded st = false ->
  cache_get (owner, repo) (version_cache st) = None ->
  In (net w (requests_made st) owner repo tok)
     [ConnectionError; Timeout; RequestException] ->
  exists m,
    get_latest_version w owner repo tok verbose st
    = (log (Print m) (log (Request owner repo) (count_request st)), Ok None).
Proof.
  intros Hf Hc Hn.
  unfold get_latest_version, check_rate_limit, get_cached_version,
    execute_github_request, bind, gets, modify, print, ret; simpl.
  rewrite Hf, Hc. simpl.
  destruct Hn as [H | [H | [H | []]]]; rewrite <- H; eexists; reflexivity.
Qed.
End Unresolved.

(** C1 (the code departs from the claim).  When the request for a matched
    line fails at the transport level, the resolver reports the failure and
    returns nothing, but [process_line] then raises [TypeError]; nothing
    catches it, so the run ends there: the second file is never looked at. *)
Theorem C1_transport_failure_ends_the_run :
  let disk := disk_of checkout_line tool_line in
  let failing o :=
    let w := world_of o in
    (exists m,
        get_latest_version w (lit "actions") (lit "checkout") None false
          (initial_state disk)
        = (mkState [] false (mkStats 0 0 0) disk
             [Request (lit "actions") (lit "checkout"); Print m] 1 0,
           Ok None))
    /\ snd (process_line w checkout_line None false false (initial_state disk))
       = Raise TypeError
    /\ snd (run w disk [ci_yml; release_yml] None false false false)
       = Raise TypeError
    /\ total_files (stats (fst (run w disk [ci_yml; release_yml]
                                  None false false false))) = 1
    /\ fs (fst (run w disk [ci_yml; release_yml] None false false false))
       = disk in
  failing ConnectionError /\ failing Timeout /\ failing RequestException.
Proof.
  cbv zeta.
  repeat split; try (eexists; vm_compute; reflexivity); vm_compute; reflexivity.
Qed.

(** ** Malformed versions (C2) *)

(** C2 (the code departs from the claim).  A declared version that is not
    a version ([1.2.] with a trailing dot, or only dots), or a newest tag
    that is not one ([latest]), makes [version.parse] raise
    [InvalidVersion] inside [process_line]; nothing catches it.  No file is
    rewritten, but the run ends: the second file is never looked at. *)
Theorem C2_malformed_version_ends_the_run :
  let w := world_of (tags "v1.3.0" "cafebabe") in
  let trailing_dot := lit "      - uses: acme/tool@deadbeef # v1.2." ++ [LF] in
  let only_dots := lit "      - uses: acme/tool@deadbeef # ..." ++ [LF] in
  let disk := disk_of trailing_dot tool_line in
  version_parse (lit "1.2.") = None
  /\ version_parse (lit "...") = None
  /\ version_parse (lit "latest") = None
  /\ snd (process_line w trailing_dot None false false (initial_state disk))
     = Raise InvalidVersion
  /\ snd (process_line w only_dots None false false (initial_state disk))
     = Raise InvalidVersion
  /\ snd (process_line (world_of (tags "latest" "cafebabe")) tool_line
            None false false (initial_state disk))
     = Raise InvalidVersion
  /\ snd (run w disk [ci_yml; release_yml] None false false false)
     = Raise InvalidVersion
  /\ total_files (stats (fst (run w disk [ci_yml; release_yml]
                                None false false false))) = 1
  /\ fs (fst (run w disk [ci_yml; release_yml] None false false false)) = disk.
Proof.
  cbv zeta. repeat split; vm_compute; reflexivity.
Qed.

(** ** Idempotence (C4) *)

(** C4 (the code departs from the claim).  With the newest tag [v1.3.0-1]
    (a PEP 440 post-release) the first run writes the comment
    [# v1.3.0-1]; the matcher of the second run reads back [1.3.0] only,
    which is older than [1.3.0-1], so the second run changes the line
    again, into [# v1.3.0-1-1]. *)
Theorem C4_second_run_changes_the_line_again :
  let w := world_of (tags "v1.3.0-1" "cafebabe") in
  let disk := mkFS [(ci_yml, tool_line)] [] in
  let first := run w disk [ci_yml] None false false false in
  let second := second_run w (fst first) [ci_yml] None false false false in
  snd first = Ok tt
  /\ file_get ci_yml (files (fs (fst first)))
     = Some (lit "      - uses: acme/tool@cafebabe # v1.3.0-1" ++ [LF])
  /\ version_cache (fst first)
     = [((lit "acme", lit "tool"), (lit "v1.3.0-1", lit "cafebabe"))]
  /\ snd second = Ok tt
  /\ requests_made (fst second) = 0
  /\ total_changes (stats (fst second)) = 1
  /\ file_get ci_yml (files (fs (fst second)))
     = Some (lit "      - uses: acme/tool@cafebabe # v1.3.0-1-1" ++ [LF]).
Proof.
  cbv zeta. repeat split; vm_compute; reflexivity.
Qed.

(** ** The substitution (C10) *)

(** C10 (the code departs from the claim).  Both [re.sub] calls replace
    every match on the line, not the reference's own hash and comment only:
    an issue number [#42] and the start of a mail host [@example.com]
    further on the line are overwritten too. *)
Theorem C10_substitution_rewrites_other_matches :
  let w := world_of (tags "v1.3.0" "cafebabe") in
  let line :=
    lit "      - uses: acme/tool@deadbeef # v1.2.0 (see #42, ask dev@example.com)" in
  re_search uses_re line
  = Some (lit "      - ",
          [lit "acme"; lit "tool"; lit "deadbeef"; lit "1.2.0"],
          lit " (see #42, ask dev@example.com)")
  /\ snd (process_line w line None false false
            (initial_state (mkFS [] [])))
     = Ok (lit "      - uses: acme/tool@cafebabe # v1.3.0 (see # v1.3.0, ask dev@cafebabexample.com)",
           true).
Proof.
  cbv zeta. split; vm_compute; reflexivity.
Qed.

(** ** Equality tests, dictionaries *)

Lemma str_eqb_refl a : str_eqb a a = true.
Proof.
  induction a as [|x a IH]; simpl; [reflexivity|].
  rewrite Ascii.eqb_refl. exact IH.
Qed.

Lemma str_eqb_eq a b : str_eqb a b = true <-> a = b.
Proof.
  split.
  - revert b. induction a as [|x a IH]; intros [|y b] H; simpl in H;
      try discriminate; [reflexivity|].
    apply andb_true_iff in H. destruct H as [Hx Ha].
    apply Ascii.eqb_eq in Hx. apply IH in Ha. congruence.
  - intros ->. apply str_eqb_refl.
Qed.

Lemma str_eqb_neq a b : str_eqb a b = false <-> a <> b.
Proof.
  split.
  - intros H E. apply str_eqb_eq in E. congruence.
  - intros H. destruct (str_eqb a b) eqn:E; [|reflexivity].
    apply str_eqb_eq in E. contradiction.
Qed.

Lemma key_eqb_eq a b : key_eqb a b = true <-> a = b.
Proof.
  destruct a as [a1 a2], b as [b1 b2]. unfold key_eqb. simpl.
  rewrite andb_true_iff, !str_eqb_eq. split.
  - intros [-> ->]. reflexivity.
  - intros E. inversion E. auto.
Qed.

Lemma key_eqb_refl a : key_eqb a a = true.
Proof. apply key_eqb_eq. reflexivity. Qed.

Lemma key_eqb_neq a b : key_eqb a b = false <-> a <> b.
Proof.
  split.
  - intros H E. apply key_eqb_eq in E. congruence.
  - intros H. destruct (key_eqb a b) eqn:E; [|reflexivity].
    apply key_eqb_eq in E. contradiction.
Qed.

Lemma cache_get_put_same k v c : cache_get k (cache_put k v c) = Some v.
Proof.
  induction c as [|[k' v'] c IH]; simpl.
  - rewrite key_eqb_refl. reflexivity.
  - destruct (key_eqb k' k) eqn:E; simpl; rewrite E; [reflexivity | exact IH].
Qed.

Lemma cache_get_put_other k k' v c :
  k <> k' -> cache_get k' (cache_put k v c) = cache_get k' c.
Proof.
  intros Hne. induction c as [|[k0 v0] c IH]; simpl.
  - assert (key_eqb k k' = false) as -> by (apply key_eqb_neq; exact Hne).
    reflexivity.
  - destruct (key_eqb k0 k) eqn:E; simpl.
    + apply key_eqb_eq in E. subst k0.
      assert (key_eqb k k' = false) as -> by (apply key_eqb_neq; exact Hne).
      reflexivity.
    + destruct (key_eqb k0 k'); [reflexivity | exact IH].
Qed.

Lemma file_get_put_same p c l : file_get p (file_put p c l) = Some c.
Proof.
  induction l as [|[q d] l IH]; simpl.
  - rewrite str_eqb_refl. reflexivity.
  - destruct (str_eqb q p) eqn:E; simpl; rewrite E; [reflexivity | exact IH].
Qed.

Lemma file_get_put_other p q c l :
  p <> q -> file_get q (file_put p c l) = file_get q l.
Proof.
  intros Hne. induction l as [|[r d] l IH]; simpl.
  - assert (str_eqb p q = false) as -> by (apply str_eqb_neq; exact Hne).
    reflexivity.
  - destruct (str_eqb r p) eqn:E; simpl.
    + apply str_eqb_eq in E. subst r.
      assert (str_eqb p q = false) as -> by (apply str_eqb_neq; exact Hne).
      reflexivity.
    + destruct (str_eqb r q); [reflexivity | exact IH].
Qed.

(** ** Traces *)

Lemma requests_of_app t u : requests_of (t ++ u) = requests_of t ++ requests_of u.
Proof.
  induction t as [|e t IH]; simpl; [reflexivity|].
  destruct e; simpl; rewrite IH; reflexivity.
Qed.

Lemma requests_to_app k t u :
  requests_to k (t ++ u) = requests_to k t + requests_to k u.
Proof.
  unfold requests_to. rewrite requests_of_app, filter_app, length_app.
  reflexivity.
Qed.

(** ** The rate limit guard (C8) *)

Section Guard.
Variable w : World.

(** A 403 that still announces quota trips the guard. *)
Lemma handle_rate_limit_trips response z st :
  x_ratelimit_remaining response = HInt z -> z <> 0%Z ->
  x_ratelimit_reset response <> HBad ->
  handle_rate_limit w response st
  = (log (Print MsgRateLimitReached) (set_flag true st), Ok tt).
Proof.
  intros Hr Hz Hb. unfold handle_rate_limit, int_header, bind.
  rewrite Hr. simpl.
  assert ((z =? 0)%Z = false) as -> by (apply Z.eqb_neq; exact Hz).
  destruct (x_ratelimit_reset response); try contradiction; reflexivity.
Qed.

(** A 403 with no quota left waits for the reset and clears the guard,
    when [time.sleep] takes the time. *)
Lemma handle_rate_limit_waits response reset_time st :
  x_ratelimit_remaining response = HInt 0 ->
  x_ratelimit_reset response = HInt reset_time ->
  let wait_time := Z.max 0 (reset_time - clock w (requests_made st)) in
  (wait_time <= sleep_limit)%Z ->
  handle_rate_limit w response st
  = (set_flag false
       (log (Sleep wait_time) (log (Print (MsgRateLimitWaiting wait_time)) st)),
     Ok tt).
Proof.
  intros Hr Ht wait_time Hw. unfold handle_rate_limit, int_header, bind.
  rewrite Hr, Ht. simpl. unfold sleep. fold wait_time.
  assert ((sleep_limit <? wait_time)%Z = false) as ->
      by (apply Z.ltb_ge; exact Hw).
  reflexivity.
Qed.

(** ... and raises [OverflowError] when it does not: nothing is slept and
    the guard stays as it was. *)
Lemma handle_rate_limit_overflows response reset_time st :
  x_ratelimit_remaining response = HInt 0 ->
  x_ratelimit_reset response = HInt reset_time ->
  let wait_time := Z.max 0 (reset_time - clock w (requests_made st)) in
  (sleep_limit < wait_time)%Z ->
  handle_rate_limit w response st
  = (log (Print (MsgRateLimitWaiting wait_time)) st, Raise OverflowError).
Proof.
  intros Hr Ht wait_time Hw. unfold handle_rate_limit, int_header, bind.
  rewrite Hr, Ht. simpl. unfold sleep. fold wait_time.
  assert ((sleep_limit <? wait_time)%Z = true) as ->
      by (apply Z.ltb_lt; exact Hw).
  reflexivity.
Qed.

(** With the guard tripped the resolver answers nothing and asks nothing. *)
Lemma get_latest_version_short_circuit owner repo tok verbose st :
  rate_limit_exceeded st = true ->
  get_latest_version w owner repo tok verbose st
  = ((if verbose then log (Print MsgSkippingRequest) st else st), Ok None).
Proof.
  intros Hf.
  unfold get_latest_version, check_rate_limit, bind, gets. rewrite Hf.
  destruct verbose; reflexivity.
Qed.

Lemma net_view_log_print m st : net_view (log (Print m) st) = net_view st.
Proof.
  unfold net_view, log. simpl. rewrite requests_of_app. simpl.
  rewrite app_nil_r. reflexivity.
Qed.

Lemma resolve_each_short_circuit pairs tok verbose st :
  rate_limit_exceeded st = true ->
  exists st',
    resolve_each w pairs tok verbose st
    = (st', Ok (map (fun _ => None) pairs))
    /\ net_view st' = net_view st.
Proof.
  revert st. induction pairs as [|[owner repo] rest IH]; intros st Hf; simpl.
  - exists st. split; reflexivity.
  - unfold bind at 1. rewrite get_latest_version_short_circuit by exact Hf.
    set (st1 := if verbose then log (Print MsgSkippingRequest) st else st).
    assert (Hv : net_view st1 = net_view st).
    { subst st1. destruct verbose; [apply net_view_log_print | reflexivity]. }
    assert (Hf1 : rate_limit_exceeded st1 = true).
    { unfold net_view in Hv. inversion Hv. congruence. }
    destruct (IH st1 Hf1) as [st' [Hrun Hview]].
    exists st'. unfold bind. rewrite Hrun. simpl. split; [reflexivity|].
    congruence.
Qed.
End Guard.




(** ** Rules for computations *)

Lemma hoare_bind (A B : Type) (P : State -> Prop) (c : M A) (k : A -> M B)
  (Q : A -> State -> Prop) (R : B -> State -> Prop) (E : exn -> State -> Prop) :
  hoare P c Q E ->
  (forall a, hoare (Q a) (k a) R E) ->
  hoare P (bind c k) R E.
Proof.
  intros Hc Hk st HP. unfold bind. specialize (Hc st HP).
  destruct (c st) as [st' [a|e]]; [apply Hk; exact Hc | exact Hc].
Qed.

Lemma hoare_ret (A : Type) (P : State -> Prop) (a : A)
  (Q : A -> State -> Prop) (E : exn -> State -> Prop) :
  (forall st, P st -> Q a st) -> hoare P (ret a) Q E.
Proof. intros H st HP. simpl. apply H. exact HP. Qed.

Lemma hoare_weaken (A : Type) (P P' : State -> Prop) (c : M A)
  (Q Q' : A -> State -> Prop) (E E' : exn -> State -> Prop) :
  hoare P c Q E ->
  (forall st, P' st -> P st) ->
  (forall a st, Q a st -> Q' a st) ->
  (forall e st, E e st -> E' e st) ->
  hoare P' c Q' E'.
Proof.
  intros Hc HP HQ HE st HP'. specialize (Hc st (HP st HP')).
  destruct (c st) as [st' [a|e]]; [apply HQ | apply HE]; exact Hc.
Qed.

Lemma hoare_except (A : Type) (P : State -> Prop) (c h : M A)
  (Q : A -> State -> Prop) (E : exn -> State -> Prop) :
  hoare P c Q E ->
  hoare (E OSError) h Q E ->
  hoare P (except_oserror c h) Q E.
Proof.
  intros Hc Hh st HP. unfold except_oserror. specialize (Hc st HP).
  destruct (c st) as [st' [a|e]]; [exact Hc|].
  destruct e; try exact Hc. apply Hh. exact Hc.
Qed.

Lemma keeps_bind (V A B : Type) (f : State -> V) (c : M A) (k : A -> M B) :
  keeps f c -> (forall a, keeps f (k a)) -> keeps f (bind c k).
Proof.
  intros Hc Hk st. unfold bind. specialize (Hc st).
  destruct (c st) as [st' [a|e]]; simpl in *; [|exact Hc].
  rewrite (Hk a st'). exact Hc.
Qed.

Lemma keeps_ret (V A : Type) (f : State -> V) (a : A) : keeps f (ret a).
Proof. intros st. reflexivity. Qed.

Lemma keeps_raise (V A : Type) (f : State -> V) (e : exn) :
  keeps f (raise (A := A) e).
Proof. intros st. reflexivity. Qed.

Lemma keeps_gets (V A : Type) (f : State -> V) (g : State -> A) :
  keeps f (gets g).
Proof. intros st. reflexivity. Qed.

Lemma keeps_modify (V : Type) (f : State -> V) (g : State -> State) :
  (forall st, f (g st) = f st) -> keeps f (modify g).
Proof. intros H st. simpl. apply H. Qed.

Lemma keeps_when (V : Type) (f : State -> V) (b : bool) (c : M unit) :
  keeps f c -> keeps f (when b c).
Proof. intros H. destruct b; [exact H | apply keeps_ret]. Qed.

Lemma keeps_except (V A : Type) (f : State -> V) (c h : M A) :
  keeps f c -> keeps f h -> keeps f (except_oserror c h).
Proof.
  intros Hc Hh st. unfold except_oserror. specialize (Hc st).
  destruct (c st) as [st' [a|e]]; simpl in *; [exact Hc|].
  destruct e; simpl; try exact Hc.
  rewrite (Hh st'). exact Hc.
Qed.

(** A computation that keeps an observation keeps every property of it. *)
Lemma keeps_hoare (V A : Type) (f : State -> V) (c : M A) (I : V -> Prop) :
  keeps f c ->
  hoare (fun st => I (f st)) c (fun _ st => I (f st)) (fun _ st => I (f st)).
Proof.
  intros H st HI. specialize (H st).
  destruct (c st) as [st' [a|e]]; simpl in *; rewrite H; exact HI.
Qed.

Lemma net_view_print m : keeps net_view (print m).
Proof. apply keeps_modify. intros st. apply net_view_log_print. Qed.

Ltac keeps_step :=
  first
    [ apply keeps_ret
    | apply keeps_raise
    | apply keeps_gets
    | apply net_view_print
    | apply keeps_when
    | apply keeps_except
    | apply keeps_bind; [|intros ?]
    | apply keeps_modify; intros ?; reflexivity ].

(** ** One network call per repository (C5) *)

Section OneCall.
Variable w : World.

(** What a resolution does when the pair is not cached: one request; a
    cached answer when it returns one; and an [OSError] exactly when
    [requests.get] ended with one of its own, the cache and the guard
    then being as they were. *)
Lemma get_latest_version_miss owner repo tok verbose st :
  rate_limit_exceeded st = false ->
  cache_get (owner, repo) (version_cache st) = None ->
  let out := get_latest_version w owner repo tok verbose st in
  requests_of (trace (fst out)) = requests_of (trace st) ++ [(owner, repo)]
  /\ requests_made (fst out) = S (requests_made st)
  /\ (if is_plain_oserror (net w (requests_made st) owner repo tok)
      then snd out = Raise OSError
           /\ version_cache (fst out) = version_cache st
           /\ rate_limit_exceeded (fst out) = false
      else match snd out with
           | Ok (Some v) =>
               version_cache (fst out)
               = cache_put (owner, repo) v (version_cache st)
               /\ rate_limit_exceeded (fst out) = false
           | Ok None => True
           | Raise e => e <> OSError
           end).
Proof.
  intros Hf Hc.
  unfold get_latest_version, check_rate_limit, get_cached_version,
    execute_github_request, bind, gets, modify, ret. simpl.
  rewrite Hf, Hc. simpl.
  destruct (net w (requests_made st) owner repo tok) as [| | | |response];
    simpl; rewrite ?requests_of_app; simpl; rewrite ?app_nil_r;
    try (split; [reflexivity | split; [reflexivity | exact I]]);
    try (split; [reflexivity | split; [reflexivity | auto]]).
  unfold handle_http_error, handle_version_response, handle_rate_limit,
    int_header, sleep, bind, gets, modify, print, raise, ret.
  destruct (is_http_error response) eqn:Herr; simpl.
  - destruct (status_code response =? 401)%Z; simpl;
      [rewrite ?requests_of_app; simpl; rewrite ?app_nil_r;
       split; [reflexivity | split; [reflexivity | discriminate]]|].
    destruct (status_code response =? 403)%Z; simpl.
    + destruct (x_ratelimit_remaining response) as [|z|]; simpl;
        destruct (x_ratelimit_reset response) as [|z'|]; simpl;
        try destruct (z =? 0)%Z; simpl;
        repeat match goal with
          | |- context [(sleep_limit <? ?x)%Z] =>
              destruct (sleep_limit <? x)%Z; simpl
          end;
        rewrite ?requests_of_app; simpl; rewrite ?app_nil_r;
        split; try reflexivity; split; try reflexivity;
        first [exact I | discriminate].
    + rewrite ?requests_of_app; simpl; rewrite ?app_nil_r.
      split; [reflexivity | split; [reflexivity | exact I]].
  - destruct (status_code response =? 200)%Z; simpl;
      [|rewrite ?requests_of_app; simpl; rewrite ?app_nil_r;
        split; [reflexivity | split; [reflexivity | exact I]]].
    destruct (json response); simpl;
      rewrite ?requests_of_app; simpl; rewrite ?app_nil_r;
      split; try reflexivity; split; try reflexivity;
      try exact I; try discriminate.
    split; [reflexivity | exact Hf].
Qed.

Lemma get_latest_version_hit owner repo tok verbose st v :
  rate_limit_exceeded st = false ->
  cache_get (owner, repo) (version_cache st) = Some v ->
  get_latest_version w owner repo tok verbose st = (st, Ok (Some v)).
Proof.
  intros Hf Hc.
  unfold get_latest_version, check_rate_limit, get_cached_version,
    bind, gets, ret. simpl.
  rewrite Hf, Hc. reflexivity.
Qed.

(** I/O and printing do not touch what the resolver sees. *)
Lemma net_view_log_quiet e st :
  match e with Request _ _ => False | _ => True end ->
  net_view (log e st) = net_view st.
Proof.
  intros He. unfold net_view, log. simpl. rewrite requests_of_app.
  destruct e; try contradiction; simpl; rewrite app_nil_r; reflexivity.
Qed.

Lemma keeps_io_call op : keeps net_view (io_call w op).
Proof. intros st. reflexivity. Qed.

Ltac keeps_net :=
  repeat first
    [ apply keeps_io_call
    | progress keeps_step
    | apply keeps_modify; intros ?; apply net_view_log_quiet; exact I
    | match goal with
      | |- keeps _ (match ?x with _ => _ end) => destruct x
      end ].

Lemma keeps_read_file path : keeps net_view (read_file w path).
Proof. unfold read_file. keeps_net. Qed.

Lemma keeps_makedirs dir : keeps net_view (makedirs w dir).
Proof. unfold makedirs. keeps_net. Qed.

Lemma keeps_copyfile src dst : keeps net_view (copyfile w src dst).
Proof. unfold copyfile. keeps_net. Qed.

Lemma keeps_open_w path : keeps net_view (open_w w path).
Proof. unfold open_w, store. keeps_net. Qed.

Lemma keeps_writelines o path lines : keeps net_view (writelines o path lines).
Proof. unfold writelines, store. keeps_net. Qed.

Lemma keeps_close_w o path lines : keeps net_view (close_w o path lines).
Proof. unfold close_w, store. keeps_net. Qed.

Lemma keeps_create_backup path verbose :
  keeps net_view (create_backup w path verbose).
Proof.
  unfold create_backup. cbv zeta.
  apply keeps_except; [|apply net_view_print].
  apply keeps_bind; [apply keeps_makedirs | intros _].
  apply keeps_bind; [apply keeps_copyfile | intros _].
  keeps_net.
Qed.

Lemma keeps_finalize_update path lines changed n dry backup verbose :
  keeps net_view (finalize_update w path lines changed n dry backup verbose).
Proof.
  unfold finalize_update.
  destruct changed; [|apply keeps_ret].
  apply keeps_bind; [apply keeps_modify; intros ?; reflexivity | intros _].
  destruct (negb dry); [|apply keeps_ret].
  apply keeps_bind;
    [apply keeps_when; apply keeps_create_backup | intros _].
  apply keeps_except; [|apply net_view_print].
  unfold write_file.
  apply keeps_bind; [apply keeps_open_w | intros o].
  apply keeps_bind; [apply keeps_writelines | intros _].
  apply keeps_bind; [apply keeps_when, net_view_print | intros _].
  apply keeps_close_w.
Qed.

Variable tok : option str.

Local Notation "'tracks'" := (cache_tracks_requests w tok).
Local Notation "'bounded'" := (at_most_one_request w tok).

Lemma tracks_of_view st st' :
  net_view st' = net_view st -> tracks st -> tracks st'.
Proof.
  unfold net_view, cache_tracks_requests, requests_to, refused.
  intros Hv [Hf [Hn Hk]]. inversion Hv as [[Hc Hfl Hm Hr]].
  rewrite Hc, Hfl, Hr, Hm. repeat split; assumption.
Qed.

Lemma tracks_bounded st : tracks st -> bounded st.
Proof.
  intros [_ [_ H]] k. rewrite (H k).
  destruct (cache_get k (version_cache st)); lia.
Qed.

Lemma refused_from_app n reqs k :
  refused_from w tok n (reqs ++ [k])
  = refused_from w tok n reqs
    ++ (if is_plain_oserror (net w (n + List.length reqs) (fst k) (snd k) tok)
        then [k] else []).
Proof.
  revert n. induction reqs as [|k' reqs IH]; intros n; simpl.
  - rewrite Nat.add_0_r.
    destruct (is_plain_oserror (net w n (fst k) (snd k) tok)); reflexivity.
  - rewrite IH, Nat.add_succ_r.
    destruct (is_plain_oserror (net w n (fst k') (snd k') tok)); reflexivity.
Qed.

(** What one more request adds to the counts. *)
Lemma counts_after_request st st' k k' :
  requests_made st = List.length (requests_of (trace st)) ->
  requests_of (trace st') = requests_of (trace st) ++ [k] ->
  requests_to k' (trace st')
  = requests_to k' (trace st) + (if key_eqb k' k then 1 else 0)
  /\ refused w tok k' (trace st')
     = refused w tok k' (trace st)
       + (if is_plain_oserror (net w (requests_made st) (fst k) (snd k) tok)
             && key_eqb k' k
          then 1 else 0).
Proof.
  intros Hn Ht. unfold requests_to, refused. rewrite Ht, refused_from_app.
  rewrite !filter_app, !length_app, <- Hn. simpl. split.
  - destruct (key_eqb k' k); reflexivity.
  - destruct (is_plain_oserror (net w (requests_made st) (fst k) (snd k) tok));
      simpl; [destruct (key_eqb k' k)|]; reflexivity.
Qed.

(** A first request for a pair keeps the bound. *)
Lemma bounded_after_request st st' k :
  tracks st ->
  cache_get k (version_cache st) = None ->
  requests_of (trace st') = requests_of (trace st) ++ [k] ->
  bounded st'.
Proof.
  intros [_ [Hn H]] Hmiss Ht k'.
  destruct (@counts_after_request st st' k k' Hn Ht) as [-> ->].
  rewrite (H k').
  destruct (key_eqb k' k) eqn:E.
  - apply key_eqb_eq in E. subst k'. rewrite Hmiss.
    destruct (is_plain_oserror _); simpl; lia.
  - rewrite andb_false_r.
    destruct (cache_get k' (version_cache st)); lia.
Qed.

(** A first request whose answer is cached restores the invariant. *)
Lemma tracks_after_cached st st' k v :
  tracks st ->
  cache_get k (version_cache st) = None ->
  requests_of (trace st') = requests_of (trace st) ++ [k] ->
  requests_made st' = S (requests_made st) ->
  is_plain_oserror (net w (requests_made st) (fst k) (snd k) tok) = false ->
  version_cache st' = cache_put k v (version_cache st) ->
  rate_limit_exceeded st' = false ->
  tracks st'.
Proof.
  intros [_ [Hn H]] Hmiss Ht Hm Hplain Hc Hf.
  split; [exact Hf|]. split.
  { rewrite Hm, Ht, length_app, Hn. simpl. lia. }
  intros k'.
  destruct (@counts_after_request st st' k k' Hn Ht) as [-> ->].
  rewrite Hplain, Hc, (H k'). simpl.
  destruct (key_eqb k' k) eqn:E.
  - apply key_eqb_eq in E. subst k'.
    rewrite cache_get_put_same, Hmiss. lia.
  - apply key_eqb_neq in E.
    rewrite cache_get_put_other by congruence.
    destruct (cache_get k' (version_cache st)); lia.
Qed.

(** So does a first request that [requests.get] ends with an [OSError]:
    it is counted as refused. *)
Lemma tracks_after_refused st st' k :
  tracks st ->
  cache_get k (version_cache st) = None ->
  requests_of (trace st') = requests_of (trace st) ++ [k] ->
  requests_made st' = S (requests_made st) ->
  is_plain_oserror (net w (requests_made st) (fst k) (snd k) tok) = true ->
  version_cache st' = version_cache st ->
  rate_limit_exceeded st' = false ->
  tracks st'.
Proof.
  intros [_ [Hn H]] Hmiss Ht Hm Hplain Hc Hf.
  split; [exact Hf|]. split.
  { rewrite Hm, Ht, length_app, Hn. simpl. lia. }
  intros k'.
  destruct (@counts_after_request st st' k k' Hn Ht) as [-> ->].
  rewrite Hplain, Hc, (H k'). simpl.
  destruct (key_eqb k' k) eqn:E; lia.
Qed.

(** A resolution in a run: when it returns a version the invariant holds
    again and the pair is cached; otherwise the bound holds. *)
Lemma get_latest_version_tracks owner repo verbose :
  hoare tracks
    (get_latest_version w owner repo tok verbose)
    (fun r st' =>
       match r with
       | Some _ =>
           tracks st'
           /\ cache_get (owner, repo) (version_cache st') <> None
       | None => bounded st'
       end)
    (crashed w tok).
Proof.
  intros st Hinv. pose proof Hinv as [Hf _].
  destruct (cache_get (owner, repo) (version_cache st)) as [v|] eqn:Hc.
  - rewrite (get_latest_version_hit owner repo tok verbose st Hf Hc).
    split; [exact Hinv | congruence].
  - pose proof (get_latest_version_miss owner repo tok verbose st Hf Hc)
      as [Ht [Hm Hr]].
    change owner with (fst (owner, repo)) in Hr at 1.
    change repo with (snd (owner, repo)) in Hr at 2.
    destruct (is_plain_oserror
                (net w (requests_made st) (fst (owner, repo))
                   (snd (owner, repo)) tok)) eqn:Hplain.
    + destruct Hr as [Hr [Hcache Hflag]].
      destruct (get_latest_version w owner repo tok verbose st)
        as [st' r]; simpl in *. subst r.
      split; [eapply bounded_after_request; eassumption|].
      intros _. eapply tracks_after_refused; eassumption.
    + destruct (get_latest_version w owner repo tok verbose st)
        as [st' [[v|]|e]]; simpl in *.
      * destruct Hr as [Hcache Hflag]. split.
        -- eapply tracks_after_cached; eassumption.
        -- rewrite Hcache, cache_get_put_same. discriminate.
      * eapply bounded_after_request; eassumption.
      * split; [eapply bounded_after_request; eassumption|].
        intros ->. contradiction.
Qed.

Lemma hoare_of_keeps (A : Type) (P Q : State -> Prop) (c : M A) :
  keeps net_view c ->
  (forall st st', net_view st' = net_view st -> P st -> Q st') ->
  hoare P c (fun _ => Q) (fun _ => Q).
Proof.
  intros Hk HPQ st HP. specialize (Hk st).
  destruct (c st) as [st' [a|e]]; simpl in *; eapply HPQ; eassumption.
Qed.

Lemma crashed_of_tracks e st : tracks st -> crashed w tok e st.
Proof.
  intros H. split; [apply tracks_bounded; exact H | intros _; exact H].
Qed.

Lemma cached_of_view k st st' :
  net_view st' = net_view st -> cached w tok k st -> cached w tok k st'.
Proof.
  intros Hv [Ht Hc]. split; [eapply tracks_of_view; eassumption|].
  unfold net_view in Hv. inversion Hv as [[H1 H2 H3 H4]]. rewrite H1. exact Hc.
Qed.

(** A line of a run.  If it is a reference and the step returns, the
    pair of the reference is cached. *)
Lemma process_line_tracks line dry verbose :
  hoare tracks
    (process_line w line tok dry verbose)
    (fun _ st' =>
       tracks st'
       /\ forall pre owner repo sha ver post,
           re_search uses_re line = Some (pre, [owner; repo; sha; ver], post) ->
           cache_get (owner, repo) (version_cache st') <> None)
    (crashed w tok).
Proof.
  unfold process_line.
  destruct (re_search uses_re line) as [[[pre gs] post]|] eqn:Hm;
    [|apply hoare_ret; intros st H; split; [exact H | discriminate]].
  destruct gs as [|owner [|repo [|sha [|ver [|x gs]]]]];
    try (apply hoare_ret; intros st H; split; [exact H | discriminate]).
  eapply hoare_bind; [apply get_latest_version_tracks|].
  intros [[tag latest_sha]|].
  - eapply hoare_weaken with
      (P := cached w tok (owner, repo))
      (Q := fun _ => cached w tok (owner, repo))
      (E := fun _ => cached w tok (owner, repo)).
    + apply hoare_of_keeps; [|intros st st' Hv H; eapply cached_of_view; eassumption].
      unfold re_sub_text. cbv zeta. keeps_net.
    + intros st H. exact H.
    + intros _ st [Ht Hc]. split; [exact Ht|].
      intros pre' owner' repo' sha' ver' post' E. inversion E. subst. exact Hc.
    + intros e st [Ht _]. apply crashed_of_tracks. exact Ht.
  - intros st H. simpl. split; [exact H | discriminate].
Qed.

Lemma for_lines_tracks lines dry verbose updated changed n :
  hoare tracks
    (for_lines w lines tok dry verbose updated changed n)
    (fun _ => tracks) (crashed w tok).
Proof.
  revert updated changed n.
  induction lines as [|line rest IH]; intros updated changed n; simpl.
  - apply hoare_ret. auto.
  - eapply hoare_bind; [apply process_line_tracks|].
    intros [updated_line was_changed].
    eapply hoare_weaken with (P := tracks);
      [destruct was_changed; apply IH | | auto | auto].
    intros st [H _]. exact H.
Qed.

Lemma tracks_of_keeps (A : Type) (c : M A) :
  keeps net_view c ->
  hoare tracks c (fun _ => tracks) (crashed w tok).
Proof.
  intros Hk.
  eapply hoare_weaken;
    [apply (@hoare_of_keeps _ tracks tracks _ Hk) | | |]; auto.
  - intros st st' Hv H. eapply tracks_of_view; eassumption.
  - intros e st H. apply crashed_of_tracks. exact H.
Qed.

Lemma update_action_version_tracks path dry backup verbose :
  hoare tracks
    (update_action_version w path tok dry backup verbose)
    (fun _ => tracks) (crashed w tok).
Proof.
  unfold update_action_version. apply hoare_except.
  - eapply hoare_bind; [apply tracks_of_keeps, keeps_read_file|].
    intros lines. eapply hoare_bind; [apply for_lines_tracks|].
    intros [[updated changed] n].
    apply tracks_of_keeps, keeps_finalize_update.
  - eapply hoare_weaken;
      [apply (tracks_of_keeps (net_view_print (MsgErrorProcessing path)))
      | | auto | auto].
    intros st [_ H]. apply H. reflexivity.
Qed.

Lemma for_files_tracks paths dry backup verbose :
  hoare tracks
    (for_files w paths tok dry backup verbose)
    (fun _ => tracks) (crashed w tok).
Proof.
  induction paths as [|path rest IH]; simpl.
  - apply hoare_ret. auto.
  - eapply hoare_bind;
      [apply tracks_of_keeps, keeps_when, net_view_print | intros ?].
    eapply hoare_bind;
      [apply tracks_of_keeps, keeps_modify; intros ?; reflexivity | intros ?].
    eapply hoare_bind; [apply update_action_version_tracks | intros ?].
    exact IH.
Qed.

Lemma initial_state_tracks disk : tracks (initial_state disk).
Proof. split; [reflexivity | split; [reflexivity | intros k; reflexivity]]. Qed.

Lemma run_bounded disk paths dry backup verbose :
  bounded (fst (run w disk paths tok dry backup verbose)).
Proof.
  unfold run, update_all_actions.
  assert (H : hoare tracks
                (modify (set_stats (mkStats 0 0 0)) ;;;
                 for_files w paths tok dry backup verbose)
                (fun _ => tracks) (crashed w tok)).
  { eapply hoare_bind;
      [apply tracks_of_keeps, keeps_modify; intros ?; reflexivity | intros ?].
    apply for_files_tracks. }
  specialize (H (initial_state disk) (initial_state_tracks disk)).
  destruct ((modify (set_stats (mkStats 0 0 0)) ;;;
             for_files w paths tok dry backup verbose) (initial_state disk))
    as [st [u|e]]; simpl.
  - apply tracks_bounded. exact H.
  - apply H.
Qed.

(** Where [requests.get] raises no [OSError] of its own, nothing is
    refused. *)
Lemma refused_from_none n reqs :
  (forall m owner repo,
      is_plain_oserror (net w m owner repo tok) = false) ->
  refused_from w tok n reqs = [].
Proof.
  intros H. revert n. induction reqs as [|k reqs IH]; intros n; simpl;
    [reflexivity|].
  rewrite H. apply IH.
Qed.

(** The second of two references to one pair is served from the cache. *)
Lemma second_reference_is_cached line1 line2 pre1 post1 pre2 post2
  owner repo sha1 ver1 sha2 ver2 dry verbose st st1 r1 :
  tracks st ->
  re_search uses_re line1 = Some (pre1, [owner; repo; sha1; ver1], post1) ->
  re_search uses_re line2 = Some (pre2, [owner; repo; sha2; ver2], post2) ->
  process_line w line1 tok dry verbose st = (st1, Ok r1) ->
  net_view (fst (process_line w line2 tok dry verbose st1)) = net_view st1
  /\ requests_to (owner, repo) (trace st1)
     = 1 + refused w tok (owner, repo) (trace st1).
Proof.
  intros Hinv Hm1 Hm2 Hrun.
  pose proof (process_line_tracks line1 dry verbose Hinv) as H1.
  rewrite Hrun in H1. destruct H1 as [Ht1 Hc1].
  specialize (Hc1 _ _ _ _ _ _ Hm1).
  destruct (cache_get (owner, repo) (version_cache st1)) as [v|] eqn:Hc;
    [|congruence].
  split.
  - unfold process_line. rewrite Hm2.
    unfold bind at 1.
    rewrite (get_latest_version_hit owner repo tok verbose st1
               (proj1 Ht1) Hc).
    match goal with
    | |- net_view (fst (?c st1)) = _ =>
        assert (Hk : keeps net_view c)
    end.
    { unfold re_sub_text. cbv zeta. keeps_net. }
    apply Hk.
  - destruct Ht1 as [_ [_ Hk]]. specialize (Hk (owner, repo)).
    rewrite Hc in Hk. exact Hk.
Qed.
End OneCall.




(** ** Dry run (C6) *)

Section DryRun.
Variable w : World.

Ltac keeps_field :=
  repeat first
    [ apply keeps_ret
    | apply keeps_raise
    | apply keeps_gets
    | apply keeps_when
    | apply keeps_except
    | apply keeps_modify; intros ?; reflexivity
    | apply keeps_bind; [|intros ?]
    | match goal with
      | |- keeps _ (io_call _ _) => intros ?; reflexivity
      | |- keeps _ (match ?x with _ => _ end) => destruct x
      end ].

Lemma get_latest_version_keeps_fs owner repo tok verbose :
  keeps fs (get_latest_version w owner repo tok verbose).
Proof.
  unfold get_latest_version, check_rate_limit, get_cached_version,
    execute_github_request, handle_http_error, handle_version_response,
    handle_rate_limit, int_header, sleep, print.
  keeps_field.
Qed.

Lemma get_latest_version_keeps_stats owner repo tok verbose :
  keeps stats (get_latest_version w owner repo tok verbose).
Proof.
  unfold get_latest_version, check_rate_limit, get_cached_version,
    execute_github_request, handle_http_error, handle_version_response,
    handle_rate_limit, int_header, sleep, print.
  keeps_field.
Qed.

Lemma get_latest_version_keeps_io owner repo tok verbose :
  keeps io_made (get_latest_version w owner repo tok verbose).
Proof.
  unfold get_latest_version, check_rate_limit, get_cached_version,
    execute_github_request, handle_http_error, handle_version_response,
    handle_rate_limit, int_header, sleep, print.
  keeps_field.
Qed.

(** No line touches the disk, dry run or not: lines are rewritten in
    memory. *)
Lemma process_line_keeps_fs line tok dry verbose :
  keeps fs (process_line w line tok dry verbose).
Proof.
  unfold process_line.
  destruct (re_search uses_re line) as [[[pre gs] post]|];
    [|apply keeps_ret].
  destruct gs as [|owner [|repo [|sha [|ver [|x gs]]]]]; try apply keeps_ret.
  apply keeps_bind; [apply get_latest_version_keeps_fs|].
  intros r. unfold re_sub_text, print. keeps_field.
Qed.

Lemma process_line_keeps_stats line tok dry verbose :
  keeps stats (process_line w line tok dry verbose).
Proof.
  unfold process_line.
  destruct (re_search uses_re line) as [[[pre gs] post]|];
    [|apply keeps_ret].
  destruct gs as [|owner [|repo [|sha [|ver [|x gs]]]]]; try apply keeps_ret.
  apply keeps_bind; [apply get_latest_version_keeps_stats|].
  intros r. unfold re_sub_text, print. keeps_field.
Qed.

Lemma for_lines_keeps (V : Type) (f : State -> V) tok dry verbose :
  (forall line, keeps f (process_line w line tok dry verbose)) ->
  forall lines updated changed n,
    keeps f (for_lines w lines tok dry verbose updated changed n).
Proof.
  intros Hp lines. induction lines as [|line rest IH];
    intros updated changed n; simpl.
  - apply keeps_ret.
  - apply keeps_bind; [apply Hp|].
    intros [updated_line was_changed]. destruct was_changed; apply IH.
Qed.

Lemma read_file_keeps_fs path : keeps fs (read_file w path).
Proof. unfold read_file. keeps_field. Qed.

(** In a dry run the file updater leaves the disk as it was. *)
Lemma update_action_version_dry_keeps_fs path tok backup verbose :
  keeps fs (update_action_version w path tok true backup verbose).
Proof.
  unfold update_action_version.
  apply keeps_except; [|unfold print; keeps_field].
  apply keeps_bind; [apply read_file_keeps_fs|].
  intros lines.
  apply keeps_bind;
    [apply for_lines_keeps; intros; apply process_line_keeps_fs|].
  intros [[updated changed] n].
  unfold finalize_update. simpl negb. cbv iota.
  destruct changed; [|apply keeps_ret].
  keeps_field.
Qed.

Lemma for_files_dry_keeps_fs paths tok backup verbose :
  keeps fs (for_files w paths tok true backup verbose).
Proof.
  induction paths as [|path rest IH]; simpl.
  - apply keeps_ret.
  - apply keeps_bind; [unfold print; keeps_field | intros ?].
    apply keeps_bind; [keeps_field | intros ?].
    apply keeps_bind; [apply update_action_version_dry_keeps_fs | intros ?].
    exact IH.
Qed.

Lemma run_dry_keeps_fs disk paths tok backup verbose :
  fs (fst (run w disk paths tok true backup verbose)) = disk.
Proof.
  unfold run, update_all_actions.
  assert (H : keeps fs (modify (set_stats (mkStats 0 0 0)) ;;;
                        for_files w paths tok true backup verbose)).
  { apply keeps_bind; [keeps_field | intros ?].
    apply for_files_dry_keeps_fs. }
  rewrite (H (initial_state disk)). reflexivity.
Qed.

(** *** The statistics of a dry run *)

Lemma bind_unfold (A B : Type) (c : M A) (k : A -> M B) st :
  bind c k st
  = match c st with
    | (st', Ok a) => k a st'
    | (st', Raise e) => (st', Raise e)
    end.
Proof. reflexivity. Qed.

Lemma same_resolver_state_refl a : same_resolver_state a a.
Proof. repeat split. Qed.

Lemma resolver_only_bind (A B : Type) (c : M A) (k : A -> M B) :
  resolver_only c -> (forall x, resolver_only (k x)) ->
  resolver_only (bind c k).
Proof.
  intros Hc Hk a b Hsim. unfold bind.
  destruct (Hc a b Hsim) as [Hr Hs].
  destruct (c a) as [a' ra], (c b) as [b' rb]. simpl in Hr, Hs. subst rb.
  destruct ra as [x|e]; [apply Hk; exact Hs | split; [reflexivity | exact Hs]].
Qed.

Lemma resolver_only_ret (A : Type) (x : A) : resolver_only (ret x).
Proof. intros a b Hsim. split; [reflexivity | exact Hsim]. Qed.

Lemma resolver_only_raise (A : Type) e : resolver_only (raise (A := A) e).
Proof. intros a b Hsim. split; [reflexivity | exact Hsim]. Qed.

Lemma resolver_only_gets (A : Type) (g : State -> A) :
  (forall a b, same_resolver_state a b -> g a = g b) ->
  resolver_only (gets g).
Proof.
  intros Hg a b Hsim. simpl. rewrite (Hg a b Hsim).
  split; [reflexivity | exact Hsim].
Qed.

Lemma resolver_only_modify g :
  (forall a b, same_resolver_state a b -> same_resolver_state (g a) (g b)) ->
  resolver_only (modify g).
Proof. intros Hg a b Hsim. split; [reflexivity | apply Hg; exact Hsim]. Qed.

Lemma resolver_only_when b c : resolver_only c -> resolver_only (when b c).
Proof. intros H. destruct b; [exact H | apply resolver_only_ret]. Qed.

Ltac sim_fields :=
  let a := fresh "a" in
  let b := fresh "b" in
  let H1 := fresh "H" in
  let H2 := fresh "H" in
  let H3 := fresh "H" in
  intros a b [H1 [H2 H3]]; unfold same_resolver_state; simpl;
  rewrite ?H1, ?H2, ?H3; auto.

Ltac resolver_steps :=
  repeat first
    [ apply resolver_only_ret
    | apply resolver_only_raise
    | apply resolver_only_when
    | apply resolver_only_gets; sim_fields
    | apply resolver_only_modify; sim_fields
    | apply resolver_only_bind; [|intros ?]
    | match goal with
      | |- resolver_only (match ?x with _ => _ end) => destruct x
      end ].

(** The resolver reads and writes the cache, the guard and the request
    counter only (and prints). *)
Lemma get_latest_version_resolver_only owner repo tok verbose :
  resolver_only (get_latest_version w owner repo tok verbose).
Proof.
  unfold get_latest_version, check_rate_limit, get_cached_version,
    execute_github_request, handle_http_error, handle_version_response,
    handle_rate_limit, int_header, sleep, print.
  resolver_steps.
Qed.

(** A line that the real run rewrites or keeps is flagged the same way by
    the dry run, which returns it as it was; and where the real run meets
    an [OSError], which comes from the request, so does the dry run. *)
Lemma process_line_dry_flags line tok verbose a b a1 r :
  same_resolver_state a b ->
  process_line w line tok false verbose a = (a1, r) ->
  match r with
  | Ok (l, c) =>
      exists b1,
        process_line w line tok true verbose b = (b1, Ok (line, c))
        /\ same_resolver_state a1 b1
  | Raise OSError =>
      exists b1,
        process_line w line tok true verbose b = (b1, Raise OSError)
        /\ same_resolver_state a1 b1
  | Raise _ => True
  end.
Proof.
  intros Hsim. unfold process_line.
  destruct (re_search uses_re line) as [[[pre gs] post]|].
  2:{ simpl. intros E. inversion E. subst.
      eexists. split; [reflexivity | exact Hsim]. }
  destruct gs as [|owner [|repo [|sha [|ver [|x gs]]]]];
    try (simpl; intros E; inversion E; subst;
         eexists; split; [reflexivity | exact Hsim]).
  rewrite !bind_unfold.
  pose proof (get_latest_version_resolver_only owner repo tok verbose Hsim)
    as [Hr Hs].
  destruct (get_latest_version w owner repo tok verbose a) as [a' ra].
  destruct (get_latest_version w owner repo tok verbose b) as [b' rb].
  simpl in Hr, Hs. subst rb.
  destruct ra as [[[tag latest_sha]|]|e].
  3:{ intros E. inversion E. subst.
      destruct e; try exact I. eexists. split; [reflexivity | exact Hs]. }
  2:{ intros E. inversion E. exact I. }
  cbv zeta.
  match goal with
  | |- (if ?x then _ else _) _ = _ -> _ => destruct x
  end.
  2:{ simpl. intros E. inversion E. subst.
      eexists. split; [reflexivity | exact Hs]. }
  match goal with
  | |- (match ?x with _ => _ end) _ = _ -> _ => destruct x
  end; [|intros E; inversion E; exact I].
  match goal with
  | |- (if ?x then _ else _) _ = _ -> _ => destruct x
  end; [intros E; inversion E; exact I|].
  destruct (version_parse ver); [|intros E; inversion E; exact I].
  match goal with
  | |- (if ?x then _ else _) _ = _ -> _ => destruct x
  end; [intros E; inversion E; exact I|].
  destruct (version_gt v v0).
  2:{ simpl. intros E. inversion E. subst.
      eexists. split; [reflexivity | exact Hs]. }
  unfold re_sub_text, bind, when, print, modify, raise, ret.
  destruct verbose; simpl;
    repeat match goal with
      | |- context [if ?x then _ else _] => destruct x; simpl
      end;
    intros E; inversion E; subst;
    first [exact I | eexists; (split; [reflexivity | exact Hs])].
Qed.

Lemma for_lines_dry_flags lines tok verbose :
  forall a b ua ub c n a1 r,
    same_resolver_state a b ->
    for_lines w lines tok false verbose ua c n a = (a1, r) ->
    match r with
    | Ok (u1, c1, n1) =>
        exists b1 u2,
          for_lines w lines tok true verbose ub c n b = (b1, Ok (u2, c1, n1))
          /\ same_resolver_state a1 b1
    | Raise OSError =>
        exists b1,
          for_lines w lines tok true verbose ub c n b = (b1, Raise OSError)
          /\ same_resolver_state a1 b1
    | Raise _ => True
    end.
Proof.
  induction lines as [|line rest IH];
    intros a b ua ub c n a1 r Hsim; simpl.
  - intros E. inversion E. subst.
    eexists. eexists. split; [reflexivity | exact Hsim].
  - rewrite !bind_unfold.
    destruct (process_line w line tok false verbose a)
      as [a' rp] eqn:Hp.
    pose proof (process_line_dry_flags line tok verbose Hsim Hp) as Hq.
    destruct rp as [[l ch]|e].
    + destruct Hq as [b' [Hq Hs]].
      rewrite Hq. destruct ch; intros E; eapply IH; eassumption.
    + intros E. inversion E. subst.
      destruct e; try exact I.
      destruct Hq as [b' [Hq Hs]]. rewrite Hq.
      eexists. split; [reflexivity | exact Hs].
Qed.

(** Backups and writes may fail, but they report it and return. *)
Lemma only_raises_bind (A B : Type) e (c : M A) (k : A -> M B) :
  only_raises e c -> (forall a, only_raises e (k a)) ->
  only_raises e (bind c k).
Proof.
  intros Hc Hk st e'. unfold bind. specialize (Hc st).
  destruct (c st) as [st' [a|e0]]; simpl in *.
  - apply Hk.
  - intros E. inversion E. subst. apply Hc. reflexivity.
Qed.

Lemma only_raises_ok (A : Type) e (c : M A) :
  (forall st, exists a, snd (c st) = Ok a) -> only_raises e c.
Proof. intros H st e' E. destruct (H st) as [a Ha]. congruence. Qed.

Lemma only_raises_raise (A : Type) e : only_raises e (raise (A := A) e).
Proof. intros st e' E. simpl in E. congruence. Qed.

Lemma only_raises_when e b c : only_raises e c -> only_raises e (when b c).
Proof.
  intros H. destruct b; [exact H|].
  apply only_raises_ok. intros st. exists tt. reflexivity.
Qed.

Ltac only_oserror :=
  repeat first
    [ apply only_raises_raise
    | apply only_raises_when
    | apply only_raises_ok; intros ?; eexists; reflexivity
    | apply only_raises_bind; [|intros ?]
    | match goal with
      | |- only_raises _ (match ?x with _ => _ end) => destruct x
      end ].

Lemma except_returns (c h : M unit) st :
  only_raises OSError c ->
  (forall st', snd (h st') = Ok tt) ->
  snd (except_oserror c h st) = Ok tt.
Proof.
  intros Hc Hh. unfold except_oserror. specialize (Hc st).
  destruct (c st) as [st' [[]|e]]; simpl in *; [reflexivity|].
  rewrite (Hc e eq_refl). apply Hh.
Qed.

Lemma create_backup_returns path verbose st :
  snd (create_backup w path verbose st) = Ok tt.
Proof.
  unfold create_backup. apply except_returns; [|reflexivity].
  cbv zeta. unfold makedirs, copyfile, io_call, print. only_oserror.
Qed.

(** The writing of a file, from its opening to its closing. *)
Lemma write_file_unfold path lines verbose st :
  write_file w path lines verbose st
  = let st1 := count_io st in
    let text := List.concat lines in
    let put c s := set_fs (put_file path c (fs s)) s in
    let told s := if verbose then log (Print (MsgUpdatedFile path)) s else s in
    match io w (io_made st) (OpWrite path) with
    | IoOk => (log (Wrote path) (put text (told (put [] st1))), Ok tt)
    | IoFail None => (st1, Raise OSError)
    | IoFail (Some n) => (put (firstn n text) (put [] st1), Raise OSError)
    | IoFailAtClose n =>
        (put (firstn n text) (told (put [] st1)), Raise OSError)
    | IoUnicodeError n =>
        (put (firstn n text) (put [] st1), Raise UnicodeEncodeError)
    end.
Proof.
  unfold write_file, open_w, writelines, close_w, store, io_call, bind,
    modify, raise, ret.
  cbv zeta.
  destruct (io w (io_made st) (OpWrite path)) as [|[k|]|k|k];
    destruct verbose; reflexivity.
Qed.

(** The steps of [finalize_update] when a change is written. *)
Lemma finalize_update_unfold path lines n backup verbose st :
  finalize_update w path lines true n false backup verbose st
  = match when backup (create_backup w path verbose) (count_update n st) with
    | (sb, Ok _) =>
        match write_file w path lines verbose sb with
        | (sw, Raise OSError) => print (MsgErrorWriting path) sw
        | out => out
        end
    | (sb, Raise e) => (sb, Raise e)
    end.
Proof.
  unfold finalize_update. change (negb false) with true. cbv iota.
  unfold bind at 1, modify at 1. cbv beta iota.
  unfold bind at 1.
  destruct (when backup (create_backup w path verbose) (count_update n st))
    as [sb [[]|e]]; [|reflexivity].
  unfold except_oserror.
  destruct (write_file w path lines verbose sb) as [sw [[]|e]];
    [|destruct e]; reflexivity.
Qed.

(** [finalize_update] returns, unless the text that it writes cannot be
    encoded. *)
Lemma finalize_update_returns path lines changed n dry backup verbose st :
  snd (finalize_update w path lines changed n dry backup verbose st) = Ok tt
  \/ (changed = true /\ dry = false
      /\ (exists k, io w (io_made
                            (fst (when backup (create_backup w path verbose)
                                    (count_update n st))))
                      (OpWrite path) = IoUnicodeError k)
      /\ snd (finalize_update w path lines changed n dry backup verbose st)
         = Raise UnicodeEncodeError).
Proof.
  destruct changed; [|left; reflexivity].
  destruct dry; [left; reflexivity|].
  rewrite finalize_update_unfold.
  assert (Hb : snd (when backup (create_backup w path verbose)
                      (count_update n st)) = Ok tt).
  { destruct backup; [apply create_backup_returns | reflexivity]. }
  destruct (when backup (create_backup w path verbose) (count_update n st))
    as [st1 r1]. simpl in Hb. subst r1. simpl fst.
  rewrite write_file_unfold. cbv zeta.
  destruct (io w (io_made st1) (OpWrite path)) as [|[k|]|k|k];
    try (left; reflexivity).
  right. split; [reflexivity|]. split; [reflexivity|].
  split; [exists k; reflexivity | reflexivity].
Qed.

Lemma finalize_update_dry_returns path lines changed n backup verbose st :
  snd (finalize_update w path lines changed n true backup verbose st) = Ok tt.
Proof.
  destruct (finalize_update_returns path lines changed n true backup verbose st)
    as [H | [_ [H _]]]; [exact H | discriminate].
Qed.

(** It never ends with an [OSError]. *)
Lemma finalize_update_absorbs path lines changed n dry backup verbose st :
  snd (finalize_update w path lines changed n dry backup verbose st)
  <> Raise OSError.
Proof.
  destruct (finalize_update_returns path lines changed n dry backup verbose st)
    as [H | [_ [_ [_ H]]]]; rewrite H; discriminate.
Qed.

Lemma create_backup_keeps_stats path verbose :
  keeps stats (create_backup w path verbose).
Proof.
  unfold create_backup, makedirs, copyfile, print. cbv zeta. keeps_field.
Qed.

Lemma finalize_update_stats path lines changed n dry backup verbose st :
  stats (fst (finalize_update w path lines changed n dry backup verbose st))
  = stats (if changed then count_update n st else st).
Proof.
  unfold finalize_update. destruct changed; [|reflexivity].
  assert (H : keeps stats
                (if negb dry
                 then when backup (create_backup w path verbose) ;;;
                      except_oserror
                        (write_file w path lines verbose)
                        (print (MsgErrorWriting path))
                 else ret tt)).
  { destruct (negb dry); [|apply keeps_ret].
    apply keeps_bind;
      [apply keeps_when, create_backup_keeps_stats | intros ?].
    unfold write_file, open_w, writelines, close_w, store, print.
    keeps_field. }
  unfold bind at 1, modify at 1. cbv beta iota.
  apply H.
Qed.

Lemma read_file_keeps_stats path : keeps stats (read_file w path).
Proof. unfold read_file. keeps_field. Qed.

(** The file updater, step by step. *)
Lemma update_action_version_unfold path tok dry backup verbose st :
  update_action_version w path tok dry backup verbose st
  = match read_file w path st with
    | (sr, Ok lines) =>
        match for_lines w lines tok dry verbose [] false 0 sr with
        | (sl, Ok (updated_lines, changed, changes_made)) =>
            match finalize_update w path updated_lines changed changes_made
                    dry backup verbose sl with
            | (sf, Raise OSError) => print (MsgErrorProcessing path) sf
            | out => out
            end
        | (sl, Raise OSError) => print (MsgErrorProcessing path) sl
        | (sl, Raise e) => (sl, Raise e)
        end
    | (sr, Raise OSError) => print (MsgErrorProcessing path) sr
    | (sr, Raise e) => (sr, Raise e)
    end.
Proof.
  unfold update_action_version, except_oserror, bind.
  destruct (read_file w path st) as [sr [lines|e]]; [|destruct e; reflexivity].
  destruct (for_lines w lines tok dry verbose [] false 0 sr)
    as [sl [[[u c] n]|e]]; [|destruct e; reflexivity].
  destruct (finalize_update w path u c n dry backup verbose sl)
    as [sf [[]|e]]; [reflexivity | destruct e; reflexivity].
Qed.

(** For every file, the dry run ends with the statistics that the real
    update ends with, and with the disk untouched. *)
Lemma dry_run_counts path tok backup verbose st st1 :
  update_action_version w path tok false backup verbose st = (st1, Ok tt) ->
  exists st2,
    update_action_version w path tok true backup verbose st = (st2, Ok tt)
    /\ stats st2 = stats st1
    /\ fs st2 = fs st.
Proof.
  intros Hreal.
  pose proof (update_action_version_dry_keeps_fs path tok backup verbose st)
    as Hfs.
  revert Hreal Hfs.
  rewrite !update_action_version_unfold.
  destruct (read_file w path st) as [sr [lines|e]] eqn:Hread.
  2:{ intros Hreal Hfs. exists st1. rewrite Hreal in *.
      split; [reflexivity | split; [reflexivity | exact Hfs]]. }
  destruct (for_lines w lines tok false verbose [] false 0 sr)
    as [sl r] eqn:Hl.
  pose proof (for_lines_dry_flags lines tok verbose [] (@nil str) false 0
                (same_resolver_state_refl sr) Hl) as Hd.
  pose proof (for_lines_keeps (f := stats) tok false verbose
                (fun line => process_line_keeps_stats line tok false verbose)
                lines [] false 0 sr) as Hs1.
  pose proof (for_lines_keeps (f := stats) tok true verbose
                (fun line => process_line_keeps_stats line tok true verbose)
                lines [] false 0 sr) as Hs2.
  rewrite Hl in Hs1. simpl in Hs1.
  destruct r as [[[u c] n]|e].
  - destruct Hd as [sl2 [u2 [Hdry _]]].
    rewrite Hdry in *. simpl in Hs2.
    pose proof (finalize_update_absorbs path u c n false backup verbose sl)
      as Hr1.
    pose proof (finalize_update_dry_returns path u2 c n backup verbose sl2)
      as Hr2.
    pose proof (finalize_update_stats path u c n false backup verbose sl)
      as Ht1.
    pose proof (finalize_update_stats path u2 c n true backup verbose sl2)
      as Ht2.
    destruct (finalize_update w path u c n false backup verbose sl)
      as [f1 r1].
    destruct (finalize_update w path u2 c n true backup verbose sl2)
      as [f2 r2].
    simpl in Hr1, Hr2, Ht1, Ht2. subst r2.
    destruct r1 as [[]|e1]; [|destruct e1; try discriminate; contradiction].
    intros Hreal Hfs. inversion Hreal. subst f1.
    exists f2. split; [reflexivity|]. split; [|exact Hfs].
    rewrite Ht1, Ht2. destruct c; unfold count_update; simpl; congruence.
  - destruct e; try discriminate.
    destruct Hd as [sl2 [Hdry _]]. rewrite Hdry in *. simpl in Hs2.
    unfold print, modify.
    intros Hreal Hfs. inversion Hreal. subst st1.
    eexists. split; [reflexivity|]. split; [|exact Hfs].
    simpl. congruence.
Qed.
End DryRun.

(** C6.  A dry run never changes the disk: after the run every file holds
    what it held and no backup exists that did not exist, however many
    lines are out of date and however the run ends.  Its statistics still
    count the changes: for every file, the dry run ends with the very
    statistics with which the real update of that file ends. *)
Theorem C6_dry_run_leaves_disk_and_counts (w : World) :
  (forall disk paths tok backup verbose,
      fs (fst (run w disk paths tok true backup verbose)) = disk)
  /\ (forall path tok backup verbose st st1,
         update_action_version w path tok false backup verbose st = (st1, Ok tt) ->
         exists st2,
           update_action_version w path tok true backup verbose st = (st2, Ok tt)
           /\ stats st2 = stats st1
           /\ fs st2 = fs st).
Proof.
  split.
  - intros. apply run_dry_keeps_fs.
  - intros path tok backup verbose st st1 H.
    exact (@dry_run_counts w path tok backup verbose st st1 H).
Qed.

(** An instance: a file with two lines that are out of date. *)
Lemma C6_dry_run_leaves_disk_and_counts_witness :
  let w := world_of (tags "v1.3.0" "cafebabe") in
  let disk := disk_of (tool_line ++ tool_line) tool_line in
  fs (fst (run w disk [ci_yml; release_yml] None true true false)) = disk
  /\ exists st2,
       update_action_version w ci_yml None true true false (initial_state disk)
       = (st2, Ok tt)
       /\ stats st2 = mkStats 0 1 2
       /\ fs st2 = disk.
Proof.
  cbv zeta.
  destruct (C6_dry_run_leaves_disk_and_counts
              (world_of (tags "v1.3.0" "cafebabe"))) as [Hdisk Hstats].
  split.
  - apply Hdisk.
  - apply (Hstats ci_yml None true false
             (initial_state (disk_of (tool_line ++ tool_line) tool_line))
             (fst (update_action_version (world_of (tags "v1.3.0" "cafebabe"))
                     ci_yml None false true false
                     (initial_state (disk_of (tool_line ++ tool_line) tool_line))))).
    vm_compute. reflexivity.
Defined.

(** ** The file system *)

Section Files.
Variable w : World.

Lemma read_file_fails path st x :
  io w (io_made st) (OpRead path) = IoFail x ->
  read_file w path st = (count_io st, Raise OSError).
Proof.
  intros H. unfold read_file, io_call, bind. rewrite H. reflexivity.
Qed.

Lemma read_file_missing path st :
  file_get path (files (fs st)) = None ->
  read_file w path st = (count_io st, Raise OSError).
Proof.
  intros H. unfold read_file, io_call, bind, gets.
  destruct (io w (io_made st) (OpRead path)); simpl; rewrite ?H; reflexivity.
Qed.

(** A file whose bytes are no UTF-8. *)
Lemma read_file_undecodable path st k content :
  io w (io_made st) (OpRead path) = IoUnicodeError k ->
  file_get path (files (fs st)) = Some content ->
  read_file w path st = (count_io st, Raise UnicodeDecodeError).
Proof.
  intros H Hf. unfold read_file, io_call, bind, gets. rewrite H. simpl.
  rewrite Hf. reflexivity.
Qed.

Lemma makedirs_fails dir st x :
  io w (io_made st) (OpMakeDirs dir) = IoFail x ->
  makedirs w dir st = (count_io st, Raise OSError).
Proof.
  intros H. unfold makedirs, io_call, bind. rewrite H. reflexivity.
Qed.

Lemma makedirs_ok dir st :
  io w (io_made st) (OpMakeDirs dir) = IoOk ->
  file_get dir (files (fs st)) = None ->
  makedirs w dir st
  = (log (MadeDirs dir) (set_fs (add_dir dir (fs st)) (count_io st)), Ok tt).
Proof.
  intros H Hd. unfold makedirs, io_call, bind, gets. rewrite H. simpl.
  rewrite Hd. reflexivity.
Qed.

(** A copy that fails leaves the target as it was, or with the start of
    the source. *)
Lemma copyfile_fails src dst st x content :
  io w (io_made st) (OpCopy src dst) = IoFail x ->
  file_get src (files (fs st)) = Some content ->
  copyfile w src dst st
  = (match x with
     | None => count_io st
     | Some n =>
         set_fs (put_file dst (firstn n content) (fs st)) (count_io st)
     end, Raise OSError).
Proof.
  intros H Hs. unfold copyfile, io_call, bind, gets. rewrite H. simpl.
  rewrite Hs. destruct x; reflexivity.
Qed.

Lemma copyfile_ok src dst content st :
  io w (io_made st) (OpCopy src dst) = IoOk ->
  file_get src (files (fs st)) = Some content ->
  copyfile w src dst st
  = (log (Copied src dst)
       (set_fs (put_file dst content (fs st)) (count_io st)), Ok tt).
Proof.
  intros H Hs. unfold copyfile, io_call, bind, gets. rewrite H. simpl.
  rewrite Hs. reflexivity.
Qed.

Lemma create_backup_unfold path verbose st :
  create_backup w path verbose st
  = match makedirs w (backup_dir_of path) st with
    | (sm, Ok _) =>
        match copyfile w path (backup_path_of path) sm with
        | (sc, Ok _) =>
            when verbose (print (MsgBackupCreated (backup_path_of path))) sc
        | (sc, Raise OSError) => print (MsgErrorBackup path) sc
        | (sc, Raise e) => (sc, Raise e)
        end
    | (sm, Raise OSError) => print (MsgErrorBackup path) sm
    | (sm, Raise e) => (sm, Raise e)
    end.
Proof.
  unfold create_backup, except_oserror, bind, backup_path_of, backup_dir_of.
  cbv zeta.
  destruct (makedirs w (join (dirname path) (lit "backups")) st)
    as [sm [[]|e]]; [|destruct e; reflexivity].
  destruct (copyfile w path
              (join (join (dirname path) (lit "backups")) (basename path)) sm)
    as [sc [[]|e]]; [|destruct e; reflexivity].
  destruct verbose; reflexivity.
Qed.
End Files.

(** ** Paths *)

Lemma split_last_slash_app p :
  p = fst (split_last_slash p) ++ snd (split_last_slash p).
Proof.
  induction p as [|c p IH]; simpl; [reflexivity|].
  destruct (split_last_slash p) as [h t]. simpl in IH.
  destruct h as [|x h]; simpl.
  - simpl in IH. subst p. destruct (is_slash c); reflexivity.
  - rewrite IH. reflexivity.
Qed.

Lemma nonempty_false (s : str) : nonempty s = false -> s = [].
Proof. destruct s; [reflexivity | discriminate]. Qed.

Lemma split_last_slash_head_nil p :
  fst (split_last_slash p) = [] -> snd (split_last_slash p) = p.
Proof.
  intros H. rewrite (split_last_slash_app p) at 2. rewrite H. reflexivity.
Qed.

Lemma lstrip_slashes_split s :
  exists z, s = z ++ lstrip_slashes s /\ forallb is_slash z = true.
Proof.
  induction s as [|c s [z [Hs Hz]]]; simpl.
  - exists []. split; reflexivity.
  - destruct (is_slash c) eqn:E.
    + exists (c :: z). simpl. rewrite E, Hz. split; [congruence | reflexivity].
    + exists []. split; reflexivity.
Qed.

Lemma forallb_rev (A : Type) (f : A -> bool) l :
  forallb f (rev l) = forallb f l.
Proof.
  induction l as [|x l IH]; simpl; [reflexivity|].
  rewrite forallb_app, IH. simpl. rewrite andb_true_r. apply andb_comm.
Qed.

(** [dirname] is the head of the path, or the head without the slashes
    that end it. *)
Lemma dirname_head p :
  exists z,
    fst (split_last_slash p) = dirname p ++ z /\ forallb is_slash z = true.
Proof.
  unfold dirname.
  destruct (nonempty (fst (split_last_slash p))
            && negb (forallb is_slash (fst (split_last_slash p)))).
  - destruct (lstrip_slashes_split (rev (fst (split_last_slash p))))
      as [z [Hs Hz]].
    exists (rev z). split; [|rewrite forallb_rev; exact Hz].
    rewrite <- rev_app_distr, <- Hs, rev_involutive. reflexivity.
  - exists []. split; [rewrite app_nil_r; reflexivity | reflexivity].
Qed.

Lemma join_backups d :
  exists x, join d (lit "backups") = d ++ x ++ lit "backups"
            /\ (x = [] \/ x = lit "/").
Proof.
  unfold join. simpl.
  destruct (negb (nonempty d) || ends_with_slash d).
  - exists []. split; [reflexivity | left; reflexivity].
  - exists (lit "/"). split; [reflexivity | right; reflexivity].
Qed.

Lemma ends_with_slash_backups a :
  ends_with_slash (a ++ lit "backups") = false.
Proof.
  unfold ends_with_slash. rewrite rev_app_distr. reflexivity.
Qed.

Lemma nonempty_app_r (a b : str) : nonempty b = true -> nonempty (a ++ b) = true.
Proof. destruct a; simpl; auto. Qed.

Lemma split_last_slash_tail p :
  forallb (fun c => negb (is_slash c)) (snd (split_last_slash p)) = true.
Proof.
  induction p as [|c p IH]; simpl; [reflexivity|].
  destruct (split_last_slash p) as [h t]. simpl in IH.
  destruct (nonempty h); simpl; [exact IH|].
  destruct (is_slash c) eqn:E; simpl; [exact IH|].
  rewrite E. exact IH.
Qed.

Lemma join_backup_file b t :
  nonempty b = true -> ends_with_slash b = false ->
  forallb (fun c => negb (is_slash c)) t = true ->
  join b t = b ++ lit "/" ++ t.
Proof.
  intros Hb He Ht. unfold join. rewrite Hb, He. simpl.
  destruct t as [|c t]; [reflexivity|].
  simpl in Ht. destruct (is_slash c); [discriminate | reflexivity].
Qed.

Lemma split_last_slash_plain t :
  forallb (fun c => negb (is_slash c)) t = true ->
  split_last_slash t = ([], t).
Proof.
  induction t as [|c t IH]; intros H; simpl; [reflexivity|].
  simpl in H. apply andb_true_iff in H. destruct H as [Hc Ht].
  rewrite (IH Ht). simpl. apply negb_true_iff in Hc. rewrite Hc. reflexivity.
Qed.

Lemma split_last_slash_joined h t :
  forallb (fun c => negb (is_slash c)) t = true ->
  split_last_slash (h ++ lit "/" ++ t) = (h ++ lit "/", t).
Proof.
  intros Ht. induction h as [|c h IH]; simpl.
  - rewrite (split_last_slash_plain t Ht). reflexivity.
  - simpl in IH. rewrite IH.
    assert (nonempty (h ++ ["/"%char]) = true) as ->
        by (apply nonempty_app_r; reflexivity).
    reflexivity.
Qed.

(** The backup path, spelled out: the [backups] directory next to the file,
    then the name of the file. *)
Lemma backup_path_spelled p :
  backup_path_of p = backup_dir_of p ++ lit "/" ++ basename p.
Proof.
  unfold backup_path_of, backup_dir_of.
  destruct (join_backups (dirname p)) as [x [Hj Hx]]. rewrite Hj.
  apply join_backup_file.
  - rewrite app_assoc. apply nonempty_app_r. reflexivity.
  - rewrite app_assoc. apply ends_with_slash_backups.
  - apply split_last_slash_tail.
Qed.

Lemma dirname_joined b c t :
  is_slash c = false ->
  forallb (fun x => negb (is_slash x)) t = true ->
  dirname ((b ++ [c]) ++ lit "/" ++ t) = b ++ [c].
Proof.
  intros Hc Ht. unfold dirname. cbv zeta.
  rewrite split_last_slash_joined by exact Ht.
  change (fst ((b ++ [c]) ++ lit "/", t)) with ((b ++ [c]) ++ lit "/").
  assert (Hall : forallb is_slash ((b ++ [c]) ++ lit "/") = false).
  { rewrite !forallb_app. simpl. rewrite Hc. simpl.
    rewrite andb_false_r. reflexivity. }
  assert (Hne : nonempty ((b ++ [c]) ++ lit "/") = true)
    by (apply nonempty_app_r; reflexivity).
  rewrite Hall, Hne. simpl andb. cbv iota.
  rewrite !rev_app_distr. simpl. rewrite Hc.
  simpl. rewrite rev_involutive. reflexivity.
Qed.

(** The copy bears the name of the file and lies in the [backups]
    directory. *)
Lemma backup_path_parts p :
  basename (backup_path_of p) = basename p
  /\ dirname (backup_path_of p) = backup_dir_of p.
Proof.
  rewrite backup_path_spelled. split.
  - unfold basename at 1.
    rewrite split_last_slash_joined by apply split_last_slash_tail.
    reflexivity.
  - unfold backup_dir_of.
    destruct (join_backups (dirname p)) as [x [Hj Hx]]. rewrite Hj.
    change (lit "backups") with (lit "backup" ++ ["s"%char]).
    rewrite !app_assoc. rewrite <- (app_assoc _ (lit "/") (basename p)).
    apply dirname_joined; [reflexivity | apply split_last_slash_tail].
Qed.

(** The backup of a file is never the file itself. *)
Lemma backup_path_differs p : backup_path_of p <> p.
Proof.
  unfold backup_path_of, backup_dir_of.
  destruct (join_backups (dirname p)) as [x [Hj Hx]]. rewrite Hj.
  rewrite join_backup_file; cycle 1.
  - rewrite app_assoc. apply nonempty_app_r. reflexivity.
  - rewrite app_assoc. apply ends_with_slash_backups.
  - apply split_last_slash_tail.
  - unfold basename. intros E.
    rewrite (split_last_slash_app p) in E at 3.
    rewrite !app_assoc in E. apply app_inv_tail in E.
    destruct (dirname_head p) as [z [Hh Hz]].
    rewrite Hh in E. rewrite <- !app_assoc in E. apply app_inv_head in E.
    subst z. destruct Hx as [-> | ->]; discriminate Hz.
Qed.

(** The base name is what follows the last slash of the path. *)
Lemma ends_with_slash_cons c (h : str) :
  nonempty h = true -> ends_with_slash (c :: h) = ends_with_slash h.
Proof.
  intros Hh. unfold ends_with_slash. simpl.
  destruct (rev h) as [|x r] eqn:E; [|reflexivity].
  apply (f_equal (@rev ascii)) in E. rewrite rev_involutive in E.
  subst h. discriminate.
Qed.

Lemma split_last_slash_head p :
  ends_with_slash (fst (split_last_slash p))
  = nonempty (fst (split_last_slash p)).
Proof.
  induction p as [|c p IH]; simpl; [reflexivity|].
  destruct (split_last_slash p) as [h t]. simpl in IH.
  destruct (nonempty h) eqn:Hh; simpl.
  - rewrite ends_with_slash_cons by exact Hh. exact IH.
  - destruct (is_slash c) eqn:E; simpl; [|reflexivity].
    unfold ends_with_slash. simpl. exact E.
Qed.

(** The path, its directory and the directory of its backup, spelled out:
    the path is a head, empty or ending with a slash, and a base name
    without slashes; the directory is the head without slashes that end
    it; the directory of the backup is that directory and [backups]. *)
Lemma path_spelled p :
  exists head slashes sep,
    p = head ++ basename p
    /\ forallb (fun c => negb (is_slash c)) (basename p) = true
    /\ ends_with_slash head = nonempty head
    /\ head = dirname p ++ slashes
    /\ forallb is_slash slashes = true
    /\ backup_dir_of p = dirname p ++ sep ++ lit "backups"
    /\ (sep = [] \/ sep = lit "/").
Proof.
  destruct (dirname_head p) as [z [Hh Hz]].
  destruct (join_backups (dirname p)) as [x [Hj Hx]].
  exists (fst (split_last_slash p)), z, x.
  split; [apply split_last_slash_app|].
  split; [apply split_last_slash_tail|].
  split; [apply split_last_slash_head|].
  split; [exact Hh|]. split; [exact Hz|]. split; [exact Hj | exact Hx].
Qed.

(** ** Backups (C7) *)

Section Backup.
Variable w : World.

Lemma file_get_put_file_same p c d :
  file_get p (files (put_file p c d)) = Some c.
Proof. apply file_get_put_same. Qed.

Lemma file_get_put_file_other p q c d :
  p <> q -> file_get q (files (put_file p c d)) = file_get q (files d).
Proof. apply file_get_put_other. Qed.

Lemma files_add_dir p d : files (add_dir p d) = files d.
Proof. unfold add_dir. destruct (existsb (str_eqb p) (dirs d)); reflexivity. Qed.

Lemma in_add_dir p d : In p (dirs (add_dir p d)).
Proof.
  unfold add_dir.
  destruct (existsb (str_eqb p) (dirs d)) eqn:E; [|left; reflexivity].
  apply existsb_exists in E. destruct E as [q [Hin Hq]].
  apply str_eqb_eq in Hq. subst q. exact Hin.
Qed.

Lemma finalize_update_with_backup path lines n verbose st original :
  file_get path (files (fs st)) = Some original ->
  file_get (backup_dir_of path) (files (fs st)) = None ->
  io w (io_made st) (OpMakeDirs (backup_dir_of path)) = IoOk ->
  io w (S (io_made st)) (OpCopy path (backup_path_of path)) = IoOk ->
  io w (S (S (io_made st))) (OpWrite path) = IoOk ->
  exists st',
    finalize_update w path lines true n false true verbose st = (st', Ok tt)
    /\ file_get (backup_path_of path) (files (fs st')) = Some original
    /\ file_get path (files (fs st')) = Some (List.concat lines)
    /\ In (backup_dir_of path) (dirs (fs st'))
    /\ trace st'
       = trace st
         ++ [MadeDirs (backup_dir_of path); Copied path (backup_path_of path)]
         ++ (if verbose then [Print (MsgBackupCreated (backup_path_of path))]
             else [])
         ++ (if verbose then [Print (MsgUpdatedFile path)] else [])
         ++ [Wrote path].
Proof.
  intros Hfile Hdir Hmk Hcp Hwr.
  pose proof (@backup_path_differs path) as Hne.
  rewrite finalize_update_unfold. unfold when at 1.
  rewrite create_backup_unfold.
  rewrite (makedirs_ok w (backup_dir_of path) (count_update n st))
    by assumption.
  rewrite (copyfile_ok w path (backup_path_of path) (content := original));
    [|exact Hcp | simpl; rewrite files_add_dir; exact Hfile].
  destruct verbose; unfold when, print, modify, ret;
    rewrite write_file_unfold; cbv zeta; simpl io_made; rewrite Hwr;
    eexists; (split; [reflexivity|]); simpl;
    rewrite !file_get_put_same;
    (rewrite !file_get_put_other by congruence);
    rewrite file_get_put_same;
    repeat split; try apply in_add_dir;
    rewrite <- !app_assoc; reflexivity.
Qed.
End Backup.



(** ** What the steps of an update leave alone *)

Lemma keeps_file_of_fs (A : Type) q (c : M A) :
  keeps fs c -> keeps (file_at q) c.
Proof. intros H st. unfold file_at. rewrite (H st). reflexivity. Qed.

Section Frame.
Variable w : World.
Variable q : str.

Lemma write_file_keeps_other path lines verbose :
  path <> q -> keeps (file_at q) (write_file w path lines verbose).
Proof.
  intros Hne st. rewrite write_file_unfold. cbv zeta.
  destruct (io w (io_made st) (OpWrite path)) as [|[k|]|k|k];
    destruct verbose; unfold file_at; simpl;
    rewrite ?file_get_put_other by exact Hne; reflexivity.
Qed.

Lemma copyfile_keeps_other src dst :
  dst <> q -> keeps (file_at q) (copyfile w src dst).
Proof.
  intros Hne st. unfold copyfile, io_call, bind, gets, modify, raise. simpl.
  destruct (file_get src (files (fs st))) as [content|]; [|reflexivity].
  destruct (io w (io_made st) (OpCopy src dst)) as [|[k|]|k|k]; simpl;
    unfold file_at; simpl;
    first [reflexivity | apply file_get_put_other; exact Hne].
Qed.

Lemma makedirs_keeps_files dir : keeps (file_at q) (makedirs w dir).
Proof.
  intros st. unfold makedirs, io_call, bind, gets, modify, raise.
  destruct (io w (io_made st) (OpMakeDirs dir)); try reflexivity. simpl.
  destruct (file_get dir (files (fs st))); [reflexivity|]. simpl.
  unfold file_at. simpl. rewrite files_add_dir. reflexivity.
Qed.

Lemma print_keeps_file m : keeps (file_at q) (print m).
Proof. intros st. reflexivity. Qed.

Lemma create_backup_keeps_other path verbose :
  backup_path_of path <> q ->
  keeps (file_at q) (create_backup w path verbose).
Proof.
  intros Hne. unfold create_backup. cbv zeta.
  change (join (dirname path) (lit "backups")) with (backup_dir_of path).
  change (join (backup_dir_of path) (basename path))
    with (backup_path_of path).
  apply keeps_except; [|apply print_keeps_file].
  apply keeps_bind; [apply makedirs_keeps_files | intros _].
  apply keeps_bind; [apply copyfile_keeps_other; exact Hne | intros _].
  apply keeps_when, print_keeps_file.
Qed.
End Frame.

(** ** I/O failures (C3) *)

Section Failures.
Variable w : World.

(** No I/O failure leaves the file updater as an [OSError]. *)
Lemma update_action_version_absorbs path tok dry backup verbose st :
  snd (update_action_version w path tok dry backup verbose st)
  <> Raise OSError.
Proof.
  rewrite update_action_version_unfold.
  destruct (read_file w path st) as [sr [lines|e]];
    [|destruct e; discriminate].
  destruct (for_lines w lines tok dry verbose [] false 0 sr)
    as [sl [[[u c] n]|e]]; [|destruct e; discriminate].
  pose proof (finalize_update_absorbs w path u c n dry backup verbose sl) as H.
  destruct (finalize_update w path u c n dry backup verbose sl) as [sf r].
  simpl in H. destruct r as [[]|e]; [discriminate|].
  destruct e; discriminate.
Qed.

(** A failed read: one diagnostic, nothing else changes. *)
Lemma update_action_version_read_fails path tok dry backup verbose st :
  (exists x, io w (io_made st) (OpRead path) = IoFail x)
  \/ file_get path (files (fs st)) = None ->
  update_action_version w path tok dry backup verbose st
  = (log (Print (MsgErrorProcessing path)) (count_io st), Ok tt).
Proof.
  intros H. rewrite update_action_version_unfold.
  assert (Hr : read_file w path st = (count_io st, Raise OSError)).
  { destruct H as [[x H] | H];
      [exact (read_file_fails w path st H) | exact (read_file_missing w path st H)]. }
  rewrite Hr. reflexivity.
Qed.

(** ... and the orchestrator goes on with the next file. *)
Lemma for_files_after_failed_read path rest tok dry backup verbose st :
  (exists x, io w (io_made st) (OpRead path) = IoFail x)
  \/ file_get path (files (fs st)) = None ->
  for_files w (path :: rest) tok dry backup verbose st
  = for_files w rest tok dry backup verbose
      (log (Print (MsgErrorProcessing path))
         (count_io
            (count_file
               (if verbose then log (Print (MsgChecking path)) st else st)))).
Proof.
  intros H. simpl for_files.
  unfold bind at 1. unfold bind at 1. unfold bind at 1.
  destruct verbose; simpl when; unfold print, modify, ret;
    cbv beta iota;
    rewrite (@update_action_version_read_fails path tok dry backup _ _)
      by exact H; reflexivity.
Qed.

(** A file that is no UTF-8 ends the run. *)
Lemma update_action_version_undecodable path tok dry backup verbose st k
  content :
  io w (io_made st) (OpRead path) = IoUnicodeError k ->
  file_get path (files (fs st)) = Some content ->
  update_action_version w path tok dry backup verbose st
  = (count_io st, Raise UnicodeDecodeError).
Proof.
  intros H Hf. rewrite update_action_version_unfold.
  rewrite (read_file_undecodable w path st H Hf). reflexivity.
Qed.

Lemma for_files_undecodable path rest tok dry backup verbose st k content :
  io w (io_made st) (OpRead path) = IoUnicodeError k ->
  file_get path (files (fs st)) = Some content ->
  snd (for_files w (path :: rest) tok dry backup verbose st)
  = Raise UnicodeDecodeError.
Proof.
  intros H Hf. simpl for_files.
  unfold bind at 1. unfold bind at 1. unfold bind at 1.
  destruct verbose; simpl when; unfold print, modify, ret;
    cbv beta iota;
    rewrite (@update_action_version_undecodable path tok dry backup _ _ k
               content) by assumption; reflexivity.
Qed.

(** The backup leaves the file itself as it was. *)
Lemma create_backup_keeps_file path verbose st :
  file_get path (files (fs (fst (create_backup w path verbose st))))
  = file_get path (files (fs st)).
Proof.
  exact (@create_backup_keeps_other w path path verbose
           (@backup_path_differs path) st).
Qed.

Lemma backup_step_returns path backup verbose st :
  snd (when backup (create_backup w path verbose) st) = Ok tt.
Proof. destruct backup; [apply create_backup_returns | reflexivity]. Qed.

Lemma backup_step_keeps_file path backup verbose st :
  file_get path
    (files (fs (fst (when backup (create_backup w path verbose) st))))
  = file_get path (files (fs st)).
Proof. destruct backup; [apply create_backup_keeps_file | reflexivity]. Qed.

(** A backup that fails does not stop the write. *)
Lemma finalize_update_backup_dir_fails path lines n verbose st x :
  io w (io_made st) (OpMakeDirs (backup_dir_of path)) = IoFail x ->
  io w (S (io_made st)) (OpWrite path) = IoOk ->
  exists st',
    finalize_update w path lines true n false true verbose st = (st', Ok tt)
    /\ file_get path (files (fs st')) = Some (List.concat lines)
    /\ trace st'
       = trace st ++ [Print (MsgErrorBackup path)]
         ++ (if verbose then [Print (MsgUpdatedFile path)] else [])
         ++ [Wrote path].
Proof.
  intros Hmk Hwr.
  rewrite finalize_update_unfold. unfold when at 1.
  rewrite create_backup_unfold.
  rewrite (makedirs_fails w (backup_dir_of path) (count_update n st) Hmk).
  unfold print at 1, modify at 1.
  rewrite write_file_unfold. cbv zeta. simpl io_made. rewrite Hwr.
  destruct verbose;
    eexists; (split; [reflexivity|]); simpl;
    rewrite file_get_put_same; (split; [reflexivity|]);
    rewrite <- !app_assoc; reflexivity.
Qed.

Lemma finalize_update_copy_fails path lines n verbose st x original :
  file_get path (files (fs st)) = Some original ->
  file_get (backup_dir_of path) (files (fs st)) = None ->
  io w (io_made st) (OpMakeDirs (backup_dir_of path)) = IoOk ->
  io w (S (io_made st)) (OpCopy path (backup_path_of path)) = IoFail x ->
  io w (S (S (io_made st))) (OpWrite path) = IoOk ->
  exists st',
    finalize_update w path lines true n false true verbose st = (st', Ok tt)
    /\ file_get path (files (fs st')) = Some (List.concat lines)
    /\ file_get (backup_path_of path) (files (fs st'))
       = match x with
         | None => file_get (backup_path_of path) (files (fs st))
         | Some k => Some (firstn k original)
         end
    /\ trace st'
       = trace st
         ++ [MadeDirs (backup_dir_of path); Print (MsgErrorBackup path)]
         ++ (if verbose then [Print (MsgUpdatedFile path)] else [])
         ++ [Wrote path].
Proof.
  intros Hfile Hdir Hmk Hcp Hwr.
  pose proof (@backup_path_differs path) as Hne.
  rewrite finalize_update_unfold. unfold when at 1.
  rewrite create_backup_unfold.
  rewrite (makedirs_ok w (backup_dir_of path) (count_update n st))
    by assumption.
  rewrite (@copyfile_fails w path (backup_path_of path) _ x original);
    [|exact Hcp | simpl; rewrite files_add_dir; exact Hfile].
  unfold print at 1, modify at 1.
  rewrite write_file_unfold. cbv zeta.
  destruct x as [k|]; simpl io_made; rewrite Hwr;
    destruct verbose;
    eexists; (split; [reflexivity|]); simpl;
    rewrite !file_get_put_same;
    (rewrite !file_get_put_other by congruence);
    rewrite ?file_get_put_same, ?files_add_dir;
    repeat split; rewrite <- !app_assoc; reflexivity.
Qed.

(** The state in which the file is opened for writing. *)
Lemma finalize_update_at_write path lines n backup verbose st :
  let sb := fst (when backup (create_backup w path verbose)
                   (count_update n st)) in
  finalize_update w path lines true n false backup verbose st
  = match write_file w path lines verbose sb with
    | (sw, Raise OSError) => print (MsgErrorWriting path) sw
    | out => out
    end.
Proof.
  cbv zeta. rewrite finalize_update_unfold.
  pose proof (backup_step_returns path backup verbose (count_update n st))
    as Hb.
  destruct (when backup (create_backup w path verbose) (count_update n st))
    as [sb r]. simpl in Hb. subst r. reflexivity.
Qed.

(** A write that fails is reported and absorbed; the file is as it was
    only if it could not be opened. *)
Lemma finalize_update_write_fails path lines n backup verbose st x :
  let sb := fst (when backup (create_backup w path verbose)
                   (count_update n st)) in
  io w (io_made sb) (OpWrite path) = IoFail x ->
  exists st',
    finalize_update w path lines true n false backup verbose st = (st', Ok tt)
    /\ trace st' = trace sb ++ [Print (MsgErrorWriting path)]
    /\ file_get path (files (fs st'))
       = match x with
         | None => file_get path (files (fs st))
         | Some k => Some (firstn k (List.concat lines))
         end.
Proof.
  intros sb Hwr.
  rewrite finalize_update_at_write. fold sb.
  rewrite write_file_unfold. cbv zeta. rewrite Hwr.
  destruct x as [k|]; unfold print, modify;
    eexists; (split; [reflexivity|]); simpl;
    (split; [reflexivity|]).
  - apply file_get_put_same.
  - unfold sb. rewrite backup_step_keeps_file. reflexivity.
Qed.

(** A write that fails when the file is closed: [Updated file] has been
    printed by then. *)
Lemma finalize_update_close_fails path lines n backup verbose st k :
  let sb := fst (when backup (create_backup w path verbose)
                   (count_update n st)) in
  io w (io_made sb) (OpWrite path) = IoFailAtClose k ->
  exists st',
    finalize_update w path lines true n false backup verbose st = (st', Ok tt)
    /\ trace st'
       = trace sb
         ++ (if verbose then [Print (MsgUpdatedFile path)] else [])
         ++ [Print (MsgErrorWriting path)]
    /\ file_get path (files (fs st')) = Some (firstn k (List.concat lines)).
Proof.
  intros sb Hwr.
  rewrite finalize_update_at_write. fold sb.
  rewrite write_file_unfold. cbv zeta. rewrite Hwr.
  destruct verbose; unfold print, modify;
    eexists; (split; [reflexivity|]); simpl;
    rewrite file_get_put_same; (split; [|reflexivity]);
    rewrite <- ?app_assoc; reflexivity.
Qed.

(** Text that cannot be encoded: the exception is no [OSError] and is not
    caught. *)
Lemma finalize_update_encode_fails path lines n backup verbose st k :
  let sb := fst (when backup (create_backup w path verbose)
                   (count_update n st)) in
  io w (io_made sb) (OpWrite path) = IoUnicodeError k ->
  exists st',
    finalize_update w path lines true n false backup verbose st
    = (st', Raise UnicodeEncodeError)
    /\ trace st' = trace sb
    /\ file_get path (files (fs st')) = Some (firstn k (List.concat lines)).
Proof.
  intros sb Hwr.
  rewrite finalize_update_at_write. fold sb.
  rewrite write_file_unfold. cbv zeta. rewrite Hwr.
  eexists. split; [reflexivity|]. simpl.
  rewrite file_get_put_same. split; reflexivity.
Qed.
End Failures.




(** ** The matcher *)

Section Repetition.
Variable R : Type.
Variable c : ascii -> bool.

(** The longest run wins when what follows it matches. *)
Lemma star_greedy (k : str -> str -> option R) run rest r :
  forallb c run = true -> starts_outside c rest = true ->
  k run rest = Some r ->
  star c k (run ++ rest) = Some r.
Proof.
  revert k. induction run as [|x run IH]; intros k Hrun Hrest Hk; simpl.
  - destruct rest as [|y rest]; [exact Hk|].
    simpl in Hrest. apply negb_true_iff in Hrest. simpl. rewrite Hrest.
    exact Hk.
  - simpl in Hrun. apply andb_true_iff in Hrun. destruct Hrun as [Hx Hrun].
    rewrite Hx.
    rewrite (IH (fun run0 rest0 => k (x :: run0) rest0) Hrun Hrest Hk).
    reflexivity.
Qed.

(** There is no match when what follows fails after every cut of the
    run. *)
Lemma star_fails (k : str -> str -> option R) run rest :
  forallb c run = true -> starts_outside c rest = true ->
  (forall a b, run = a ++ b -> k a (b ++ rest) = None) ->
  star c k (run ++ rest) = None.
Proof.
  revert k. induction run as [|x run IH]; intros k Hrun Hrest Hk; simpl.
  - specialize (Hk [] [] eq_refl). simpl in Hk.
    destruct rest as [|y rest]; [exact Hk|].
    simpl in Hrest. apply negb_true_iff in Hrest. simpl. rewrite Hrest.
    exact Hk.
  - simpl in Hrun. apply andb_true_iff in Hrun. destruct Hrun as [Hx Hrun].
    rewrite Hx.
    rewrite (IH (fun run0 rest0 => k (x :: run0) rest0) Hrun Hrest).
    + apply (Hk [] (x :: run)). reflexivity.
    + intros a b E. apply (Hk (x :: a) b). simpl. congruence.
Qed.

Lemma plus_greedy (k : str -> str -> option R) run rest r :
  nonempty run = true ->
  forallb c run = true -> starts_outside c rest = true ->
  k run rest = Some r ->
  plus c k (run ++ rest) = Some r.
Proof.
  intros Hne Hrun Hrest Hk. destruct run as [|x run]; [discriminate|].
  simpl in *. apply andb_true_iff in Hrun. destruct Hrun as [Hx Hrun].
  rewrite Hx.
  apply (star_greedy (fun run0 rest0 => k (x :: run0) rest0)); assumption.
Qed.

Lemma plus_fails (k : str -> str -> option R) run rest :
  forallb c run = true -> starts_outside c rest = true ->
  (forall a b, a <> [] -> run = a ++ b -> k a (b ++ rest) = None) ->
  plus c k (run ++ rest) = None.
Proof.
  intros Hrun Hrest Hk. destruct run as [|x run]; simpl.
  - destruct rest as [|y rest]; [reflexivity|].
    simpl in Hrest. apply negb_true_iff in Hrest. simpl. rewrite Hrest.
    reflexivity.
  - simpl in Hrun. apply andb_true_iff in Hrun. destruct Hrun as [Hx Hrun].
    rewrite Hx.
    apply (star_fails (fun run0 rest0 => k (x :: run0) rest0));
      [assumption | assumption |].
    intros a b E. apply (Hk (x :: a) b); [discriminate | simpl; congruence].
Qed.
End Repetition.

Lemma strip_prefix_app l s : strip_prefix l (l ++ s) = Some s.
Proof.
  induction l as [|x l IH]; simpl; [reflexivity|].
  rewrite Ascii.eqb_refl. exact IH.
Qed.

Lemma match_here_lit l p s : match_here (Lit l :: p) (l ++ s) = match_here p s.
Proof. simpl. rewrite strip_prefix_app. reflexivity. Qed.

Lemma match_here_lit_rejects x l p y s :
  Ascii.eqb x y = false -> match_here (Lit (x :: l) :: p) (y :: s) = None.
Proof. intros H. simpl. rewrite H. reflexivity. Qed.

Lemma match_here_plus_rejects c p y s :
  c y = false -> match_here (Plus c :: p) (y :: s) = None.
Proof. intros H. simpl. rewrite H. reflexivity. Qed.

Lemma match_here_grp_rejects c p y s :
  c y = false -> match_here (Grp c :: p) (y :: s) = None.
Proof. intros H. simpl. rewrite H. reflexivity. Qed.

Lemma match_here_plus_greedy c p run rest r :
  nonempty run = true -> forallb c run = true ->
  starts_outside c rest = true ->
  match_here p rest = Some r ->
  match_here (Plus c :: p) (run ++ rest) = Some r.
Proof.
  intros Hne Hrun Hrest Hp.
  change (match_here (Plus c :: p) (run ++ rest))
    with (plus c (fun _ rest0 => match_here p rest0) (run ++ rest)).
  apply plus_greedy; assumption.
Qed.

Lemma match_here_star_greedy c p run rest r :
  forallb c run = true -> starts_outside c rest = true ->
  match_here p rest = Some r ->
  match_here (Star c :: p) (run ++ rest) = Some r.
Proof.
  intros Hrun Hrest Hp.
  change (match_here (Star c :: p) (run ++ rest))
    with (star c (fun _ rest0 => match_here p rest0) (run ++ rest)).
  apply star_greedy; assumption.
Qed.

Lemma match_here_grp_greedy c p run rest gs e :
  nonempty run = true -> forallb c run = true ->
  starts_outside c rest = true ->
  match_here p rest = Some (gs, e) ->
  match_here (Grp c :: p) (run ++ rest) = Some (run :: gs, e).
Proof.
  intros Hne Hrun Hrest Hp.
  change (match_here (Grp c :: p) (run ++ rest))
    with (plus c (fun g rest0 =>
                    match match_here p rest0 with
                    | Some (gs0, e0) => Some (g :: gs0, e0)
                    | None => None
                    end) (run ++ rest)).
  apply plus_greedy; try assumption. rewrite Hp. reflexivity.
Qed.

(** A cut of a run leaves a first character of the class. *)
Lemma cut_head c (run a b : str) :
  forallb c run = true -> run = a ++ b ->
  b = [] \/ exists y b', b = y :: b' /\ c y = true.
Proof.
  intros Hrun E. destruct b as [|y b']; [left; reflexivity|].
  right. exists y, b'. split; [reflexivity|].
  subst run. rewrite forallb_app in Hrun.
  apply andb_true_iff in Hrun. destruct Hrun as [_ Hb]. simpl in Hb.
  apply andb_true_iff in Hb. tauto.
Qed.

Lemma match_here_plus_fails c p run rest :
  forallb c run = true -> starts_outside c rest = true ->
  (forall y s, c y = true -> match_here p (y :: s) = None) ->
  match_here p rest = None ->
  match_here (Plus c :: p) (run ++ rest) = None.
Proof.
  intros Hrun Hrest Hrej Hp.
  change (match_here (Plus c :: p) (run ++ rest))
    with (plus c (fun _ rest0 => match_here p rest0) (run ++ rest)).
  apply plus_fails; try assumption.
  intros a b _ E.
  destruct (cut_head c a b Hrun E) as [-> | [y [b' [-> Hy]]]];
    [exact Hp | apply Hrej; exact Hy].
Qed.

Lemma match_here_star_fails c p run rest :
  forallb c run = true -> starts_outside c rest = true ->
  (forall y s, c y = true -> match_here p (y :: s) = None) ->
  match_here p rest = None ->
  match_here (Star c :: p) (run ++ rest) = None.
Proof.
  intros Hrun Hrest Hrej Hp.
  change (match_here (Star c :: p) (run ++ rest))
    with (star c (fun _ rest0 => match_here p rest0) (run ++ rest)).
  apply star_fails; try assumption.
  intros a b E.
  destruct (cut_head c a b Hrun E) as [-> | [y [b' [-> Hy]]]];
    [exact Hp | apply Hrej; exact Hy].
Qed.

Lemma match_here_grp_fails c p run rest :
  forallb c run = true -> starts_outside c rest = true ->
  (forall y s, c y = true -> match_here p (y :: s) = None) ->
  match_here p rest = None ->
  match_here (Grp c :: p) (run ++ rest) = None.
Proof.
  intros Hrun Hrest Hrej Hp.
  change (match_here (Grp c :: p) (run ++ rest))
    with (plus c (fun g rest0 =>
                    match match_here p rest0 with
                    | Some (gs0, e0) => Some (g :: gs0, e0)
                    | None => None
                    end) (run ++ rest)).
  apply plus_fails; try assumption.
  intros a b _ E.
  destruct (cut_head c a b Hrun E) as [-> | [y [b' [-> Hy]]]].
  - simpl. rewrite Hp. reflexivity.
  - simpl app. rewrite (Hrej y _ Hy). reflexivity.
Qed.

(** *** The character classes of the reference pattern *)

Ltac by_cases_on_ascii :=
  let y := fresh "y" in
  intros y;
  destruct y as [[|] [|] [|] [|] [|] [|] [|] [|]];
  vm_compute; intros; first [reflexivity | discriminate | congruence].

Lemma space_not_word_dash : forall y, is_space y = true -> is_word_dash y = false.
Proof. by_cases_on_ascii. Qed.

Lemma word_dash_not_slash : forall y, is_word_dash y = true -> Ascii.eqb "/" y = false.
Proof. by_cases_on_ascii. Qed.

Lemma word_dash_not_at : forall y, is_word_dash y = true -> Ascii.eqb "@" y = false.
Proof. by_cases_on_ascii. Qed.

Lemma hex_not_space : forall y, is_hex y = true -> is_space y = false.
Proof. by_cases_on_ascii. Qed.

Lemma space_not_hash : forall y, is_space y = true -> Ascii.eqb "#" y = false.
Proof. by_cases_on_ascii. Qed.

Lemma space_not_v : forall y, is_space y = true -> Ascii.eqb "v" y = false.
Proof. by_cases_on_ascii. Qed.

Lemma space_not_digit_dot : forall y, is_space y = true -> is_digit_dot y = false.
Proof. by_cases_on_ascii. Qed.

Lemma word_dash_not_space : forall y, is_word_dash y = true -> is_space y = false.
Proof. by_cases_on_ascii. Qed.

Lemma space_not_hex : forall y, is_space y = true -> is_hex y = false.
Proof. by_cases_on_ascii. Qed.

Lemma starts_outside_run (c d : ascii -> bool) run rest :
  nonempty run = true -> forallb d run = true ->
  (forall y, d y = true -> c y = false) ->
  starts_outside c (run ++ rest) = true.
Proof.
  intros Hne Hrun Hcd. destruct run as [|x run]; [discriminate|].
  simpl in *. apply andb_true_iff in Hrun. destruct Hrun as [Hx _].
  rewrite (Hcd x Hx). reflexivity.
Qed.

Lemma without_app x a b : without x (a ++ b) = without x a && without x b.
Proof. unfold without. apply forallb_app. Qed.

Lemma without_class (c : ascii -> bool) x s :
  (forall y, c y = true -> negb (is_char x y) = true) ->
  forallb c s = true -> without x s = true.
Proof.
  intros Hc Hs. unfold without. rewrite forallb_forall in *.
  intros y Hy. apply Hc, Hs, Hy.
Qed.

Lemma match_here_opt_skips x p y s :
  Ascii.eqb x y = false ->
  match_here (Opt x :: p) (y :: s) = match_here p (y :: s).
Proof.
  intros H.
  change (match_here (Opt x :: p) (y :: s))
    with (if Ascii.eqb x y
          then match match_here p s with
               | Some r => Some r
               | None => match_here p (y :: s)
               end
          else match_here p (y :: s)).
  rewrite H. reflexivity.
Qed.

Lemma match_here_opt_takes x p s r :
  match_here p s = Some r -> match_here (Opt x :: p) (x :: s) = Some r.
Proof.
  intros H.
  change (match_here (Opt x :: p) (x :: s))
    with (if Ascii.eqb x x
          then match match_here p s with
               | Some r => Some r
               | None => match_here p (x :: s)
               end
          else match_here p (x :: s)).
  rewrite Ascii.eqb_refl, H. reflexivity.
Qed.

(** *** Searching a line *)

Lemma re_search_step p x s :
  match_here p (x :: s) = None ->
  re_search p (x :: s)
  = match re_search p s with
    | Some (pre, gs, e) => Some (x :: pre, gs, e)
    | None => None
    end.
Proof. intros H. simpl re_search. rewrite H. reflexivity. Qed.

Lemma re_search_here p s gs e :
  match_here p s = Some (gs, e) -> re_search p s = Some ([], gs, e).
Proof. intros H. destruct s; simpl; rewrite H; reflexivity. Qed.

(** No match starts at a character that is not [u]. *)
Lemma re_search_skips pre s :
  without "u" pre = true ->
  re_search uses_re (pre ++ s)
  = match re_search uses_re s with
    | Some (pre', gs, e) => Some (pre ++ pre', gs, e)
    | None => None
    end.
Proof.
  induction pre as [|x pre IH]; intros H.
  - simpl. destruct (re_search uses_re s) as [[[pre' gs] e]|]; reflexivity.
  - simpl in H. apply andb_true_iff in H. destruct H as [Hx Hpre].
    apply negb_true_iff in Hx.
    simpl app. rewrite re_search_step.
    + rewrite (IH Hpre).
      destruct (re_search uses_re s) as [[[pre' gs] e]|]; reflexivity.
    + apply match_here_lit_rejects. exact Hx.
Qed.

Lemma strip_prefix_some l s r : strip_prefix l s = Some r -> s = l ++ r.
Proof.
  revert s. induction l as [|x l IH]; intros s H; simpl in H.
  - inversion H. reflexivity.
  - destruct s as [|y s]; [discriminate|].
    destruct (Ascii.eqb x y) eqn:E; [|discriminate].
    apply Ascii.eqb_eq in E. subst y. rewrite (IH s H). reflexivity.
Qed.

Lemma match_here_lit_unfold l p s :
  match_here (Lit l :: p) s
  = match strip_prefix l s with
    | Some s' => match_here p s'
    | None => None
    end.
Proof. reflexivity. Qed.

Lemma digit_dot_not_space : forall y, is_digit_dot y = true -> is_space y = false.
Proof. by_cases_on_ascii. Qed.

Lemma digit_dot_not_v : forall y, is_digit_dot y = true -> Ascii.eqb "v" y = false.
Proof. by_cases_on_ascii. Qed.

Lemma match_here_opt_skips_run (c : ascii -> bool) x p run rest :
  nonempty run = true -> forallb c run = true ->
  (forall y, c y = true -> Ascii.eqb x y = false) ->
  match_here (Opt x :: p) (run ++ rest) = match_here p (run ++ rest).
Proof.
  intros Hne Hrun Hc. destruct run as [|y run]; [discriminate|].
  simpl in Hrun. apply andb_true_iff in Hrun. destruct Hrun as [Hy _].
  simpl app. apply match_here_opt_skips, Hc, Hy.
Qed.

(** *** The places at which a text starts *)

Lemma count_of_cons l y s :
  count_of l (y :: s)
  = match strip_prefix l (y :: s) with Some _ => 1 | None => 0 end
    + count_of l s.
Proof. reflexivity. Qed.

Lemma count_of_at_least l a b : 1 <= count_of l (a ++ l ++ b).
Proof.
  induction a as [|y a IH].
  - simpl app. destruct (l ++ b) as [|z r] eqn:E.
    + simpl. rewrite <- E, strip_prefix_app. simpl. lia.
    + rewrite count_of_cons, <- E, strip_prefix_app. lia.
  - simpl app. rewrite count_of_cons. lia.
Qed.

Lemma match_here_lit_none l p s :
  strip_prefix l s = None -> match_here (Lit l :: p) s = None.
Proof. intros H. rewrite match_here_lit_unfold, H. reflexivity. Qed.

(** A text in which the literal starts nowhere holds no match. *)
Lemma re_search_count_0 l p s :
  count_of l s = 0 -> re_search (Lit l :: p) s = None.
Proof.
  induction s as [|y s IH]; intros H.
  - simpl in *. destruct (strip_prefix l []); [discriminate | reflexivity].
  - rewrite count_of_cons in H.
    destruct (strip_prefix l (y :: s)) eqn:E; [discriminate|].
    rewrite re_search_step by (apply match_here_lit_none; exact E).
    rewrite IH by exact H. reflexivity.
Qed.

(** A text in which the literal starts at one place only: the match is
    there or nowhere. *)
Lemma re_search_single x l p pre tail :
  count_of (x :: l) (pre ++ (x :: l) ++ tail) = 1 ->
  re_search (Lit (x :: l) :: p) (pre ++ (x :: l) ++ tail)
  = match match_here (Lit (x :: l) :: p) ((x :: l) ++ tail) with
    | Some (gs, e) => Some (pre, gs, e)
    | None => None
    end.
Proof.
  induction pre as [|y pre IH]; intros H.
  - simpl app in *. rewrite count_of_cons in H.
    change (x :: l ++ tail) with ((x :: l) ++ tail) in H at 1.
    rewrite strip_prefix_app in H.
    assert (H0 : count_of (x :: l) (l ++ tail) = 0) by lia.
    destruct (match_here (Lit (x :: l) :: p) (x :: l ++ tail))
      as [[gs e]|] eqn:E.
    + apply re_search_here. exact E.
    + rewrite re_search_step by exact E.
      rewrite (re_search_count_0 _ p _ H0). reflexivity.
  - change ((y :: pre) ++ (x :: l) ++ tail)
      with (y :: (pre ++ (x :: l) ++ tail)) in H |- *.
    rewrite count_of_cons in H.
    pose proof (count_of_at_least (x :: l) pre tail) as Hge.
    destruct (strip_prefix (x :: l) (y :: pre ++ (x :: l) ++ tail)) eqn:E;
      [lia|].
    rewrite re_search_step by (apply match_here_lit_none; exact E).
    rewrite IH by exact H.
    destruct (match_here (Lit (x :: l) :: p) ((x :: l) ++ tail))
      as [[gs e]|]; reflexivity.
Qed.

(** A character that the literal does not hold may be changed for
    another. *)
Lemma strip_prefix_swap x y b l :
  without x l = true -> without y l = true ->
  forall a,
    match strip_prefix l (a ++ x :: b) with Some _ => 1 | None => 0 end
    = match strip_prefix l (a ++ y :: b) with Some _ => 1 | None => 0 end.
Proof.
  induction l as [|c l IH]; intros Hx Hy a; [reflexivity|].
  simpl in Hx, Hy.
  apply andb_true_iff in Hx. destruct Hx as [Hcx Hx].
  apply andb_true_iff in Hy. destruct Hy as [Hcy Hy].
  apply negb_true_iff in Hcx. apply negb_true_iff in Hcy.
  unfold is_char in Hcx, Hcy.
  destruct a as [|z a]; simpl.
  - rewrite (Ascii.eqb_sym c x), (Ascii.eqb_sym c y), Hcx, Hcy. reflexivity.
  - destruct (Ascii.eqb c z); [apply IH; assumption | reflexivity].
Qed.

Lemma count_of_swap x y l a b :
  without x l = true -> without y l = true ->
  count_of l (a ++ x :: b) = count_of l (a ++ y :: b).
Proof.
  intros Hx Hy. induction a as [|z a IH].
  - pose proof (strip_prefix_swap x y b l Hx Hy []) as E.
    simpl app in *. rewrite !count_of_cons, E. reflexivity.
  - pose proof (strip_prefix_swap x y b l Hx Hy (z :: a)) as E.
    simpl app in *. rewrite !count_of_cons, E, IH. reflexivity.
Qed.

Section Reference.
Variables ws1 owner repo sha ws2 ws3 ver post : str.
Hypothesis shape :
  reference_shape ws1 owner repo sha ws2 ws3 ver post = true.

Ltac split_parts :=
  unfold reference_shape in shape;
  repeat match goal with
    | H : _ && _ = true |- _ =>
        apply andb_true_iff in H; destruct H
    end.

(** With a lower-case [v] or none the reference is found, with its four
    parts. *)
Lemma match_here_shape v :
  v = [] \/ v = lit "v" ->
  match_here uses_re
    (lit "uses:" ++ ws1 ++ owner ++ lit "/" ++ repo ++ lit "@" ++ sha
       ++ ws2 ++ lit "#" ++ ws3 ++ v ++ ver ++ post)
  = Some ([owner; repo; sha; ver], post).
Proof.
  intros prefix. split_parts.
  unfold uses_re. rewrite match_here_lit.
  apply match_here_plus_greedy; try assumption.
  { apply (starts_outside_run is_space is_word_dash); try assumption.
    apply word_dash_not_space. }
  apply match_here_grp_greedy; try assumption; [reflexivity|].
  rewrite match_here_lit.
  apply match_here_grp_greedy; try assumption; [reflexivity|].
  rewrite match_here_lit.
  apply match_here_grp_greedy; try assumption.
  { apply (starts_outside_run is_hex is_space); try assumption.
    apply space_not_hex. }
  apply match_here_plus_greedy; try assumption; [reflexivity|].
  rewrite match_here_lit.
  destruct prefix as [-> | ->].
  - simpl app at 1.
    apply match_here_star_greedy; try assumption.
    { apply (starts_outside_run is_space is_digit_dot); try assumption.
      apply digit_dot_not_space. }
    rewrite (match_here_opt_skips_run is_digit_dot "v");
      try assumption; [|apply digit_dot_not_v].
    apply (match_here_grp_greedy is_digit_dot [] ver post (gs := []));
      try assumption; reflexivity.
  - apply match_here_star_greedy; try assumption; [reflexivity|].
    change (lit "v" ++ ver ++ post) with ("v"%char :: ver ++ post).
    apply match_here_opt_takes.
    apply (match_here_grp_greedy is_digit_dot [] ver post (gs := []));
      try assumption; reflexivity.
Qed.

(** With an upper-case [V] nothing matches where the reference starts. *)
Lemma match_here_upper :
  match_here uses_re
    (lit "uses:" ++ ws1 ++ owner ++ lit "/" ++ repo ++ lit "@" ++ sha
       ++ ws2 ++ lit "#" ++ ws3 ++ lit "V" ++ ver ++ post)
  = None.
Proof.
  split_parts. unfold uses_re.
  rewrite match_here_lit.
  apply match_here_plus_fails; try assumption.
  { apply (starts_outside_run is_space is_word_dash); try assumption.
    apply word_dash_not_space. }
  { intros y s Hy. apply match_here_grp_rejects, space_not_word_dash, Hy. }
  apply match_here_grp_fails; try assumption; [reflexivity | |].
  { intros y s Hy. apply match_here_lit_rejects, word_dash_not_slash, Hy. }
  rewrite match_here_lit.
  apply match_here_grp_fails; try assumption; [reflexivity | |].
  { intros y s Hy. apply match_here_lit_rejects, word_dash_not_at, Hy. }
  rewrite match_here_lit.
  apply match_here_grp_fails; try assumption.
  { apply (starts_outside_run is_hex is_space); try assumption.
    apply space_not_hex. }
  { intros y s Hy. apply match_here_plus_rejects, hex_not_space, Hy. }
  apply match_here_plus_fails; try assumption; [reflexivity | |].
  { intros y s Hy. apply match_here_lit_rejects, space_not_hash, Hy. }
  rewrite match_here_lit.
  apply match_here_star_fails; try assumption; [reflexivity | |].
  { intros y s Hy.
    rewrite match_here_opt_skips by (apply space_not_v, Hy).
    apply match_here_grp_rejects, space_not_digit_dot, Hy. }
  reflexivity.
Qed.

(** The line holds [uses:] as often with [V] as with [v]. *)
Lemma count_of_uses_upper pre :
  count_of (lit "uses:")
    (reference_line pre ws1 owner repo sha ws2 ws3 (lit "V") ver post)
  = count_of (lit "uses:")
      (reference_line pre ws1 owner repo sha ws2 ws3 (lit "v") ver post).
Proof.
  unfold reference_line.
  replace (pre ++ lit "uses:" ++ ws1 ++ owner ++ lit "/" ++ repo ++ lit "@"
               ++ sha ++ ws2 ++ lit "#" ++ ws3 ++ lit "V" ++ ver ++ post)
    with ((pre ++ lit "uses:" ++ ws1 ++ owner ++ lit "/" ++ repo ++ lit "@"
               ++ sha ++ ws2 ++ lit "#" ++ ws3) ++ "V"%char :: ver ++ post)
    by (rewrite <- !app_assoc; reflexivity).
  replace (pre ++ lit "uses:" ++ ws1 ++ owner ++ lit "/" ++ repo ++ lit "@"
               ++ sha ++ ws2 ++ lit "#" ++ ws3 ++ lit "v" ++ ver ++ post)
    with ((pre ++ lit "uses:" ++ ws1 ++ owner ++ lit "/" ++ repo ++ lit "@"
               ++ sha ++ ws2 ++ lit "#" ++ ws3) ++ "v"%char :: ver ++ post)
    by (rewrite <- !app_assoc; reflexivity).
  apply count_of_swap; reflexivity.
Qed.

(** On a line with one [uses:] the match is at the reference or nowhere. *)
Lemma re_search_at_reference pre v :
  count_of (lit "uses:")
    (reference_line pre ws1 owner repo sha ws2 ws3 v ver post) = 1 ->
  re_search uses_re (reference_line pre ws1 owner repo sha ws2 ws3 v ver post)
  = match match_here uses_re
            (lit "uses:" ++ ws1 ++ owner ++ lit "/" ++ repo ++ lit "@" ++ sha
               ++ ws2 ++ lit "#" ++ ws3 ++ v ++ ver ++ post) with
    | Some (gs, e) => Some (pre, gs, e)
    | None => None
    end.
Proof.
  intros H. unfold reference_line in *.
  exact (@re_search_single "u"%char (lit "ses:") (tl uses_re) pre
           (ws1 ++ owner ++ lit "/" ++ repo ++ lit "@" ++ sha ++ ws2
                ++ lit "#" ++ ws3 ++ v ++ ver ++ post) H).
Qed.

Lemma re_search_reference pre v :
  v = [] \/ v = lit "v" ->
  count_of (lit "uses:")
    (reference_line pre ws1 owner repo sha ws2 ws3 v ver post) = 1 ->
  re_search uses_re (reference_line pre ws1 owner repo sha ws2 ws3 v ver post)
  = Some (pre, [owner; repo; sha; ver], post).
Proof.
  intros prefix H. rewrite (re_search_at_reference pre v H).
  rewrite (match_here_shape prefix). reflexivity.
Qed.

Lemma re_search_upper pre :
  count_of (lit "uses:")
    (reference_line pre ws1 owner repo sha ws2 ws3 (lit "v") ver post) = 1 ->
  re_search uses_re
    (reference_line pre ws1 owner repo sha ws2 ws3 (lit "V") ver post)
  = None.
Proof.
  intros H. rewrite <- count_of_uses_upper in H.
  rewrite (re_search_at_reference pre (lit "V") H).
  rewrite match_here_upper. reflexivity.
Qed.
End Reference.

(** C9 as the code has it.  The pattern takes a lower-case [v] only.  For
    every line of the reference shape that holds [uses:] once: written
    with [v], the reference is found and its owner, repository, hash and
    version are extracted; written with [V], nothing is found, and
    [process_line] returns the line as it is, unchanged, without resolving
    anything. *)
Theorem C9_v_prefix_is_case_sensitive (w : World)
  pre ws1 owner repo sha ws2 ws3 ver post tok dry verbose st :
  reference_shape ws1 owner repo sha ws2 ws3 ver post = true ->
  count_of (lit "uses:")
    (reference_line pre ws1 owner repo sha ws2 ws3 (lit "v") ver post) = 1 ->
  re_search uses_re
    (reference_line pre ws1 owner repo sha ws2 ws3 (lit "v") ver post)
  = Some (pre, [owner; repo; sha; ver], post)
  /\ re_search uses_re
       (reference_line pre ws1 owner repo sha ws2 ws3 (lit "V") ver post)
     = None
  /\ process_line w
       (reference_line pre ws1 owner repo sha ws2 ws3 (lit "V") ver post)
       tok dry verbose st
     = (st,
        Ok (reference_line pre ws1 owner repo sha ws2 ws3 (lit "V") ver post,
            false)).
Proof.
  intros shape single. split; [|split].
  - apply re_search_reference; [exact shape | right; reflexivity | exact single].
  - apply re_search_upper; assumption.
  - unfold process_line.
    rewrite (@re_search_upper ws1 owner repo sha ws2 ws3 ver post shape pre
               single).
    reflexivity.
Qed.

(** An instance: a pin of [actions/checkout] in a list of steps, after a
    remark that holds the letter [u]. *)
Lemma C9_v_prefix_is_case_sensitive_witness :
  let w := world_of (tags "v4.0.0" "cafebabe") in
  let st := initial_state (mkFS [] []) in
  re_search uses_re (lit "  - name: build, uses: actions/checkout@abc123 # v3.1")
  = Some (lit "  - name: build, ",
          [lit "actions"; lit "checkout"; lit "abc123"; lit "3.1"], [])
  /\ re_search uses_re
       (lit "  - name: build, uses: actions/checkout@abc123 # V3.1")
     = None
  /\ process_line w
       (lit "  - name: build, uses: actions/checkout@abc123 # V3.1")
       None false false st
     = (st,
        Ok (lit "  - name: build, uses: actions/checkout@abc123 # V3.1",
            false)).
Proof.
  apply (@C9_v_prefix_is_case_sensitive
           (world_of (tags "v4.0.0" "cafebabe"))
           (lit "  - name: build, ") (lit " ") (lit "actions")
           (lit "checkout") (lit "abc123") (lit " ") (lit " ") (lit "3.1") []
           None false false (initial_state (mkFS [] [])));
    vm_compute; reflexivity.
Defined.

(** C9 as it is stated does not hold: the line with [# V3.1] is not
    matched, the same line with [# v3.1] is. *)
Lemma C9_upper_case_v_is_not_matched :
  re_search uses_re (lit "uses: actions/checkout@abc123 # V3.1") = None
  /\ re_search uses_re (lit "uses: actions/checkout@abc123 # v3.1")
     = Some ([], [lit "actions"; lit "checkout"; lit "abc123"; lit "3.1"], [])
  /\ snd (process_line (world_of (tags "v4.0.0" "cafebabe"))
            (lit "uses: actions/checkout@abc123 # V3.1") None false false
            (initial_state (mkFS [] [])))
     = Ok (lit "uses: actions/checkout@abc123 # V3.1", false)
  /\ snd (process_line (world_of (tags "v4.0.0" "cafebabe"))
            (lit "uses: actions/checkout@abc123 # v3.1") None false false
            (initial_state (mkFS [] [])))
     = Ok (lit "uses: actions/checkout@cafebabe # v4.0.0", true).
Proof.
  repeat split; vm_compute; reflexivity.
Qed.

(** ** Rewriting a reference

    What holds of the rewrite when the line holds nothing but the
    reference that looks like a hash or a version comment, and of a second
    pass when the newest tag is a plain dotted number. *)

Lemma re_search_skips_lit x l p pre s :
  without x pre = true ->
  re_search (Lit (x :: l) :: p) (pre ++ s)
  = match re_search (Lit (x :: l) :: p) s with
    | Some (pre', gs, e) => Some (pre ++ pre', gs, e)
    | None => None
    end.
Proof.
  induction pre as [|y pre IH]; intros H.
  - simpl. destruct (re_search (Lit (x :: l) :: p) s) as [[[pre' gs] e]|];
      reflexivity.
  - simpl in H. apply andb_true_iff in H. destruct H as [Hy Hpre].
    apply negb_true_iff in Hy.
    simpl app. rewrite re_search_step.
    + rewrite (IH Hpre).
      destruct (re_search (Lit (x :: l) :: p) s) as [[[pre' gs] e]|];
        reflexivity.
    + apply match_here_lit_rejects. exact Hy.
Qed.

Lemma re_search_without x l p s :
  without x s = true -> re_search (Lit (x :: l) :: p) s = None.
Proof.
  intros H. rewrite <- (app_nil_r s).
  rewrite re_search_skips_lit by exact H. reflexivity.
Qed.

Lemma re_sub_rounds_none n p repl e :
  re_search p e = None -> re_sub_rounds n p repl e = e.
Proof. intros H. destruct n; simpl; [|rewrite H]; reflexivity. Qed.

(** One match on the line, none after it: one replacement. *)
Lemma re_sub_once x l p repl s pre gs e :
  re_search (Lit (x :: l) :: p) s = Some (pre, gs, e) ->
  re_search (Lit (x :: l) :: p) e = None ->
  re_sub (Lit (x :: l) :: p) repl s = pre ++ repl ++ e.
Proof.
  intros Hs He. unfold re_sub.
  destruct s as [|y s]; [discriminate Hs|].
  simpl List.length. cbn [re_sub_rounds]. rewrite Hs.
  rewrite re_sub_rounds_none by exact He. reflexivity.
Qed.

Lemma space_without_at : forall y, is_space y = true -> negb (is_char "@" y) = true.
Proof. by_cases_on_ascii. Qed.

Lemma word_dash_without_at :
  forall y, is_word_dash y = true -> negb (is_char "@" y) = true.
Proof. by_cases_on_ascii. Qed.

Lemma digit_dot_without_at :
  forall y, is_digit_dot y = true -> negb (is_char "@" y) = true.
Proof. by_cases_on_ascii. Qed.

Lemma space_without_hash : forall y, is_space y = true -> negb (is_char "#" y) = true.
Proof. by_cases_on_ascii. Qed.

Lemma word_dash_without_hash :
  forall y, is_word_dash y = true -> negb (is_char "#" y) = true.
Proof. by_cases_on_ascii. Qed.

Lemma hex_without_hash : forall y, is_hex y = true -> negb (is_char "#" y) = true.
Proof. by_cases_on_ascii. Qed.

Lemma hex_without_backslash :
  forall y, is_hex y = true -> negb (is_char "\" y) = true.
Proof. by_cases_on_ascii. Qed.

Lemma existsb_without x s : without x s = true -> existsb (is_char x) s = false.
Proof.
  unfold without. induction s as [|y s IH]; simpl; [reflexivity|].
  intros H. apply andb_true_iff in H. destruct H as [Hy Hs].
  apply negb_true_iff in Hy. rewrite Hy, (IH Hs). reflexivity.
Qed.

Section Rewrite.
Variables pre ws1 owner repo sha ws2 ws3 v ver post : str.
Hypothesis parts :
  reference_shape ws1 owner repo sha ws2 ws3 ver post = true.
Hypothesis context : plain_context pre post = true.
Hypothesis prefix : v = [] \/ v = lit "v".

Ltac split_all :=
  unfold reference_shape in parts; unfold plain_context in context;
  repeat match goal with
    | H : _ && _ = true |- _ => apply andb_true_iff in H; destruct H
    end.

(** The first substitution puts the new hash in the place of the old. *)
Lemma re_sub_hash new_sha :
  re_sub hash_re (lit "@" ++ new_sha)
    (reference_line pre ws1 owner repo sha ws2 ws3 v ver post)
  = reference_line pre ws1 owner repo new_sha ws2 ws3 v ver post.
Proof.
  pose proof parts as Hparts. split_all.
  assert (Hhead : without "@"
                    (pre ++ lit "uses:" ++ ws1 ++ owner ++ lit "/" ++ repo)
                  = true).
  { rewrite !without_app.
    rewrite (without_class is_space "@" ws1 space_without_at) by assumption.
    rewrite (without_class is_word_dash "@" owner word_dash_without_at)
      by assumption.
    rewrite (without_class is_word_dash "@" repo word_dash_without_at)
      by assumption.
    match goal with H : without "@" pre = true |- _ => rewrite H end.
    reflexivity. }
  assert (Hv : without "@" v = true).
  { destruct prefix as [-> | ->]; reflexivity. }
  assert (Htail : without "@" (ws2 ++ lit "#" ++ ws3 ++ v ++ ver ++ post)
                  = true).
  { rewrite !without_app.
    rewrite (without_class is_space "@" ws2 space_without_at) by assumption.
    rewrite (without_class is_space "@" ws3 space_without_at) by assumption.
    rewrite (without_class is_digit_dot "@" ver digit_dot_without_at)
      by assumption.
    rewrite Hv.
    match goal with H : without "@" post = true |- _ => rewrite H end.
    reflexivity. }
  change hash_re with [Lit ["@"%char]; Grp is_hex].
  change (lit "@") with ["@"%char].
  rewrite (@re_sub_once "@" [] [Grp is_hex] (["@"%char] ++ new_sha)
             (reference_line pre ws1 owner repo sha ws2 ws3 v ver post)
             (pre ++ lit "uses:" ++ ws1 ++ owner ++ lit "/" ++ repo)
             [sha] (ws2 ++ lit "#" ++ ws3 ++ v ++ ver ++ post)).
  - unfold reference_line. change (lit "@") with ["@"%char].
    rewrite <- !app_assoc. reflexivity.
  - unfold reference_line. change (lit "@") with ["@"%char].
    replace (pre ++ lit "uses:" ++ ws1 ++ owner ++ lit "/" ++ repo
                 ++ ["@"%char]
                 ++ sha ++ ws2 ++ lit "#" ++ ws3 ++ v ++ ver ++ post)
      with ((pre ++ lit "uses:" ++ ws1 ++ owner ++ lit "/" ++ repo)
              ++ ["@"%char] ++ sha ++ ws2 ++ lit "#" ++ ws3 ++ v ++ ver
              ++ post)
      by (rewrite <- !app_assoc; reflexivity).
    rewrite re_search_skips_lit by exact Hhead.
    rewrite (@re_search_here _ _ [sha]
               (ws2 ++ lit "#" ++ ws3 ++ v ++ ver ++ post)).
    + rewrite app_nil_r. reflexivity.
    + rewrite match_here_lit.
      apply (match_here_grp_greedy is_hex [] sha _ (gs := []));
        try assumption; [|reflexivity].
      apply (starts_outside_run is_hex is_space); try assumption.
      apply space_not_hex.
  - apply re_search_without. exact Htail.
Qed.

(** The second substitution puts the canonical comment in the place of the
    old, whatever hexadecimal hash the line bears. *)
Lemma re_sub_version_comment h latest :
  forallb is_hex h = true ->
  re_sub version_comment_re (lit "# v" ++ latest)
    (reference_line pre ws1 owner repo h ws2 ws3 v ver post)
  = reference_line pre ws1 owner repo h ws2 (lit " ") (lit "v") latest post.
Proof.
  intros Hh. pose proof parts as Hparts. split_all.
  assert (Hhead : without "#"
                    (pre ++ lit "uses:" ++ ws1 ++ owner ++ lit "/" ++ repo
                         ++ lit "@" ++ h ++ ws2)
                  = true).
  { rewrite !without_app.
    rewrite (without_class is_space "#" ws1 space_without_hash) by assumption.
    rewrite (without_class is_word_dash "#" owner word_dash_without_hash)
      by assumption.
    rewrite (without_class is_word_dash "#" repo word_dash_without_hash)
      by assumption.
    rewrite (without_class is_hex "#" h hex_without_hash) by assumption.
    rewrite (without_class is_space "#" ws2 space_without_hash) by assumption.
    match goal with H : without "#" pre = true |- _ => rewrite H end.
    reflexivity. }
  assert (Hcomment : match_here [Star is_space; Opt "v"%char; Plus is_digit_dot]
                       (ws3 ++ v ++ ver ++ post)
                     = Some ([], post)).
  { apply match_here_star_greedy; try assumption.
    { destruct prefix as [-> | ->]; [|reflexivity].
      simpl app.
      apply (starts_outside_run is_space is_digit_dot); try assumption.
      apply digit_dot_not_space. }
    destruct prefix as [-> | ->].
    - simpl app.
      rewrite (match_here_opt_skips_run is_digit_dot "v") ;
        try assumption; [|apply digit_dot_not_v].
      apply match_here_plus_greedy; try assumption. reflexivity.
    - change (lit "v" ++ ver ++ post) with ("v"%char :: ver ++ post).
      apply match_here_opt_takes.
      apply match_here_plus_greedy; try assumption. reflexivity. }
  change version_comment_re
    with [Lit ["#"%char]; Star is_space; Opt "v"%char; Plus is_digit_dot].
  rewrite (@re_sub_once "#" [] [Star is_space; Opt "v"%char; Plus is_digit_dot]
             (lit "# v" ++ latest)
             (reference_line pre ws1 owner repo h ws2 ws3 v ver post)
             (pre ++ lit "uses:" ++ ws1 ++ owner ++ lit "/" ++ repo
                  ++ lit "@" ++ h ++ ws2)
             [] post).
  - unfold reference_line. rewrite <- !app_assoc. reflexivity.
  - unfold reference_line. change (lit "#") with ["#"%char].
    replace (pre ++ lit "uses:" ++ ws1 ++ owner ++ lit "/" ++ repo ++ lit "@"
                 ++ h ++ ws2 ++ ["#"%char] ++ ws3 ++ v ++ ver ++ post)
      with ((pre ++ lit "uses:" ++ ws1 ++ owner ++ lit "/" ++ repo ++ lit "@"
                 ++ h ++ ws2) ++ ["#"%char] ++ ws3 ++ v ++ ver ++ post)
      by (rewrite <- !app_assoc; reflexivity).
    rewrite re_search_skips_lit by exact Hhead.
    rewrite (@re_search_here _ _ [] post).
    + rewrite app_nil_r. reflexivity.
    + rewrite match_here_lit. exact Hcomment.
  - apply re_search_without. assumption.
Qed.

End Rewrite.


(** *** The order of versions *)

Lemma lex_compare_refl (A : Type) (cmp : A -> A -> comparison) l :
  (forall a, cmp a a = Eq) -> lex_compare cmp l l = Eq.
Proof.
  intros H. induction l as [|a l IH]; simpl; [reflexivity|].
  rewrite H. exact IH.
Qed.

Lemma ext_compare_refl (A : Type) (cmp : A -> A -> comparison) x :
  (forall a, cmp a a = Eq) -> ext_compare cmp x x = Eq.
Proof. intros H. destruct x; simpl; auto. Qed.

Lemma pre_compare_refl x : pre_compare x x = Eq.
Proof.
  unfold pre_compare. rewrite Nat.compare_refl, N.compare_refl. reflexivity.
Qed.

Lemma local_part_compare_refl x : local_part_compare x x = Eq.
Proof.
  destruct x; simpl; [apply N.compare_refl|].
  apply lex_compare_refl. intros a. apply Nat.compare_refl.
Qed.

Lemma key_compare_refl k : key_compare k k = Eq.
Proof.
  unfold key_compare.
  rewrite N.compare_refl.
  rewrite (lex_compare_refl N.compare (k_release k) N.compare_refl).
  rewrite (ext_compare_refl pre_compare (k_pre k) pre_compare_refl).
  rewrite !(ext_compare_refl N.compare _ N.compare_refl).
  rewrite (ext_compare_refl (lex_compare local_part_compare) (k_local k)).
  - reflexivity.
  - intros a. apply lex_compare_refl, local_part_compare_refl.
Qed.

(** No version is newer than itself. *)
Lemma version_gt_irrefl x : version_gt x x = false.
Proof. unfold version_gt. rewrite key_compare_refl. reflexivity. Qed.

(** *** One pass, then another *)

Section TwoPasses.
Variable w : World.
Variables pre ws1 owner repo sha ws2 ws3 v ver post : str.
Hypothesis parts :
  reference_shape ws1 owner repo sha ws2 ws3 ver post = true.
Hypothesis single :
  count_of (lit "uses:")
    (reference_line pre ws1 owner repo sha ws2 ws3 v ver post) = 1.
Hypothesis prefix : v = [] \/ v = lit "v".

(** The tag without its leading [v] or [V]. *)
Variables tag latest new_sha : str.
Hypothesis normalized :
  (if nonempty tag && starts_with_v tag then tl tag else tag) = latest.

(** A reference that is out of date is rewritten in place: new hash,
    canonical comment, everything else as it was. *)
Lemma process_line_rewrites tok verbose st st1 lv cv :
  plain_context pre post = true ->
  nonempty new_sha = true /\ forallb is_hex new_sha = true ->
  get_latest_version w owner repo tok verbose st
  = (st1, Ok (Some (tag, new_sha))) ->
  nonempty latest = true -> without "\" latest = true ->
  version_parse latest = Some lv -> version_too_long latest = false ->
  version_parse ver = Some cv -> version_too_long ver = false ->
  version_gt lv cv = true ->
  process_line w (reference_line pre ws1 owner repo sha ws2 ws3 v ver post)
    tok false verbose st
  = ((if verbose
      then log (Print (MsgFoundUpdate owner repo ver latest)) st1
      else st1),
     Ok (reference_line pre ws1 owner repo new_sha ws2 (lit " ") (lit "v")
           latest post, true)).
Proof.
  intros context [Hh1 Hh2] Hres Hne Hesc Hlv Hll Hcv Hcl Hgt.
  unfold process_line.
  rewrite (@re_search_reference ws1 owner repo sha ws2 ws3 ver post parts
             pre v prefix single).
  rewrite bind_unfold, Hres. cbv zeta.
  rewrite normalized, Hne, Hh1, Hlv, Hll, Hcv, Hcl, Hgt. simpl andb. cbv iota.
  unfold re_sub_text.
  assert (E1 : existsb (is_char "\") (lit "@" ++ new_sha) = false).
  { apply existsb_without. rewrite without_app.
    rewrite (without_class is_hex "\" new_sha hex_without_backslash)
      by assumption.
    reflexivity. }
  assert (E2 : existsb (is_char "\") (lit "# v" ++ latest) = false).
  { apply existsb_without. rewrite without_app, Hesc. reflexivity. }
  rewrite E1, E2.
  rewrite (@re_sub_hash pre ws1 owner repo sha ws2 ws3 v ver post
             parts context prefix).
  assert (parts' : reference_shape ws1 owner repo new_sha ws2 ws3 ver post
                   = true).
  { pose proof parts as Hp. unfold reference_shape in Hp |- *.
    repeat match goal with
      | H : _ && _ = true |- _ => apply andb_true_iff in H; destruct H
      end.
    repeat (apply andb_true_iff; split); assumption. }
  pose proof (@re_sub_version_comment pre ws1 owner repo new_sha ws2 ws3 v ver
                post parts' context prefix new_sha latest Hh2) as Hsub.
  destruct verbose; unfold bind, ret, when, print, modify;
    cbv beta iota; rewrite Hsub; reflexivity.
Qed.

(** A reference whose comment bears the newest version is up to date,
    whatever its hash. *)
Lemma process_line_keeps_current tok dry verbose st st1 any_sha lv :
  ver = latest ->
  get_latest_version w owner repo tok verbose st
  = (st1, Ok (Some (tag, any_sha))) ->
  version_parse latest = Some lv -> version_too_long latest = false ->
  process_line w (reference_line pre ws1 owner repo sha ws2 ws3 v ver post)
    tok dry verbose st
  = (st1, Ok (reference_line pre ws1 owner repo sha ws2 ws3 v ver post, false)).
Proof.
  intros Hver Hres Hlv Hll.
  unfold process_line.
  rewrite (@re_search_reference ws1 owner repo sha ws2 ws3 ver post parts
             pre v prefix single).
  rewrite bind_unfold, Hres. cbv zeta.
  rewrite normalized, Hver, Hlv, Hll.
  destruct (nonempty latest && nonempty any_sha); [|reflexivity].
  rewrite version_gt_irrefl. reflexivity.
Qed.
End TwoPasses.

(** * Further properties of the code *)

(** ** What a match is made of *)

Section RepetitionSound.
Variable R : Type.
Variable c : ascii -> bool.

Lemma star_sound (k : str -> str -> option R) s r :
  star c k s = Some r ->
  exists run rest,
    s = run ++ rest /\ forallb c run = true /\ k run rest = Some r.
Proof.
  revert k. induction s as [|x s IH]; intros k H; simpl in H.
  - exists [], []. auto.
  - destruct (c x) eqn:Hx.
    + destruct (star c (fun run rest => k (x :: run) rest) s) as [r'|] eqn:E.
      * inversion H. subst r'.
        destruct (IH _ E) as [run [rest [Hs [Hrun Hk]]]].
        exists (x :: run), rest. simpl. rewrite Hx, Hrun, Hs. auto.
      * exists [], (x :: s). auto.
    + exists [], (x :: s). auto.
Qed.

Lemma plus_sound (k : str -> str -> option R) s r :
  plus c k s = Some r ->
  exists run rest,
    s = run ++ rest /\ nonempty run = true /\ forallb c run = true
    /\ k run rest = Some r.
Proof.
  intros H. destruct s as [|x s]; simpl in H; [discriminate|].
  destruct (c x) eqn:Hx; [|discriminate].
  destruct (star_sound _ _ H) as [run [rest [Hs [Hrun Hk]]]].
  exists (x :: run), rest. simpl. rewrite Hx, Hrun, Hs. auto.
Qed.

(** When what follows always matches, the run taken is the longest. *)
Lemma star_total (k : str -> str -> option R) s :
  (forall run rest, k run rest <> None) -> star c k s <> None.
Proof.
  revert k. induction s as [|x s IH]; intros k Hk; simpl; [apply Hk|].
  destruct (c x); [|apply Hk].
  destruct (star c (fun run rest => k (x :: run) rest) s) eqn:E;
    [discriminate|].
  exfalso. apply (IH (fun run rest => k (x :: run) rest)); [|exact E].
  intros run rest. apply Hk.
Qed.

End RepetitionSound.

Lemma star_longest (A : Type) (c : ascii -> bool) (f : str -> A) s v e :
  star c (fun run rest => Some (f run, rest)) s = Some (v, e) ->
  starts_outside c e = true.
Proof.
  revert f v e. induction s as [|x s IH]; intros f v e H; simpl in H.
  - inversion H. reflexivity.
  - destruct (c x) eqn:Hx.
    + destruct (star c (fun run rest => Some (f (x :: run), rest)) s)
        as [r'|] eqn:E.
      * inversion H. subst r'. exact (IH (fun run => f (x :: run)) v e E).
      * exfalso.
        apply (@star_total (A * str) c
                 (fun run rest => Some (f (x :: run), rest)) s);
          [discriminate | exact E].
    + inversion H. subst. simpl. rewrite Hx. reflexivity.
Qed.

Lemma match_here_lit_sound l p s r :
  match_here (Lit l :: p) s = Some r ->
  exists s', s = l ++ s' /\ match_here p s' = Some r.
Proof.
  rewrite match_here_lit_unfold.
  destruct (strip_prefix l s) as [s'|] eqn:E; [|discriminate].
  intros H. exists s'. split; [apply strip_prefix_some; exact E | exact H].
Qed.

Lemma match_here_plus_sound c p s r :
  match_here (Plus c :: p) s = Some r ->
  exists run rest,
    s = run ++ rest /\ nonempty run = true /\ forallb c run = true
    /\ match_here p rest = Some r.
Proof.
  change (match_here (Plus c :: p) s)
    with (plus c (fun _ rest0 => match_here p rest0) s).
  apply plus_sound.
Qed.

Lemma match_here_star_sound c p s r :
  match_here (Star c :: p) s = Some r ->
  exists run rest,
    s = run ++ rest /\ forallb c run = true /\ match_here p rest = Some r.
Proof.
  change (match_here (Star c :: p) s)
    with (star c (fun _ rest0 => match_here p rest0) s).
  apply star_sound.
Qed.

Lemma match_here_grp_sound c p s gs e :
  match_here (Grp c :: p) s = Some (gs, e) ->
  exists run rest gs',
    s = run ++ rest /\ nonempty run = true /\ forallb c run = true
    /\ match_here p rest = Some (gs', e) /\ gs = run :: gs'.
Proof.
  change (match_here (Grp c :: p) s)
    with (plus c (fun g rest0 =>
                    match match_here p rest0 with
                    | Some (gs0, e0) => Some (g :: gs0, e0)
                    | None => None
                    end) s).
  intros H. destruct (plus_sound _ _ _ H) as [run [rest [Hs [Hne [Hrun Hk]]]]].
  destruct (match_here p rest) as [[gs' e']|] eqn:E; [|discriminate].
  inversion Hk. subst. exists run, rest, gs'. auto.
Qed.

Lemma match_here_opt_sound x p s r :
  match_here (Opt x :: p) s = Some r ->
  exists o rest,
    s = o ++ rest /\ (o = [] \/ o = [x]) /\ match_here p rest = Some r.
Proof.
  destruct s as [|y s].
  - intros H. exists [], []. auto.
  - change (match_here (Opt x :: p) (y :: s))
      with (if Ascii.eqb x y
            then match match_here p s with
                 | Some r => Some r
                 | None => match_here p (y :: s)
                 end
            else match_here p (y :: s)).
    destruct (Ascii.eqb x y) eqn:E.
    + apply Ascii.eqb_eq in E. subst y.
      destruct (match_here p s) as [r'|] eqn:Hp.
      * intros H. inversion H. subst r'. exists [x], s. auto.
      * intros H. exists [], (x :: s). auto.
    + intros H. exists [], (y :: s). auto.
Qed.

(** The last group of [uses_re] takes every digit and dot there is. *)
Lemma match_here_last_group c s gs e :
  match_here [Grp c] s = Some (gs, e) -> starts_outside c e = true.
Proof.
  destruct s as [|x s]; [discriminate|].
  change (match_here [Grp c] (x :: s))
    with (if c x
          then star c (fun run rest => Some ([x :: run], rest)) s
          else None).
  destruct (c x); [|discriminate].
  apply (star_longest c (fun run => [x :: run])).
Qed.

(** A match at the start of a text: the text is the reference, part by
    part, followed by what is left. *)
Lemma match_here_uses_sound s gs e :
  match_here uses_re s = Some (gs, e) ->
  exists ws1 owner repo sha ws2 ws3 v ver,
    gs = [owner; repo; sha; ver]
    /\ s = lit "uses:" ++ ws1 ++ owner ++ lit "/" ++ repo ++ lit "@" ++ sha
             ++ ws2 ++ lit "#" ++ ws3 ++ v ++ ver ++ e
    /\ (v = [] \/ v = lit "v")
    /\ reference_shape ws1 owner repo sha ws2 ws3 ver e = true.
Proof.
  unfold uses_re. intros H.
  apply match_here_lit_sound in H. destruct H as [s1 [E1 H]].
  apply match_here_plus_sound in H.
  destruct H as [ws1 [s2 [E2 [N1 [C1 H]]]]].
  apply match_here_grp_sound in H.
  destruct H as [owner [s3 [g3 [E3 [N3 [C3 [H G3]]]]]]].
  apply match_here_lit_sound in H. destruct H as [s4 [E4 H]].
  apply match_here_grp_sound in H.
  destruct H as [repo [s5 [g5 [E5 [N5 [C5 [H G5]]]]]]].
  apply match_here_lit_sound in H. destruct H as [s6 [E6 H]].
  apply match_here_grp_sound in H.
  destruct H as [sha [s7 [g7 [E7 [N7 [C7 [H G7]]]]]]].
  apply match_here_plus_sound in H.
  destruct H as [ws2 [s8 [E8 [N8 [C8 H]]]]].
  apply match_here_lit_sound in H. destruct H as [s9 [E9 H]].
  apply match_here_star_sound in H. destruct H as [ws3 [s10 [E10 [C10 H]]]].
  apply match_here_opt_sound in H. destruct H as [v [s11 [E11 [Hv H]]]].
  pose proof (match_here_last_group _ _ H) as Hlast.
  apply match_here_grp_sound in H.
  destruct H as [ver [s12 [g12 [E12 [N12 [C12 [H G12]]]]]]].
  simpl in H. inversion H. subst g12 s12.
  exists ws1, owner, repo, sha, ws2, ws3, v, ver.
  subst. split; [reflexivity|]. split; [reflexivity|]. split; [exact Hv|].
  unfold reference_shape.
  rewrite N1, C1, N3, C3, N5, C5, N7, C7, N8, C8, C10, N12, C12, Hlast.
  reflexivity.
Qed.

(** [re_search] returns the text before the match, and no match starts
    earlier. *)
Lemma re_search_sound p s pre gs e :
  re_search p s = Some (pre, gs, e) ->
  exists m,
    s = pre ++ m /\ match_here p m = Some (gs, e)
    /\ forall a b, pre = a ++ b -> b <> [] -> match_here p (b ++ m) = None.
Proof.
  revert pre. induction s as [|x s IH]; intros pre H; simpl in H.
  - destruct (match_here p []) as [[gs' e']|] eqn:E; [|discriminate].
    inversion H. subst. exists []. split; [reflexivity|]. split; [exact E|].
    intros a b Hab Hb. destruct a, b; try discriminate. contradiction.
  - destruct (match_here p (x :: s)) as [[gs' e']|] eqn:E.
    + inversion H. subst. exists (x :: s). split; [reflexivity|].
      split; [exact E|].
      intros a b Hab Hb. destruct a, b; try discriminate. contradiction.
    + destruct (re_search p s) as [[[pre' gs'] e']|] eqn:Es; [|discriminate].
      inversion H. subst.
      destruct (IH pre' eq_refl) as [m [Hs [Hm Hleft]]].
      exists m. split; [simpl; congruence|]. split; [exact Hm|].
      intros a b Hab Hb. destruct a as [|y a].
      * simpl in Hab. subst b. simpl. rewrite <- Hs. exact E.
      * simpl in Hab. inversion Hab. subst. apply (Hleft a b); auto.
Qed.

(** X1.  Whatever the matcher finds is on the line: the line is the text
    before the match, then [uses:], white space, owner, [/], repository,
    [@], a hexadecimal hash, white space, [#], optional white space, an
    optional lower-case [v] and a version of digits and dots that ends
    where the rest of the line starts; there are exactly four groups. *)
Theorem matcher_sound line pre gs post :
  re_search uses_re line = Some (pre, gs, post) ->
  exists ws1 owner repo sha ws2 ws3 v ver,
    gs = [owner; repo; sha; ver]
    /\ line = reference_line pre ws1 owner repo sha ws2 ws3 v ver post
    /\ (v = [] \/ v = lit "v")
    /\ reference_shape ws1 owner repo sha ws2 ws3 ver post = true.
Proof.
  intros H. destruct (re_search_sound _ _ H) as [m [Hs [Hm _]]].
  destruct (match_here_uses_sound _ Hm)
    as [ws1 [owner [repo [sha [ws2 [ws3 [v [ver [Hg [Em [Hv Hshape]]]]]]]]]]].
  exists ws1, owner, repo, sha, ws2, ws3, v, ver.
  split; [exact Hg|]. split; [|split; assumption].
  unfold reference_line. rewrite Hs, Em. reflexivity.
Qed.

(** An instance: a pin in a list of steps, with a trailing remark. *)
Lemma matcher_sound_witness :
  exists ws1 owner repo sha ws2 ws3 v ver,
    [lit "actions"; lit "checkout"; lit "abc123"; lit "3.1"]
    = [owner; repo; sha; ver]
    /\ lit "  - uses: actions/checkout@abc123  #v3.1 (pinned)"
       = reference_line (lit "  - ") ws1 owner repo sha ws2 ws3 v ver
           (lit " (pinned)")
    /\ (v = [] \/ v = lit "v")
    /\ reference_shape ws1 owner repo sha ws2 ws3 ver (lit " (pinned)") = true.
Proof.
  apply (@matcher_sound
           (lit "  - uses: actions/checkout@abc123  #v3.1 (pinned)")
           (lit "  - ")
           [lit "actions"; lit "checkout"; lit "abc123"; lit "3.1"]
           (lit " (pinned)")).
  vm_compute. reflexivity.
Defined.

(** ** Which lines the matcher takes *)

(** X2.  A reference is found wherever it stands on the line, as long as
    no [u] stands before it: the text before it, its owner, repository,
    hash and version, and the text after it are what the matcher returns,
    with or without white space after [#] and with or without the [v]. *)
Theorem matcher_finds_the_reference
  pre ws1 owner repo sha ws2 ws3 v ver post :
  without "u" pre = true ->
  v = [] \/ v = lit "v" ->
  reference_shape ws1 owner repo sha ws2 ws3 ver post = true ->
  re_search uses_re (reference_line pre ws1 owner repo sha ws2 ws3 v ver post)
  = Some (pre, [owner; repo; sha; ver], post).
Proof.
  intros Hpre prefix shape. unfold reference_line.
  rewrite re_search_skips by exact Hpre.
  rewrite (re_search_here _ _
             (@match_here_shape ws1 owner repo sha ws2 ws3 ver post
                shape v prefix)).
  rewrite app_nil_r. reflexivity.
Qed.

(** An instance: no white space after [#], no [v], a trailing remark. *)
Lemma matcher_finds_the_reference_witness :
  re_search uses_re (lit "  - uses: actions/checkout@abc123  #3.1 (pinned)")
  = Some (lit "  - ",
          [lit "actions"; lit "checkout"; lit "abc123"; lit "3.1"],
          lit " (pinned)").
Proof.
  apply (@matcher_finds_the_reference (lit "  - ") (lit " ") (lit "actions")
           (lit "checkout") (lit "abc123") (lit "  ") [] [] (lit "3.1")
           (lit " (pinned)")).
  - vm_compute. reflexivity.
  - left. reflexivity.
  - vm_compute. reflexivity.
Defined.

Lemma without_app_l x a b : without x a = false -> without x (a ++ b) = false.
Proof. intros H. rewrite without_app, H. reflexivity. Qed.

Lemma without_app_r x a b : without x b = false -> without x (a ++ b) = false.
Proof. intros H. rewrite without_app, H. apply andb_false_r. Qed.

(** A line on which a reference is found holds a colon, a slash, an at
    sign and a hash sign. *)
Lemma re_search_needs x line :
  In x [":"; "/"; "@"; "#"]%char -> without x line = true ->
  re_search uses_re line = None.
Proof.
  intros Hx Hw.
  destruct (re_search uses_re line) as [[[pre gs] post]|] eqn:E;
    [|reflexivity].
  destruct (re_search_sound _ _ E) as [m [Hs [Hm _]]].
  destruct (match_here_uses_sound _ Hm)
    as [ws1 [owner [repo [sha [ws2 [ws3 [v [ver [_ [Em _]]]]]]]]]].
  exfalso. rewrite Hs, Em in Hw.
  assert (F : without x
                (pre ++ lit "uses:" ++ ws1 ++ owner ++ lit "/" ++ repo
                     ++ lit "@" ++ sha ++ ws2 ++ lit "#" ++ ws3 ++ v ++ ver
                     ++ post) = false).
  { simpl in Hx. destruct Hx as [<- | [<- | [<- | [<- | []]]]].
    - apply without_app_r, without_app_l. reflexivity.
    - do 4 apply without_app_r. apply without_app_l. reflexivity.
    - do 6 apply without_app_r. apply without_app_l. reflexivity.
    - do 9 apply without_app_r. apply without_app_l. reflexivity. }
  congruence.
Qed.

(** X3.  A line that lacks a colon, a slash, an at sign or a hash sign is
    no reference: it is returned as it is, nothing is resolved and the
    state is left as it was. *)
Theorem line_without_reference_is_skipped (w : World)
  x line tok dry verbose st :
  In x [":"; "/"; "@"; "#"]%char -> without x line = true ->
  process_line w line tok dry verbose st = (st, Ok (line, false)).
Proof.
  intros Hx Hw. unfold process_line.
  rewrite (@re_search_needs x line Hx Hw). reflexivity.
Qed.

Lemma process_line_unchanged (w : World)
  line tok dry verbose st st' l ch :
  process_line w line tok dry verbose st = (st', Ok (l, ch)) ->
  ch = false \/ dry = true -> l = line.
Proof.
  intros H Hc. unfold process_line in H.
  destruct (re_search uses_re line) as [[[pre gs] post]|];
    [|inversion H; reflexivity].
  destruct gs as [|o [|r [|s [|v [|y gs]]]]]; try (inversion H; reflexivity).
  rewrite bind_unfold in H.
  destruct (get_latest_version w o r tok verbose st)
    as [st1 [[[tag sha']|]|e]]; try discriminate.
  cbv zeta in H.
  match type of H with
  | (if ?b then _ else _) _ = _ => destruct b
  end; [|inversion H; reflexivity].
  match type of H with
  | match ?b with Some _ => _ | None => _ end _ = _ => destruct b
  end; [|discriminate].
  match type of H with
  | (if ?b then _ else _) _ = _ => destruct b
  end; [discriminate|].
  destruct (version_parse v); [|discriminate].
  match type of H with
  | (if ?b then _ else _) _ = _ => destruct b
  end; [discriminate|].
  match type of H with
  | (if ?b then _ else _) _ = _ => destruct b
  end; [|inversion H; reflexivity].
  destruct dry.
  - destruct verbose; unfold bind, when, print, modify, ret in H;
      inversion H; reflexivity.
  - destruct Hc as [-> | Hc]; [|discriminate].
    exfalso. unfold re_sub_text in H.
    repeat match type of H with
      | context [existsb ?f ?s] => destruct (existsb f s)
      end;
      destruct verbose; unfold bind, when, print, modify, ret, raise in H;
      inversion H.
Qed.

(** X4.  Whatever [process_line] returns without the change flag is the
    line it was given, and so is whatever it returns in a dry run. *)
Theorem unchanged_line_is_returned_as_is (w : World)
  line tok dry verbose st st' l ch :
  process_line w line tok dry verbose st = (st', Ok (l, ch)) ->
  ch = false \/ dry = true -> l = line.
Proof. apply process_line_unchanged. Qed.

(** An instance: a comment line. *)
Lemma line_without_reference_is_skipped_witness :
  process_line (world_of ConnectionError)
    (lit "# uses: actions/checkout, pinned below") None false true
    (initial_state (mkFS [] []))
  = (initial_state (mkFS [] []),
     Ok (lit "# uses: actions/checkout, pinned below", false)).
Proof.
  apply (@line_without_reference_is_skipped (world_of ConnectionError)
           "@"%char).
  - simpl. auto.
  - vm_compute. reflexivity.
Defined.

(** An instance: a dry run on a reference that is out of date. *)
Lemma unchanged_line_is_returned_as_is_witness :
  match snd (process_line (world_of (tags "v4.0.0" "cafebabe"))
               checkout_line None true false (initial_state (mkFS [] []))) with
  | Ok (l, ch) => ch = true /\ l = checkout_line
  | Raise _ => False
  end.
Proof.
  destruct (process_line (world_of (tags "v4.0.0" "cafebabe"))
              checkout_line None true false (initial_state (mkFS [] [])))
    as [st' [[l ch]|e]] eqn:E; simpl.
  - split.
    + vm_compute in E. congruence.
    + apply (@unchanged_line_is_returned_as_is
               (world_of (tags "v4.0.0" "cafebabe")) checkout_line None true
               false (initial_state (mkFS [] [])) st' l ch E).
      right. reflexivity.
  - vm_compute in E. discriminate.
Defined.

(** ** What the rewrite leaves of a line *)

(** X5.  A line of the reference shape on which [uses:] stands once and
    the texts before and after the reference hold no at sign and no hash
    sign is rewritten in place, outside a dry run, when the resolver
    returns a tag and a hexadecimal hash that is not empty, the tag without
    its leading [v] or [V] is not empty and holds no backslash, both
    versions parse with no number of more than 4300 digits, and the newest
    is the greater: the new hash takes the place of the old one and the
    comment becomes [# v] followed by the newest version; the text before
    the reference, the owner, the repository, the white space before [#]
    and the text after the version stay as they were. *)
Theorem outdated_reference_is_rewritten_in_place (w : World)
  pre ws1 owner repo sha ws2 ws3 v ver post tag latest new_sha
  tok verbose st st1 lv cv :
  reference_shape ws1 owner repo sha ws2 ws3 ver post = true ->
  count_of (lit "uses:")
    (reference_line pre ws1 owner repo sha ws2 ws3 v ver post) = 1 ->
  plain_context pre post = true ->
  v = [] \/ v = lit "v" ->
  (if nonempty tag && starts_with_v tag then tl tag else tag) = latest ->
  nonempty new_sha = true /\ forallb is_hex new_sha = true ->
  get_latest_version w owner repo tok verbose st
  = (st1, Ok (Some (tag, new_sha))) ->
  nonempty latest = true -> without "\" latest = true ->
  version_parse latest = Some lv -> version_too_long latest = false ->
  version_parse ver = Some cv -> version_too_long ver = false ->
  version_gt lv cv = true ->
  process_line w (reference_line pre ws1 owner repo sha ws2 ws3 v ver post)
    tok false verbose st
  = ((if verbose
      then log (Print (MsgFoundUpdate owner repo ver latest)) st1
      else st1),
     Ok (reference_line pre ws1 owner repo new_sha ws2 (lit " ") (lit "v")
           latest post, true)).
Proof.
  intros shape single context prefix normalized hash_ok.
  exact (@process_line_rewrites w pre ws1 owner repo sha ws2 ws3 v ver post
           shape single prefix tag latest new_sha normalized
           tok verbose st st1 lv cv context hash_ok).
Qed.

(** An instance: a pin without white space after [#] and without [v],
    after a remark that holds the letter [u]. *)
Lemma outdated_reference_is_rewritten_in_place_witness :
  let w := world_of (tags "V4.0.0" "cafebabe") in
  let st := initial_state (mkFS [] []) in
  process_line w (lit "  - run: x, uses: actions/checkout@abc123   #3.1 (pinned: yes)")
    None false false st
  = (fst (get_latest_version w (lit "actions") (lit "checkout") None false st),
     Ok (lit "  - run: x, uses: actions/checkout@cafebabe   # v4.0.0 (pinned: yes)",
         true)).
Proof.
  cbv zeta.
  refine (@outdated_reference_is_rewritten_in_place
            (world_of (tags "V4.0.0" "cafebabe"))
            (lit "  - run: x, ") (lit " ") (lit "actions") (lit "checkout")
            (lit "abc123") (lit "   ") [] [] (lit "3.1") (lit " (pinned: yes)")
            (lit "V4.0.0") (lit "4.0.0") (lit "cafebabe")
            None false (initial_state (mkFS [] []))
            (fst (get_latest_version (world_of (tags "V4.0.0" "cafebabe"))
                    (lit "actions") (lit "checkout") None false
                    (initial_state (mkFS [] []))))
            (mkVersion 0 [4; 0; 0]%N None None None None)
            (mkVersion 0 [3; 1]%N None None None None)
            _ _ _ _ _ _ _ _ _ _ _ _ _ _);
    try (vm_compute; reflexivity).
  - left. reflexivity.
  - split; vm_compute; reflexivity.
Defined.

(** X6.  A line of the form that the rewrite produces, of the reference
    shape and with [uses:] standing on it once, is up to date when the
    resolver answers with a tag that, without its leading [v] or [V], is
    the version of the comment, and that version parses with no number of
    more than 4300 digits: processed again, in a dry run or not, the line
    is returned as it is and not counted as a change. *)
Theorem rewritten_reference_is_up_to_date (w : World)
  pre ws1 owner repo new_sha ws2 post tag latest
  tok dry verbose st st1 lv :
  reference_shape ws1 owner repo new_sha ws2 (lit " ") latest post = true ->
  count_of (lit "uses:")
    (reference_line pre ws1 owner repo new_sha ws2 (lit " ") (lit "v")
       latest post) = 1 ->
  (if nonempty tag && starts_with_v tag then tl tag else tag) = latest ->
  get_latest_version w owner repo tok verbose st
  = (st1, Ok (Some (tag, new_sha))) ->
  version_parse latest = Some lv -> version_too_long latest = false ->
  process_line w
    (reference_line pre ws1 owner repo new_sha ws2 (lit " ") (lit "v")
       latest post)
    tok dry verbose st
  = (st1,
     Ok (reference_line pre ws1 owner repo new_sha ws2 (lit " ") (lit "v")
           latest post, false)).
Proof.
  intros shape single normalized Hres Hlv Hll.
  exact (@process_line_keeps_current w pre ws1 owner repo new_sha ws2
           (lit " ") (lit "v") latest post shape single
           (or_intror eq_refl) tag latest normalized
           tok dry verbose st st1 new_sha lv eq_refl Hres Hlv Hll).
Qed.

(** An instance: the line of the instance above, after its rewrite. *)
Lemma rewritten_reference_is_up_to_date_witness :
  let w := world_of (tags "V4.0.0" "cafebabe") in
  let st := initial_state (mkFS [] []) in
  process_line w
    (lit "  - run: x, uses: actions/checkout@cafebabe   # v4.0.0 (pinned: yes)")
    None false false st
  = (fst (get_latest_version w (lit "actions") (lit "checkout") None false st),
     Ok (lit "  - run: x, uses: actions/checkout@cafebabe   # v4.0.0 (pinned: yes)",
         false)).
Proof.
  cbv zeta.
  refine (@rewritten_reference_is_up_to_date
            (world_of (tags "V4.0.0" "cafebabe"))
            (lit "  - run: x, ") (lit " ") (lit "actions") (lit "checkout")
            (lit "cafebabe") (lit "   ") (lit " (pinned: yes)")
            (lit "V4.0.0") (lit "4.0.0")
            None false false (initial_state (mkFS [] []))
            (fst (get_latest_version (world_of (tags "V4.0.0" "cafebabe"))
                    (lit "actions") (lit "checkout") None false
                    (initial_state (mkFS [] []))))
            (mkVersion 0 [4; 0; 0]%N None None None None)
            _ _ _ _ _ _);
    vm_compute; reflexivity.
Defined.

(** ** The resolver and its cache *)

Lemma get_latest_version_some (w : World) owner repo tok verbose st st1 v :
  get_latest_version w owner repo tok verbose st = (st1, Ok (Some v)) ->
  rate_limit_exceeded st1 = false
  /\ cache_get (owner, repo) (version_cache st1) = Some v.
Proof.
  intros H.
  destruct (rate_limit_exceeded st) eqn:Hf.
  - rewrite (get_latest_version_short_circuit w owner repo tok verbose st Hf)
      in H.
    discriminate.
  - destruct (cache_get (owner, repo) (version_cache st)) as [v'|] eqn:Hc.
    + rewrite (@get_latest_version_hit w owner repo tok verbose st v' Hf Hc)
        in H.
      inversion H. subst. split; assumption.
    + pose proof (get_latest_version_miss w owner repo tok verbose st Hf Hc)
        as Hm.
      cbv zeta in Hm. rewrite H in Hm. simpl in Hm.
      destruct Hm as [_ [_ Hm]].
      destruct (is_plain_oserror (net w (requests_made st) owner repo tok));
        [destruct Hm as [Hm _]; discriminate|].
      destruct Hm as [Hcache Hflag].
      split; [exact Hflag|]. rewrite Hcache. apply cache_get_put_same.
Qed.

(** The resolver adds to the cache and takes nothing from it. *)
Lemma get_latest_version_cache (w : World) owner repo tok verbose st :
  let out := get_latest_version w owner repo tok verbose st in
  version_cache (fst out) = version_cache st
  \/ (cache_get (owner, repo) (version_cache st) = None
      /\ exists v,
           version_cache (fst out)
           = cache_put (owner, repo) v (version_cache st)).
Proof.
  cbv zeta.
  destruct (rate_limit_exceeded st) eqn:Hf.
  { rewrite (get_latest_version_short_circuit w owner repo tok verbose st Hf).
    destruct verbose; left; reflexivity. }
  destruct (cache_get (owner, repo) (version_cache st)) as [v|] eqn:Hc.
  { rewrite (@get_latest_version_hit w owner repo tok verbose st v Hf Hc).
    left. reflexivity. }
  unfold get_latest_version, check_rate_limit, get_cached_version,
    execute_github_request, bind, gets, modify, ret. simpl.
  rewrite Hf, Hc. simpl.
  destruct (net w (requests_made st) owner repo tok) as [| | | |response];
    simpl; try (left; reflexivity).
  unfold handle_http_error, handle_version_response, handle_rate_limit,
    int_header, sleep, bind, gets, modify, print, raise, ret.
  destruct (is_http_error response); simpl.
  - destruct (status_code response =? 401)%Z; simpl; [left; reflexivity|].
    destruct (status_code response =? 403)%Z; simpl; [|left; reflexivity].
    destruct (x_ratelimit_remaining response) as [|z|]; simpl;
      destruct (x_ratelimit_reset response) as [|z'|]; simpl;
      try destruct (z =? 0)%Z; simpl;
      repeat match goal with
        | |- context [(sleep_limit <? ?x)%Z] =>
            destruct (sleep_limit <? x)%Z; simpl
        end;
      left; reflexivity.
  - destruct (status_code response =? 200)%Z; simpl; [|left; reflexivity].
    destruct (json response); simpl; try (left; reflexivity).
    right. split; [reflexivity|]. eexists. reflexivity.
Qed.

Lemma get_latest_version_keeps_entry (w : World) owner repo tok verbose st k v :
  cache_get k (version_cache st) = Some v ->
  cache_get k (version_cache (fst (get_latest_version w owner repo tok verbose
                                     st))) = Some v.
Proof.
  intros H.
  destruct (get_latest_version_cache w owner repo tok verbose st)
    as [E | [Hnone [v' E]]]; rewrite E; [exact H|].
  rewrite cache_get_put_other; [exact H|].
  intros <-. congruence.
Qed.

Lemma resolve_each_keeps_entry (w : World) pairs tok verbose k v :
  forall st,
    cache_get k (version_cache st) = Some v ->
    cache_get k (version_cache (fst (resolve_each w pairs tok verbose st)))
    = Some v.
Proof.
  induction pairs as [|[owner repo] rest IH]; intros st H; [exact H|].
  simpl resolve_each. rewrite bind_unfold.
  pose proof (@get_latest_version_keeps_entry w owner repo tok verbose st k v
                H) as H1.
  destruct (get_latest_version w owner repo tok verbose st) as [s1 [r|e]];
    simpl in H1; [|exact H1].
  rewrite bind_unfold.
  pose proof (IH s1 H1) as H2.
  destruct (resolve_each w rest tok verbose s1) as [s2 [rs|e]];
    simpl in H2; exact H2.
Qed.

(** X7.  An answer of the resolver is remembered for the rest of the
    run.  Once a resolution has returned a version, the resolution that
    follows it returns the same tag and hash and leaves the state as it
    is; and after any further resolutions, of any repositories and however
    they end, the cache still holds that version: a resolution of the same
    repository, with whatever token, makes no request and returns the same
    tag and hash, or nothing if the guard has been tripped in between. *)
Theorem resolved_version_is_remembered (w : World)
  owner repo tok verbose st st1 v pairs tok1 verbose1 tok' verbose' :
  get_latest_version w owner repo tok verbose st = (st1, Ok (Some v)) ->
  let st2 := fst (resolve_each w pairs tok1 verbose1 st1) in
  get_latest_version w owner repo tok' verbose' st1 = (st1, Ok (Some v))
  /\ cache_get (owner, repo) (version_cache st2) = Some v
  /\ get_latest_version w owner repo tok' verbose' st2
     = if rate_limit_exceeded st2
       then ((if verbose' then log (Print MsgSkippingRequest) st2 else st2),
             Ok None)
       else (st2, Ok (Some v)).
Proof.
  intros H st2.
  destruct (@get_latest_version_some w owner repo tok verbose st st1 v H)
    as [Hf Hc].
  pose proof (@resolve_each_keeps_entry w pairs tok1 verbose1 (owner, repo) v
                st1 Hc) as Hc2.
  fold st2 in Hc2.
  split; [exact (@get_latest_version_hit w owner repo tok' verbose' st1 v Hf Hc)|].
  split; [exact Hc2|].
  destruct (rate_limit_exceeded st2) eqn:Hf2.
  - exact (get_latest_version_short_circuit w owner repo tok' verbose' st2 Hf2).
  - exact (@get_latest_version_hit w owner repo tok' verbose' st2 v Hf2 Hc2).
Qed.

(** X8.  A resolution that fails is not remembered: after a transport
    failure, an HTTP error other than 401 and 403, a status other than 200
    or a body without tags, the resolver returns nothing, leaves the cache
    and the guard as they were, and asks the network again at the next
    resolution of the same repository. *)
Theorem failed_resolution_is_not_remembered (w : World)
  owner repo tok verbose st :
  rate_limit_exceeded st = false ->
  cache_get (owner, repo) (version_cache st) = None ->
  resolves_to_nothing (net w (requests_made st) owner repo tok) = true ->
  exists st1,
    get_latest_version w owner repo tok verbose st = (st1, Ok None)
    /\ version_cache st1 = version_cache st
    /\ rate_limit_exceeded st1 = false
    /\ requests_made st1 = S (requests_made st)
    /\ forall tok' verbose',
         requests_made
           (fst (get_latest_version w owner repo tok' verbose' st1))
         = S (S (requests_made st)).
Proof.
  intros Hf Hc Hn.
  assert (H : exists st1,
             get_latest_version w owner repo tok verbose st = (st1, Ok None)
             /\ version_cache st1 = version_cache st
             /\ rate_limit_exceeded st1 = false
             /\ requests_made st1 = S (requests_made st)).
  { revert Hn.
    unfold get_latest_version, check_rate_limit, get_cached_version,
      execute_github_request, bind, gets, modify, ret. simpl.
    rewrite Hf, Hc. simpl.
    destruct (net w (requests_made st) owner repo tok) as [| | | |r];
      simpl; intros Hn; try discriminate;
      try (eexists; split; [reflexivity|]; simpl; auto).
    unfold handle_http_error, handle_version_response, bind, print, modify,
      ret.
    destruct (is_http_error r).
    - destruct (status_code r =? 401)%Z; [discriminate|].
      destruct (status_code r =? 403)%Z; [discriminate|].
      eexists; split; [reflexivity|]; simpl; auto.
    - destruct (status_code r =? 200)%Z.
      + destruct (json r); try discriminate;
          eexists; (split; [reflexivity|]); simpl; auto.
      + eexists; split; [reflexivity|]; simpl; auto. }
  destruct H as [st1 [Hrun [Hcache [Hflag Hcount]]]].
  exists st1. repeat (split; [assumption|]).
  intros tok' verbose'.
  assert (Hc1 : cache_get (owner, repo) (version_cache st1) = None)
    by (rewrite Hcache; exact Hc).
  pose proof (get_latest_version_miss w owner repo tok' verbose' st1 Hflag Hc1)
    as Hm.
  cbv zeta in Hm. destruct Hm as [_ [Hm _]]. rewrite Hm, Hcount. reflexivity.
Qed.


(** An instance: a repository is resolved, then another one, for which
    the answer is a 403 with quota left; the first one is still in the
    cache, and the guard keeps the resolver from returning it. *)
Lemma resolved_version_is_remembered_witness :
  let st1 :=
    fst (get_latest_version then_limited (lit "actions") (lit "checkout") None
           false (initial_state (mkFS [] []))) in
  let st2 :=
    fst (resolve_each then_limited [(lit "acme", lit "tool")] None false
           st1) in
  get_latest_version then_limited (lit "actions") (lit "checkout")
    (Some (lit "token")) true st1
  = (st1, Ok (Some (lit "v4.0.0", lit "cafebabe")))
  /\ cache_get (lit "actions", lit "checkout") (version_cache st2)
     = Some (lit "v4.0.0", lit "cafebabe")
  /\ get_latest_version then_limited (lit "actions") (lit "checkout")
       (Some (lit "token")) true st2
     = (log (Print MsgSkippingRequest) st2, Ok None).
Proof.
  cbv zeta.
  apply (@resolved_version_is_remembered then_limited
           (lit "actions") (lit "checkout") None false
           (initial_state (mkFS [] []))
           (fst (get_latest_version then_limited (lit "actions")
                   (lit "checkout") None false (initial_state (mkFS [] []))))
           (lit "v4.0.0", lit "cafebabe")
           [(lit "acme", lit "tool")] None false (Some (lit "token")) true).
  vm_compute. reflexivity.
Defined.

(** An instance: a repository that is not found. *)
Lemma failed_resolution_is_not_remembered_witness :
  let w :=
    world_of (Responded (mkResponse 404 HAbsent HAbsent BodyNotJson)) in
  exists st1,
    get_latest_version w (lit "acme") (lit "gone") None false
      (initial_state (mkFS [] []))
    = (st1, Ok None)
    /\ version_cache st1 = []
    /\ rate_limit_exceeded st1 = false
    /\ requests_made st1 = 1
    /\ forall tok' verbose',
         requests_made
           (fst (get_latest_version w (lit "acme") (lit "gone") tok' verbose'
                   st1))
         = 2.
Proof.
  cbv zeta.
  apply (@failed_resolution_is_not_remembered
           (world_of (Responded (mkResponse 404 HAbsent HAbsent BodyNotJson)))
           (lit "acme") (lit "gone") None false
           (initial_state (mkFS [] [])));
    vm_compute; reflexivity.
Defined.

(** ** What a run does to the outside *)

Lemma emits_bind (A B : Type) (P : event -> Prop) (c : M A) (k : A -> M B) :
  emits P c -> (forall a, emits P (k a)) -> emits P (bind c k).
Proof.
  intros Hc Hk st. unfold bind. destruct (Hc st) as [t [Ht HP]].
  destruct (c st) as [st' [a|e]]; simpl in *.
  - destruct (Hk a st') as [t' [Ht' HP']]. exists (t ++ t').
    rewrite Ht', Ht, app_assoc. split; [reflexivity|].
    apply Forall_app. split; assumption.
  - exists t. split; assumption.
Qed.

Lemma emits_nothing (A : Type) (P : event -> Prop) (c : M A) :
  (forall st, trace (fst (c st)) = trace st) -> emits P c.
Proof.
  intros H st. exists []. rewrite app_nil_r. split; [apply H | constructor].
Qed.

Lemma emits_ret (A : Type) (P : event -> Prop) (a : A) : emits P (ret a).
Proof. apply emits_nothing. reflexivity. Qed.

Lemma emits_raise (A : Type) (P : event -> Prop) e :
  emits P (raise (A := A) e).
Proof. apply emits_nothing. reflexivity. Qed.

Lemma emits_gets (A : Type) (P : event -> Prop) (g : State -> A) :
  emits P (gets g).
Proof. apply emits_nothing. reflexivity. Qed.

Lemma emits_log (P : event -> Prop) e : P e -> emits P (modify (log e)).
Proof.
  intros H st. exists [e]. split; [reflexivity|].
  constructor; [exact H | constructor].
Qed.

Lemma emits_quiet (P : event -> Prop) g :
  (forall st, trace (g st) = trace st) -> emits P (modify g).
Proof. intros H. apply emits_nothing. exact H. Qed.

Lemma emits_when (P : event -> Prop) b c : emits P c -> emits P (when b c).
Proof. intros H. destruct b; [exact H | apply emits_ret]. Qed.

Lemma emits_except (A : Type) (P : event -> Prop) (c h : M A) :
  emits P c -> emits P h -> emits P (except_oserror c h).
Proof.
  intros Hc Hh st. unfold except_oserror. destruct (Hc st) as [t [Ht HP]].
  destruct (c st) as [st' [a|e]]; simpl in *;
    [exists t; split; assumption|].
  destruct e; simpl; try (exists t; split; assumption).
  destruct (Hh st') as [t' [Ht' HP']]. exists (t ++ t').
  rewrite Ht', Ht, app_assoc. split; [reflexivity|].
  apply Forall_app. split; assumption.
Qed.

Lemma emits_weaken (A : Type) (P Q : event -> Prop) (c : M A) :
  (forall e, P e -> Q e) -> emits P c -> emits Q c.
Proof.
  intros H Hc st. destruct (Hc st) as [t [Ht HP]]. exists t.
  split; [exact Ht|]. eapply Forall_impl; [exact H | exact HP].
Qed.

Ltac emits_steps :=
  repeat first
    [ apply emits_ret
    | apply emits_raise
    | apply emits_gets
    | apply emits_when
    | apply emits_except
    | apply emits_quiet; intros ?; reflexivity
    | apply emits_log; simpl; first [exact I | apply Z.le_max_l | tauto]
    | apply emits_bind; [|intros ?]
    | match goal with
      | |- emits _ (io_call _ _) => apply emits_nothing; intros ?; reflexivity
      | |- emits _ (match ?x with _ => _ end) => destruct x
      end ].

Lemma resolver_event_in_run paths dry backup e :
  resolver_event e -> run_event paths dry backup e.
Proof. destruct e; simpl; tauto. Qed.

Lemma run_event_mono paths paths' dry backup e :
  (forall p, In p paths -> In p paths') ->
  run_event paths dry backup e -> run_event paths' dry backup e.
Proof.
  intros H. destruct e; simpl; try tauto.
  - intros [Hd [Hb [p [Hp E]]]]. repeat split; try assumption.
    exists p. split; [apply H; exact Hp | exact E].
  - intros [Hd [Hb [Hp E]]]. repeat split; try assumption. apply H, Hp.
  - intros [Hd Hp]. split; [exact Hd | apply H, Hp].
Qed.

Section Outside.
Variable w : World.

Lemma get_latest_version_emits owner repo tok verbose :
  emits resolver_event (get_latest_version w owner repo tok verbose).
Proof.
  unfold get_latest_version, check_rate_limit, get_cached_version,
    execute_github_request, handle_http_error, handle_version_response,
    handle_rate_limit, int_header, sleep, print.
  cbv zeta. emits_steps.
Qed.

Lemma process_line_emits line tok dry verbose :
  emits resolver_event (process_line w line tok dry verbose).
Proof.
  unfold process_line.
  destruct (re_search uses_re line) as [[[pre gs] post]|];
    [|apply emits_ret].
  destruct gs as [|owner [|repo [|sha [|ver [|x gs]]]]]; try apply emits_ret.
  apply emits_bind; [apply get_latest_version_emits|].
  intros r. unfold re_sub_text, print. cbv zeta. emits_steps.
Qed.

Lemma for_lines_emits lines tok dry verbose updated changed n :
  emits resolver_event (for_lines w lines tok dry verbose updated changed n).
Proof.
  revert updated changed n. induction lines as [|line rest IH];
    intros updated changed n; simpl.
  - apply emits_ret.
  - apply emits_bind; [apply process_line_emits|].
    intros [updated_line was_changed]. destruct was_changed; apply IH.
Qed.

Lemma update_action_version_emits path tok dry backup verbose :
  emits (run_event [path] dry backup)
    (update_action_version w path tok dry backup verbose).
Proof.
  unfold update_action_version.
  apply emits_except; [|unfold print; emits_steps].
  apply emits_bind; [unfold read_file; emits_steps|].
  intros lines.
  apply emits_bind.
  { eapply emits_weaken; [|apply for_lines_emits].
    apply resolver_event_in_run. }
  intros [[updated changed] n].
  unfold finalize_update. destruct changed; [|apply emits_ret].
  apply emits_bind; [emits_steps|]. intros _.
  destruct dry; simpl negb; cbv iota; [apply emits_ret|].
  apply emits_bind.
  - destruct backup; simpl when; [|apply emits_ret].
    unfold create_backup. cbv zeta.
    change (join (dirname path) (lit "backups")) with (backup_dir_of path).
    change (join (backup_dir_of path) (basename path))
      with (backup_path_of path).
    unfold makedirs, copyfile, print.
    assert (Hd : run_event [path] false true (MadeDirs (backup_dir_of path))).
    { simpl. repeat split. exists path. split; [left|]; reflexivity. }
    assert (Hc : run_event [path] false true
                   (Copied path (backup_path_of path))).
    { simpl. repeat split. left. reflexivity. }
    repeat first
      [ apply emits_log; first [exact Hd | exact Hc | exact I]
      | progress emits_steps ].
  - intros _. unfold write_file, open_w, writelines, close_w, store, print.
    assert (Hw : run_event [path] false backup (Wrote path)).
    { simpl. split; [reflexivity | left; reflexivity]. }
    repeat first
      [ apply emits_log; first [exact Hw | exact I]
      | progress emits_steps ].
Qed.

Lemma for_files_emits paths tok dry backup verbose :
  emits (run_event paths dry backup)
    (for_files w paths tok dry backup verbose).
Proof.
  induction paths as [|path rest IH]; simpl.
  - apply emits_ret.
  - apply emits_bind; [unfold print; emits_steps | intros _].
    apply emits_bind; [emits_steps | intros _].
    apply emits_bind.
    + eapply emits_weaken; [|apply update_action_version_emits].
      intros e. apply run_event_mono. intros p [<- | []]. left. reflexivity.
    + intros _. eapply emits_weaken; [|exact IH].
      intros e. apply run_event_mono. intros p Hp. right. exact Hp.
Qed.
End Outside.

Lemma run_events (w : World) disk paths tok dry backup verbose :
  Forall (run_event paths dry backup)
    (trace (fst (run w disk paths tok dry backup verbose))).
Proof.
  unfold run, update_all_actions.
  assert (H : emits (run_event paths dry backup)
                (modify (set_stats (mkStats 0 0 0)) ;;;
                 for_files w paths tok dry backup verbose)).
  { apply emits_bind; [emits_steps | intros _]. apply for_files_emits. }
  destruct (H (initial_state disk)) as [t [Ht HP]].
  rewrite Ht. exact HP.
Qed.

(** X10.  What a run does to the outside, whatever the network and the
    disk do and however the run ends: it sleeps no negative time; every
    file it writes is one of the files it was given; every copy it makes is
    the copy of such a file to its backup path, in a directory it made for
    it; and it writes, copies and makes directories in no dry run, the
    last two only when backups are asked for. *)
Theorem run_acts_on_its_files_only (w : World)
  disk paths tok dry backup verbose :
  Forall (run_event paths dry backup)
    (trace (fst (run w disk paths tok dry backup verbose))).
Proof. apply run_events. Qed.

(** ** What a run leaves alone *)

Section FrameOfRun.
Variable w : World.
Variable q : str.

Lemma finalize_update_keeps_other path lines changed n dry backup verbose :
  path <> q -> (backup = true -> backup_path_of path <> q) ->
  keeps (file_at q)
    (finalize_update w path lines changed n dry backup verbose).
Proof.
  intros Hp Hb. unfold finalize_update.
  destruct changed; [|apply keeps_ret].
  apply keeps_bind; [apply keeps_modify; intros st; reflexivity | intros _].
  destruct dry; simpl negb; cbv iota; [apply keeps_ret|].
  apply keeps_bind.
  - destruct backup; simpl when; [|apply keeps_ret].
    apply create_backup_keeps_other, Hb. reflexivity.
  - intros _. apply keeps_except; [|apply print_keeps_file].
    apply write_file_keeps_other. exact Hp.
Qed.

Lemma update_action_version_keeps_other path tok dry backup verbose :
  path <> q -> (backup = true -> backup_path_of path <> q) ->
  keeps (file_at q) (update_action_version w path tok dry backup verbose).
Proof.
  intros Hp Hb. unfold update_action_version.
  apply keeps_except; [|apply print_keeps_file].
  apply keeps_bind;
    [apply keeps_file_of_fs, read_file_keeps_fs | intros lines].
  apply keeps_bind.
  { apply keeps_file_of_fs.
    apply for_lines_keeps. intros line. apply process_line_keeps_fs. }
  intros [[updated changed] n].
  apply finalize_update_keeps_other; assumption.
Qed.

Lemma for_files_keeps_other paths tok dry backup verbose :
  (forall p, In p paths ->
             p <> q /\ (backup = true -> backup_path_of p <> q)) ->
  keeps (file_at q) (for_files w paths tok dry backup verbose).
Proof.
  induction paths as [|path rest IH]; intros H; simpl.
  - apply keeps_ret.
  - apply keeps_bind; [apply keeps_when, print_keeps_file | intros _].
    apply keeps_bind;
      [apply keeps_modify; intros st; reflexivity | intros _].
    apply keeps_bind.
    + destruct (H path (or_introl eq_refl)) as [Hp Hb].
      apply update_action_version_keeps_other; assumption.
    + intros _. apply IH. intros p Hp. apply H. right. exact Hp.
Qed.
End FrameOfRun.

(** X11.  A run changes no file but the files it was given and, when
    backups are asked for, their backup copies: every other path of the
    disk holds after the run what it held before, whatever the network and
    the disk do and however the run ends; and a dry run changes no file at
    all. *)
Theorem run_leaves_other_files_alone (w : World)
  disk paths tok dry backup verbose q :
  ~ touched paths dry backup q ->
  file_at q (fst (run w disk paths tok dry backup verbose))
  = file_get q (files disk).
Proof.
  intros Hq. destruct dry.
  - unfold file_at. rewrite run_dry_keeps_fs. reflexivity.
  - unfold run, update_all_actions.
    assert (H : keeps (file_at q)
                  (modify (set_stats (mkStats 0 0 0)) ;;;
                   for_files w paths tok false backup verbose)).
    { apply keeps_bind;
        [apply keeps_modify; intros st; reflexivity | intros _].
      apply for_files_keeps_other. intros p Hp. split.
      - intros ->. apply Hq. split; [reflexivity|]. left. exact Hp.
      - intros Hb E. apply Hq. split; [reflexivity|]. right.
        split; [exact Hb|]. exists p. split; [exact Hp | symmetry; exact E]. }
    rewrite (H (initial_state disk)). reflexivity.
Qed.

(** An instance: the run that updates [ci.yml] with a backup leaves
    [release.yml] as it was. *)
Lemma run_leaves_other_files_alone_witness :
  file_at release_yml
    (fst (run (world_of (tags "v1.3.0" "cafebabe"))
            (disk_of tool_line tool_line) [ci_yml] None false true false))
  = Some tool_line.
Proof.
  apply (@run_leaves_other_files_alone (world_of (tags "v1.3.0" "cafebabe"))
           (disk_of tool_line tool_line) [ci_yml] None false true false
           release_yml).
  unfold touched. intros [_ [[E | []] | [_ [p [[<- | []] E]]]]];
    vm_compute in E; discriminate.
Defined.

(** ** Lines, counts and statistics *)

Section Counting.
Variable w : World.

Lemma process_line_no_match line tok dry verbose st :
  re_search uses_re line = None ->
  process_line w line tok dry verbose st = (st, Ok (line, false)).
Proof. intros H. unfold process_line. rewrite H. reflexivity. Qed.

Lemma process_line_kept line tok dry verbose st st' l ch :
  process_line w line tok dry verbose st = (st', Ok (l, ch)) ->
  line_kept dry line l /\ (ch = false -> l = line).
Proof.
  intros H. split.
  - intros [Hd | Hn].
    + apply (@process_line_unchanged w line tok dry verbose
               st st' l ch H). right. exact Hd.
    + rewrite (process_line_no_match line tok dry verbose st Hn) in H.
      inversion H. reflexivity.
  - intros Hc.
    apply (@process_line_unchanged w line tok dry verbose
             st st' l ch H). left. exact Hc.
Qed.

(** The loop over the lines, from any value of its three variables. *)
Lemma for_lines_result lines tok dry verbose :
  forall u c n st st' u' c' n',
    for_lines w lines tok dry verbose u c n st = (st', Ok (u', c', n')) ->
    exists new,
      u' = u ++ new
      /\ Forall2 (line_kept dry) lines new
      /\ n <= n' /\ n' <= n + List.length lines
      /\ (c' = true <-> c = true \/ n < n')
      /\ (n' = n -> new = lines).
Proof.
  induction lines as [|line rest IH]; intros u c n st st' u' c' n' H.
  - simpl in H. inversion H. subst. exists [].
    rewrite app_nil_r. simpl.
    split; [reflexivity|]. split; [constructor|].
    split; [lia|]. split; [lia|]. split; [|reflexivity].
    split; [intros Hc; left; exact Hc | intros [Hc | Hn]; [exact Hc | lia]].
  - simpl in H. rewrite bind_unfold in H.
    destruct (process_line w line tok dry verbose st)
      as [st1 [[l ch]|e]] eqn:Hp; [|discriminate].
    destruct (process_line_kept line tok dry verbose st Hp) as [Hk Hsame].
    destruct ch.
    + destruct (IH _ _ _ _ _ _ _ _ H) as [new [Hu [Hf [Hlo [Hhi [Hc Hz]]]]]].
      exists (l :: new). rewrite Hu, <- app_assoc. simpl.
      split; [reflexivity|]. split; [constructor; assumption|].
      split; [lia|]. split; [lia|]. split.
      * split; [intros _; right; lia | intros _; apply Hc; left; reflexivity].
      * intros E. lia.
    + destruct (IH _ _ _ _ _ _ _ _ H) as [new [Hu [Hf [Hlo [Hhi [Hc Hz]]]]]].
      exists (l :: new). rewrite Hu, <- app_assoc. simpl.
      split; [reflexivity|]. split; [constructor; assumption|].
      split; [lia|]. split; [lia|]. split; [exact Hc|].
      intros E. rewrite (Hsame eq_refl), (Hz E). reflexivity.
Qed.
End Counting.

Lemma for_lines_from_start (w : World)
  lines tok dry verbose st st' updated changed changes_made :
  for_lines w lines tok dry verbose [] false 0 st
  = (st', Ok (updated, changed, changes_made)) ->
  Forall2 (line_kept dry) lines updated
  /\ changes_made <= List.length lines
  /\ (changed = true <-> 0 < changes_made)
  /\ (changed = false -> updated = lines).
Proof.
  intros H.
  destruct (@for_lines_result w lines tok dry verbose [] false 0 st st'
              updated changed changes_made H)
    as [new [Hu [Hf [_ [Hhi [Hc Hz]]]]]].
  simpl in Hu. subst new.
  split; [exact Hf|]. split; [lia|]. split.
  - split.
    + intros Hc'. apply Hc in Hc'.
      destruct Hc'; [discriminate | assumption].
    + intros Hn. apply Hc. right. exact Hn.
  - intros Hc'. apply Hz.
    destruct changes_made; [reflexivity|].
    assert (changed = true) by (apply Hc; right; lia). congruence.
Qed.

(** X12.  The loop over the lines of a file returns as many lines as it
    was given, in their order; a line that is no reference, and in a dry
    run every line, comes back as it was; the number of changes is at most
    the number of lines; the file counts as changed exactly when that
    number is not zero; and when nothing changed the lines are those that
    were read. *)
Theorem lines_are_kept_and_counted (w : World)
  lines tok dry verbose st st' updated changed changes_made :
  for_lines w lines tok dry verbose [] false 0 st
  = (st', Ok (updated, changed, changes_made)) ->
  Forall2 (line_kept dry) lines updated
  /\ changes_made <= List.length lines
  /\ (changed = true <-> 0 < changes_made)
  /\ (changed = false -> updated = lines).
Proof. apply for_lines_from_start. Qed.

(** An instance: a file of three lines, one of them out of date. *)
Lemma lines_are_kept_and_counted_witness :
  let lines := [lit "steps:" ++ [LF]; tool_line; lit "  - run: make" ++ [LF]] in
  Forall2 (line_kept false) lines
    [lit "steps:" ++ [LF]; updated_tool_line; lit "  - run: make" ++ [LF]]
  /\ 1 <= 3
  /\ (true = true <-> 0 < 1)
  /\ (true = false ->
      [lit "steps:" ++ [LF]; updated_tool_line; lit "  - run: make" ++ [LF]]
      = lines).
Proof.
  cbv zeta.
  apply (@lines_are_kept_and_counted (world_of (tags "v1.3.0" "cafebabe"))
           [lit "steps:" ++ [LF]; tool_line; lit "  - run: make" ++ [LF]]
           None false false (initial_state (mkFS [] []))
           (fst (for_lines (world_of (tags "v1.3.0" "cafebabe"))
                   [lit "steps:" ++ [LF]; tool_line;
                    lit "  - run: make" ++ [LF]]
                   None false false [] false 0 (initial_state (mkFS [] []))))
           [lit "steps:" ++ [LF]; updated_tool_line;
            lit "  - run: make" ++ [LF]]
           true 1).
  vm_compute. reflexivity.
Defined.

Section Statistics.
Variable w : World.

Lemma print_keeps_stats m : keeps stats (print m).
Proof. intros st. reflexivity. Qed.

(** What one file adds to the statistics: nothing, or one updated file
    and at least one change. *)
Lemma update_action_version_stats path tok dry backup verbose st :
  let s := stats st in
  let s' := stats (fst (update_action_version w path tok dry backup verbose
                          st)) in
  total_files s' = total_files s
  /\ ((files_updated s' = files_updated s
       /\ total_changes s' = total_changes s)
      \/ (files_updated s' = S (files_updated s)
          /\ total_changes s < total_changes s')).
Proof.
  cbv zeta. rewrite update_action_version_unfold.
  pose proof (read_file_keeps_stats w path st) as Hr.
  destruct (read_file w path st) as [sr [lines|e]]; simpl in Hr.
  2:{ destruct e; simpl; rewrite Hr; auto. }
  pose proof (@for_lines_keeps w Stats stats tok dry verbose
                (fun line => process_line_keeps_stats w line tok dry verbose)
                lines [] false 0 sr) as Hl.
  destruct (for_lines w lines tok dry verbose [] false 0 sr)
    as [sl [[[u c] n]|e]] eqn:El; simpl in Hl.
  2:{ destruct e; simpl; rewrite Hl, Hr; auto. }
  pose proof (finalize_update_stats w path u c n dry backup verbose sl) as Hs.
  destruct (finalize_update w path u c n dry backup verbose sl) as [sf r].
  simpl in Hs.
  assert (Hf : total_files (stats sf) = total_files (stats st)
               /\ ((files_updated (stats sf) = files_updated (stats st)
                    /\ total_changes (stats sf) = total_changes (stats st))
                   \/ (files_updated (stats sf) = S (files_updated (stats st))
                       /\ total_changes (stats st)
                          < total_changes (stats sf)))).
  { rewrite Hs. destruct c.
    - destruct (@for_lines_from_start w lines tok dry verbose sr sl
                  u true n El) as [_ [_ [Hc _]]].
      assert (0 < n) by (apply Hc; reflexivity).
      unfold count_update. simpl. rewrite Hl, Hr.
      split; [reflexivity|]. right. split; [reflexivity | lia].
    - rewrite Hl, Hr. auto. }
  destruct r as [[]|e]; [|destruct e]; simpl; exact Hf.
Qed.

(** One turn of the loop over the files. *)
Lemma for_files_cons path rest tok dry backup verbose st :
  for_files w (path :: rest) tok dry backup verbose st
  = match update_action_version w path tok dry backup verbose
            (count_file
               (if verbose then log (Print (MsgChecking path)) st else st))
    with
    | (su, Ok _) => for_files w rest tok dry backup verbose su
    | (su, Raise e) => (su, Raise e)
    end.
Proof.
  simpl for_files. unfold bind, when, print, modify, ret.
  destruct verbose; reflexivity.
Qed.

Lemma for_files_stats paths tok dry backup verbose :
  forall st,
    let s := stats st in
    let out := for_files w paths tok dry backup verbose st in
    let s' := stats (fst out) in
    total_files s <= total_files s'
    /\ total_files s' <= total_files s + List.length paths
    /\ (snd out = Ok tt ->
        total_files s' = total_files s + List.length paths)
    /\ files_updated s <= files_updated s'
    /\ files_updated s' + total_files s <= files_updated s + total_files s'
    /\ files_updated s' + total_changes s
       <= files_updated s + total_changes s'.
Proof.
  induction paths as [|path rest IH]; intros st; cbv zeta.
  - simpl. repeat split; lia.
  - rewrite for_files_cons.
    set (sv := if verbose then log (Print (MsgChecking path)) st else st).
    assert (Hsv : stats sv = stats st)
      by (subst sv; destruct verbose; reflexivity).
    pose proof (update_action_version_stats path tok dry backup verbose
                  (count_file sv)) as Hu.
    cbv zeta in Hu.
    destruct (update_action_version w path tok dry backup verbose
                (count_file sv)) as [su [[]|e]]; simpl in Hu.
    + specialize (IH su). cbv zeta in IH.
      destruct (for_files w rest tok dry backup verbose su) as [sf r].
      simpl in *. rewrite Hsv in Hu.
      destruct IH as [I1 [I2 [I3 [I4 [I5 I6]]]]].
      destruct Hu as [U1 [[U2 U3] | [U2 U3]]];
        (split; [lia|]); (split; [lia|]);
        (split; [intros Hr; specialize (I3 Hr); lia|]);
        (split; [lia|]); split; lia.
    + simpl in *. rewrite Hsv in Hu.
      destruct Hu as [U1 [[U2 U3] | [U2 U3]]];
        (split; [lia|]); (split; [lia|]); (split; [discriminate|]);
        (split; [lia|]); split; lia.
Qed.
End Statistics.

(** X13.  The statistics of a run, however it ends: no more files are
    counted as updated than were scanned, no more scanned than were
    given, and every updated file stands for at least one change; a run
    that ends normally has scanned every file it was given. *)
Theorem run_statistics (w : World) disk paths tok dry backup verbose :
  let out := run w disk paths tok dry backup verbose in
  let s := stats (fst out) in
  files_updated s <= total_files s
  /\ total_files s <= List.length paths
  /\ files_updated s <= total_changes s
  /\ (snd out = Ok tt -> total_files s = List.length paths).
Proof.
  cbv zeta. unfold run, update_all_actions.
  unfold bind, modify. cbv beta iota.
  pose proof (for_files_stats w paths tok dry backup verbose
                (set_stats (mkStats 0 0 0) (initial_state disk))) as H.
  cbv zeta in H. simpl in H.
  destruct H as [H1 [H2 [H3 [H4 [H5 H6]]]]].
  split; [lia|]. split; [lia|]. split; [lia | exact H3].
Qed.

(** ** How a run ends early *)

Section Crash.
Variable w : World.

(** What the reading of a file raises. *)
Lemma read_file_only_decode_error path st e :
  snd (read_file w path st) = Raise e ->
  e = OSError \/ e = UnicodeDecodeError.
Proof.
  unfold read_file, io_call, bind, gets, raise, ret.
  destruct (io w (io_made st) (OpRead path)); simpl;
    destruct (file_get path (files (fs st))); simpl;
    intros H; inversion H; auto.
Qed.

Lemma never_raises_bind (A B : Type) e (c : M A) (k : A -> M B) :
  never_raises e c -> (forall a, never_raises e (k a)) ->
  never_raises e (bind c k).
Proof.
  intros Hc Hk st. unfold bind. specialize (Hc st).
  destruct (c st) as [st' [a|e']]; simpl in *; [apply Hk|].
  intros E. apply Hc. congruence.
Qed.

Lemma never_raises_ret (A : Type) e (a : A) : never_raises e (ret a).
Proof. intros st. discriminate. Qed.

Lemma never_raises_modify e g : never_raises e (modify g).
Proof. intros st. discriminate. Qed.

Lemma never_raises_gets (A : Type) e (g : State -> A) :
  never_raises e (gets g).
Proof. intros st. discriminate. Qed.

Lemma never_raises_when e b c :
  never_raises e c -> never_raises e (when b c).
Proof. intros H. destruct b; [exact H | apply never_raises_ret]. Qed.

Lemma never_raises_raise (A : Type) e e' :
  e' <> e -> never_raises e (raise (A := A) e').
Proof. intros H st. simpl. congruence. Qed.

Ltac never_steps :=
  repeat first
    [ apply never_raises_ret
    | apply never_raises_modify
    | apply never_raises_gets
    | apply never_raises_when
    | apply never_raises_raise; discriminate
    | apply never_raises_bind; [|intros ?]
    | match goal with
      | |- never_raises _ (match ?x with _ => _ end) => destruct x
      end ].

(** The resolver and the rewriting of a line encode nothing. *)
Lemma get_latest_version_never_encode_error owner repo tok verbose :
  never_raises UnicodeEncodeError
    (get_latest_version w owner repo tok verbose).
Proof.
  unfold get_latest_version, check_rate_limit, get_cached_version,
    execute_github_request, handle_http_error, handle_version_response,
    handle_rate_limit, int_header, sleep, print.
  cbv zeta. never_steps.
Qed.

Lemma process_line_never_encode_error line tok dry verbose :
  never_raises UnicodeEncodeError (process_line w line tok dry verbose).
Proof.
  unfold process_line.
  destruct (re_search uses_re line) as [[[pre gs] post]|];
    [|apply never_raises_ret].
  destruct gs as [|owner [|repo [|sha [|ver [|x gs]]]]];
    try apply never_raises_ret.
  apply never_raises_bind; [apply get_latest_version_never_encode_error|].
  intros r. unfold re_sub_text, print. cbv zeta. never_steps.
Qed.

Lemma for_lines_never_encode_error lines tok dry verbose updated changed n :
  never_raises UnicodeEncodeError
    (for_lines w lines tok dry verbose updated changed n).
Proof.
  revert updated changed n. induction lines as [|line rest IH];
    intros updated changed n; simpl.
  - apply never_raises_ret.
  - apply never_raises_bind; [apply process_line_never_encode_error|].
    intros [updated_line was_changed]. destruct was_changed; apply IH.
Qed.


Lemma crash_of_not_oserror now o e : crash_of now o = Some e -> e <> OSError.
Proof.
  unfold crash_of.
  destruct o as [| | | |r]; try (intros H; inversion H; discriminate).
  destruct (is_http_error r).
  - destruct (status_code r =? 401)%Z; [intros H; inversion H; discriminate|].
    destruct (status_code r =? 403)%Z; [|intros H; inversion H; discriminate].
    destruct (x_ratelimit_remaining r); destruct (x_ratelimit_reset r);
      repeat match goal with
             | |- context [if ?b then _ else _] => destruct b
             end;
      intros H; inversion H; discriminate.
  - destruct (status_code r =? 200)%Z; [|intros H; inversion H; discriminate].
    destruct (json r); intros H; inversion H; discriminate.
Qed.

(** A request that brings no tags: the resolver returns nothing, which
    [process_line] cannot unpack, or raises itself. *)
Lemma get_latest_version_without_tags owner repo tok verbose st e :
  rate_limit_exceeded st = false ->
  cache_get (owner, repo) (version_cache st) = None ->
  crash_of (clock w (S (requests_made st)))
    (net w (requests_made st) owner repo tok) = Some e ->
  exists st1,
    (get_latest_version w owner repo tok verbose st = (st1, Ok None)
     /\ e = TypeError)
    \/ get_latest_version w owner repo tok verbose st = (st1, Raise e).
Proof.
  intros Hf Hc. unfold crash_of.
  unfold get_latest_version, check_rate_limit, get_cached_version,
    execute_github_request, bind, gets, modify, ret. simpl.
  rewrite Hf, Hc. simpl.
  destruct (net w (requests_made st) owner repo tok) as [| | | |r]; simpl;
    try (intros He; inversion He; eexists; left; split; reflexivity).
  unfold handle_http_error, handle_version_response, handle_rate_limit,
    int_header, sleep, bind, gets, print, modify, raise, ret.
  destruct (is_http_error r).
  - destruct (status_code r =? 401)%Z;
      [intros He; inversion He; eexists; right; reflexivity|].
    destruct (status_code r =? 403)%Z;
      [|intros He; inversion He; eexists; left; split; reflexivity].
    destruct (x_ratelimit_remaining r) as [|z|];
      destruct (x_ratelimit_reset r) as [|z'|]; simpl;
      try destruct (z =? 0)%Z; simpl;
      repeat match goal with
             | |- context [(sleep_limit <? ?x)%Z] =>
                 destruct (sleep_limit <? x)%Z; simpl
             end;
      intros He; inversion He; eexists;
      first [left; split; reflexivity | right; reflexivity].
  - destruct (status_code r =? 200)%Z;
      [|intros He; inversion He; eexists; left; split; reflexivity].
    destruct (json r); simpl; intros He; inversion He; eexists;
      first [left; split; reflexivity | right; reflexivity].
Qed.

Lemma process_line_without_tags line pre owner repo sha ver post
  tok dry verbose st e :
  re_search uses_re line = Some (pre, [owner; repo; sha; ver], post) ->
  rate_limit_exceeded st = false ->
  cache_get (owner, repo) (version_cache st) = None ->
  crash_of (clock w (S (requests_made st)))
    (net w (requests_made st) owner repo tok) = Some e ->
  exists st1,
    process_line w line tok dry verbose st = (st1, Raise e)
    /\ fs st1 = fs st /\ stats st1 = stats st
    /\ requests_made st1 = S (requests_made st).
Proof.
  intros Hs Hf Hc He.
  pose proof (get_latest_version_keeps_fs w owner repo tok verbose st) as Kf.
  pose proof (get_latest_version_keeps_stats w owner repo tok verbose st)
    as Ks.
  pose proof (get_latest_version_miss w owner repo tok verbose st Hf Hc)
    as Hm.
  cbv zeta in Hm. destruct Hm as [_ [Hm _]].
  unfold process_line. rewrite Hs, bind_unfold.
  destruct (@get_latest_version_without_tags owner repo tok verbose st e
              Hf Hc He) as [st1 [[Hg ->] | Hg]];
    rewrite Hg in *; simpl in *; exists st1; auto.
Qed.

Lemma for_lines_skips before rest tok dry verbose :
  Forall (fun l => re_search uses_re l = None) before ->
  forall u c n st,
    for_lines w (before ++ rest) tok dry verbose u c n st
    = for_lines w rest tok dry verbose (u ++ before) c n st.
Proof.
  induction 1 as [|l before Hl _ IH]; intros u c n st.
  - rewrite app_nil_r. reflexivity.
  - simpl. rewrite bind_unfold.
    rewrite (process_line_no_match w l tok dry verbose st Hl).
    rewrite IH, <- app_assoc. reflexivity.
Qed.

Lemma read_file_ok path content st :
  io w (io_made st) (OpRead path) = IoOk ->
  file_get path (files (fs st)) = Some content ->
  read_file w path st = (count_io st, Ok (readlines content)).
Proof.
  intros Hio Hf. unfold read_file, io_call, bind, gets. rewrite Hio. simpl.
  rewrite Hf. reflexivity.
Qed.

End Crash.



(** ** What is read of a file *)

Lemma split_lines_concat cur s :
  List.concat (split_lines cur s) = rev cur ++ s.
Proof.
  revert cur. induction s as [|c s IH]; intros cur.
  - simpl. destruct cur; simpl; rewrite ?app_nil_r; reflexivity.
  - cbn [split_lines]. destruct (is_char LF c).
    + cbn [List.concat]. rewrite IH. simpl. rewrite <- app_assoc.
      reflexivity.
    + rewrite IH. simpl. rewrite <- app_assoc. reflexivity.
Qed.

Lemma universal_newlines_plain s :
  without CR s = true -> universal_newlines s = s.
Proof.
  induction s as [|c s IH]; simpl; [reflexivity|].
  intros H. apply andb_true_iff in H. destruct H as [Hc Hs].
  apply negb_true_iff in Hc. rewrite Hc, (IH Hs). reflexivity.
Qed.

Lemma universal_newlines_without_cr_upto n :
  forall s, List.length s <= n -> without CR (universal_newlines s) = true.
Proof.
  induction n as [|n IH]; intros s Hn.
  - destruct s; [reflexivity | simpl in Hn; lia].
  - destruct s as [|c s]; [reflexivity|]. simpl in Hn.
    cbn [universal_newlines].
    destruct (is_char CR c) eqn:Ec.
    + destruct s as [|d s]; [reflexivity|]. simpl in Hn.
      destruct (is_char LF d).
      * change (without CR (universal_newlines s) = true).
        apply IH. lia.
      * change (without CR (universal_newlines (d :: s)) = true).
        apply IH. simpl. lia.
    + unfold without. cbn [forallb]. rewrite Ec.
      apply (IH s). lia.
Qed.

Lemma universal_newlines_without_cr s :
  without CR (universal_newlines s) = true.
Proof. apply (@universal_newlines_without_cr_upto (List.length s) s). lia. Qed.

Lemma line_ends_at_line_feed cur x :
  without LF cur = true ->
  rev (x :: cur) <> []
  /\ without LF (removelast (rev (x :: cur))) = true.
Proof.
  intros H. simpl rev. split.
  - intros E. apply (f_equal (@List.length ascii)) in E.
    rewrite length_app in E. simpl in E. lia.
  - rewrite removelast_last.
    unfold without in *. rewrite forallb_forall in *.
    intros y Hy. apply H. apply in_rev. exact Hy.
Qed.

(** Every line ends at its first line feed, if it has one. *)
Lemma split_lines_lines s :
  forall cur,
    without LF cur = true ->
    Forall (fun l => l <> [] /\ without LF (removelast l) = true)
           (split_lines cur s).
Proof.
  induction s as [|c s IH]; intros cur Hcur; cbn [split_lines].
  - destruct cur as [|x cur]; constructor; [|constructor].
    apply line_ends_at_line_feed.
    simpl in Hcur. apply andb_true_iff in Hcur. apply Hcur.
  - destruct (is_char LF c) eqn:Ec.
    + constructor; [|apply IH; reflexivity].
      apply line_ends_at_line_feed. exact Hcur.
    + apply IH. unfold without. cbn [forallb]. rewrite Ec. exact Hcur.
Qed.

Section Reading.
Variable w : World.

(** X17.  A file on which no line is a reference is read and nothing
    else: no request is made, nothing is written, copied or printed, and
    the statistics of updated files and changes stay as they were. *)
Theorem file_without_references_is_only_read path content
  tok dry backup verbose st :
  io w (io_made st) (OpRead path) = IoOk ->
  file_get path (files (fs st)) = Some content ->
  Forall (fun l => re_search uses_re l = None) (readlines content) ->
  update_action_version w path tok dry backup verbose st
  = (count_io st, Ok tt).
Proof.
  intros Hio Hfile Hnone.
  rewrite update_action_version_unfold.
  rewrite (@read_file_ok w path content st Hio Hfile).
  rewrite <- (app_nil_r (readlines content)).
  rewrite (@for_lines_skips w (readlines content) [] tok dry verbose Hnone).
  reflexivity.
Qed.
End Reading.

(** X16.  What is read of a file and written back: the lines that
    [readlines] returns, put end to end, are the content with every
    [\r\n] and every [\r] turned into [\n]; they hold no carriage return;
    a content without carriage returns is given back as it is; and every
    line is not empty and ends at its first line feed. *)
Theorem lines_read_make_up_the_content content :
  List.concat (readlines content) = universal_newlines content
  /\ without CR (List.concat (readlines content)) = true
  /\ (without CR content = true -> List.concat (readlines content) = content)
  /\ Forall (fun l => l <> [] /\ without LF (removelast l) = true)
            (readlines content).
Proof.
  assert (H : List.concat (readlines content) = universal_newlines content).
  { unfold readlines. rewrite split_lines_concat. reflexivity. }
  split; [exact H|]. split; [|split].
  - rewrite H. apply universal_newlines_without_cr.
  - intros Hc. rewrite H. apply universal_newlines_plain. exact Hc.
  - unfold readlines. apply split_lines_lines. reflexivity.
Qed.

(** An instance: a file with line ends of three kinds and no end of line
    at its end. *)
Lemma lines_read_make_up_the_content_witness :
  let content := lit "a" ++ [CR; LF] ++ lit "b" ++ [CR] ++ lit "c" ++ [LF]
                     ++ lit "d" in
  List.concat (readlines content)
  = lit "a" ++ [LF] ++ lit "b" ++ [LF] ++ lit "c" ++ [LF] ++ lit "d"
  /\ List.concat (readlines (lit "a" ++ [LF] ++ lit "d"))
     = lit "a" ++ [LF] ++ lit "d".
Proof.
  cbv zeta. split.
  - rewrite (proj1 (lines_read_make_up_the_content _)).
    vm_compute. reflexivity.
  - apply (proj1 (proj2 (proj2 (lines_read_make_up_the_content _)))).
    vm_compute. reflexivity.
Defined.

(** An instance: a workflow whose actions are pinned by tag. *)
Lemma file_without_references_is_only_read_witness :
  let content := lit "steps:" ++ [LF] ++ lit "  - uses: actions/checkout@v4"
                     ++ [LF] in
  let st := initial_state (mkFS [(ci_yml, content)] []) in
  update_action_version (world_of ConnectionError) ci_yml None false true true
    st
  = (count_io st, Ok tt).
Proof.
  cbv zeta.
  apply (@file_without_references_is_only_read (world_of ConnectionError)
           ci_yml
           (lit "steps:" ++ [LF] ++ lit "  - uses: actions/checkout@v4"
                ++ [LF])).
  - vm_compute. reflexivity.
  - vm_compute. reflexivity.
  - repeat constructor.
Defined.

(** ** The extensions of the command line *)

Lemma split_plain sep s : without sep s = true -> split sep s = [s].
Proof.
  induction s as [|x s IH]; intros H; [reflexivity|].
  simpl in H. apply andb_true_iff in H. destruct H as [Hx Hs].
  apply negb_true_iff in Hx. unfold is_char in Hx.
  cbn [split]. rewrite Hx, (IH Hs). reflexivity.
Qed.

Lemma split_at_separator sep a b :
  without sep a = true -> split sep (a ++ sep :: b) = a :: split sep b.
Proof.
  induction a as [|x a IH]; intros H.
  - cbn [app split]. rewrite Ascii.eqb_refl. reflexivity.
  - simpl in H. apply andb_true_iff in H. destruct H as [Hx Ha].
    apply negb_true_iff in Hx. unfold is_char in Hx.
    cbn [app split]. rewrite Hx, (IH Ha). reflexivity.
Qed.

(** Cutting at the separator undoes joining with it. *)
Lemma split_joined sep items :
  items <> [] -> Forall (fun i => without sep i = true) items ->
  split sep (joined sep items) = items.
Proof.
  intros Hne H. induction H as [|item rest Hi Hrest IH]; [contradiction|].
  destruct rest as [|item' rest'].
  - simpl. apply split_plain. exact Hi.
  - change (joined sep (item :: item' :: rest'))
      with (item ++ sep :: joined sep (item' :: rest')).
    rewrite split_at_separator by exact Hi.
    rewrite IH by discriminate. reflexivity.
Qed.

Lemma lstrip_spaces a r :
  forallb is_space a = true -> lstrip (a ++ r) = lstrip r.
Proof.
  induction a as [|x a IH]; intros H; [reflexivity|].
  simpl in H. apply andb_true_iff in H. destruct H as [Hx Ha].
  cbn [app lstrip]. rewrite Hx. apply IH, Ha.
Qed.

Lemma lstrip_outside r : starts_outside is_space r = true -> lstrip r = r.
Proof.
  destruct r as [|x r]; [reflexivity|]. simpl. intros H.
  apply negb_true_iff in H. rewrite H. reflexivity.
Qed.

Lemma starts_outside_app (c : ascii -> bool) a b :
  a <> [] -> starts_outside c a = true -> starts_outside c (a ++ b) = true.
Proof. destruct a; [contradiction | intros _ H; exact H]. Qed.

(** [strip] takes the white space around a core away, and nothing else. *)
Lemma strip_padded before core after :
  forallb is_space before = true -> forallb is_space after = true ->
  starts_outside is_space core = true ->
  starts_outside is_space (rev core) = true ->
  strip (before ++ core ++ after) = core.
Proof.
  intros Hb Ha Hc Hr. unfold strip.
  rewrite lstrip_spaces by exact Hb.
  assert (Hra : forallb is_space (rev after) = true).
  { rewrite forallb_forall in *. intros y Hy. apply Ha, in_rev, Hy. }
  destruct core as [|x core].
  - simpl app. rewrite <- (app_nil_r after), lstrip_spaces by exact Ha.
    reflexivity.
  - rewrite (@lstrip_outside ((x :: core) ++ after))
      by (apply starts_outside_app; [discriminate | exact Hc]).
    rewrite rev_app_distr, lstrip_spaces by exact Hra.
    rewrite (@lstrip_outside (rev (x :: core))) by exact Hr.
    apply rev_involutive.
Qed.

Lemma space_is_no_comma :
  forall y, is_space y = true -> negb (is_char "," y) = true.
Proof. by_cases_on_ascii. Qed.

Lemma padded_item_without_comma i :
  padded_item i = true -> without "," (item_text i) = true.
Proof.
  destruct i as [[before core] after]. unfold padded_item, item_text.
  intros H.
  repeat match goal with
    | H : _ && _ = true |- _ => apply andb_true_iff in H; destruct H
    end.
  rewrite !without_app.
  rewrite (without_class is_space "," before space_is_no_comma) by assumption.
  rewrite (without_class is_space "," after space_is_no_comma) by assumption.
  rewrite andb_true_r. assumption.
Qed.

Lemma strip_item i : padded_item i = true -> strip (item_text i) = item_core i.
Proof.
  destruct i as [[before core] after]. unfold padded_item, item_text, item_core.
  intros H.
  repeat match goal with
    | H : _ && _ = true |- _ => apply andb_true_iff in H; destruct H
    end.
  apply strip_padded; assumption.
Qed.

(** X18.  The extensions of the command line: the argument is cut at
    every comma, the white space around every item is taken away and a dot
    is put before what is left, in the order of the argument.  An item
    that is empty or white space gives the extension that is a dot alone. *)
Theorem extensions_are_cut_and_trimmed items :
  items <> [] -> Forall (fun i => padded_item i = true) items ->
  parse_extensions (joined "," (map item_text items))
  = map (fun i => lit "." ++ item_core i) items.
Proof.
  intros Hne H. unfold parse_extensions.
  rewrite split_joined.
  - rewrite map_map. apply map_ext_in. intros i Hi.
    rewrite Forall_forall in H. rewrite (strip_item i (H i Hi)). reflexivity.
  - destruct items; [contradiction | discriminate].
  - rewrite Forall_forall in *. intros t Ht.
    apply in_map_iff in Ht. destruct Ht as [i [<- Hi]].
    apply padded_item_without_comma, H, Hi.
Qed.

(** An instance: blanks after the commas, and a comma at the end. *)
Lemma extensions_are_cut_and_trimmed_witness :
  parse_extensions (lit "yml, yaml ,")
  = [lit ".yml"; lit ".yaml"; lit "."].
Proof.
  apply (@extensions_are_cut_and_trimmed
           [([], lit "yml", []); (lit " ", lit "yaml", lit " ");
            ([], [], [])]).
  - discriminate.
  - repeat constructor.
Defined.

(** ** The walk over the folder *)

Lemma code_inj x y : code x = code y -> x = y.
Proof.
  unfold code. intros H.
  rewrite <- (ascii_nat_embedding x), <- (ascii_nat_embedding y), H.
  reflexivity.
Qed.

Ltac compare_codes x y :=
  destruct (Nat.ltb_spec (code x) (code y));
  destruct (Nat.eqb_spec (code x) (code y)).

Lemma str_leb_total a b : str_leb a b = false -> str_leb b a = true.
Proof.
  revert b. induction a as [|x a IH]; intros [|y b] H; simpl in *;
    try discriminate; try reflexivity.
  compare_codes x y; compare_codes y x; simpl in *;
    first [discriminate | reflexivity | lia | apply IH; assumption].
Qed.

Lemma str_leb_antisym a b :
  str_leb a b = true -> str_leb b a = true -> a = b.
Proof.
  revert b. induction a as [|x a IH]; intros [|y b] H1 H2; simpl in *;
    try discriminate; try reflexivity.
  compare_codes x y; compare_codes y x; simpl in *;
    first [discriminate | lia | idtac].
  rewrite (@code_inj x y) by assumption.
  rewrite (IH b) by assumption. reflexivity.
Qed.

Lemma str_leb_trans a b c :
  str_leb a b = true -> str_leb b c = true -> str_leb a c = true.
Proof.
  revert b c. induction a as [|x a IH]; intros [|y b] [|z c] H1 H2;
    simpl in *; try discriminate; try reflexivity.
  compare_codes x y; compare_codes y z; compare_codes x z; simpl in *;
    first [discriminate | reflexivity | lia | eapply IH; eassumption].
Qed.

Section SortingFacts.
Variable A : Type.
Variable key : A -> str.

Lemma insert_perm x l : Permutation (insert key x l) (x :: l).
Proof.
  induction l as [|y l IH]; simpl; [reflexivity|].
  destruct (str_leb (key x) (key y)); [reflexivity|].
  transitivity (y :: x :: l); [apply perm_skip, IH | apply perm_swap].
Qed.

Lemma sorted_perm l : Permutation (sorted key l) l.
Proof.
  induction l as [|x l IH]; simpl; [constructor|].
  transitivity (x :: sorted key l); [apply insert_perm | apply perm_skip, IH].
Qed.

Lemma in_sorted x l : In x (sorted key l) <-> In x l.
Proof.
  split; apply Permutation_in;
    [apply sorted_perm | symmetry; apply sorted_perm].
Qed.

Lemma insert_sorted x l :
  StronglySorted (key_le key) l -> StronglySorted (key_le key) (insert key x l).
Proof.
  induction 1 as [|y l Hl IH Hy]; simpl.
  - constructor; constructor.
  - destruct (str_leb (key x) (key y)) eqn:E.
    + constructor; [constructor; assumption|].
      constructor; [exact E|].
      eapply Forall_impl; [|exact Hy].
      intros z Hz. unfold key_le in *. eapply str_leb_trans; eassumption.
    + constructor; [exact IH|].
      apply Forall_forall. intros z Hz.
      apply (Permutation_in _ (insert_perm x l)) in Hz.
      destruct Hz as [<- | Hz].
      * apply str_leb_total. exact E.
      * rewrite Forall_forall in Hy. apply Hy, Hz.
Qed.

Lemma sorted_is_sorted l : StronglySorted (key_le key) (sorted key l).
Proof.
  induction l; simpl; [constructor | apply insert_sorted; assumption].
Qed.

(** A list has one sorted arrangement when its elements are told apart by
    their keys. *)
Lemma sorted_unique l1 :
  forall l2,
    Permutation l1 l2 ->
    StronglySorted (key_le key) l1 -> StronglySorted (key_le key) l2 ->
    (forall a b, In a l1 -> In b l1 -> key a = key b -> a = b) ->
    l1 = l2.
Proof.
  induction l1 as [|a l1 IH]; intros l2 Hp H1 H2 Hinj.
  - apply Permutation_nil in Hp. symmetry. exact Hp.
  - destruct l2 as [|b l2].
    { apply Permutation_sym, Permutation_nil in Hp. discriminate. }
    inversion H1 as [|? ? S1 F1]; subst.
    inversion H2 as [|? ? S2 F2]; subst.
    assert (E : a = b).
    { assert (Hb : In b (a :: l1)).
      { apply (Permutation_in _ (Permutation_sym Hp)). left. reflexivity. }
      assert (Ha : In a (b :: l2)).
      { apply (Permutation_in _ Hp). left. reflexivity. }
      destruct Hb as [Hb | Hb]; [exact Hb|].
      destruct Ha as [Ha | Ha]; [symmetry; exact Ha|].
      rewrite Forall_forall in F1, F2.
      apply Hinj; [left; reflexivity | right; exact Hb |].
      apply str_leb_antisym; [apply F1, Hb | apply F2, Ha]. }
    subst b. f_equal.
    apply IH; [apply (Permutation_cons_inv Hp) | assumption | assumption |].
    intros x y Hx Hy. apply Hinj; right; assumption.
Qed.

Lemma sorted_of_permutation l l' :
  Permutation l l' ->
  (forall a b, In a l -> In b l -> key a = key b -> a = b) ->
  sorted key l = sorted key l'.
Proof.
  intros Hp Hinj. apply sorted_unique.
  - transitivity l; [apply sorted_perm|].
    transitivity l'; [exact Hp | symmetry; apply sorted_perm].
  - apply sorted_is_sorted.
  - apply sorted_is_sorted.
  - intros a b Ha Hb.
    apply Hinj; apply (Permutation_in _ (sorted_perm l)); assumption.
Qed.
End SortingFacts.

(** Induction on trees. *)
Lemma node_induction (P : node -> Prop) :
  P File ->
  (forall entries, Forall (fun e => P (snd e)) entries -> P (Dir entries)) ->
  forall n, P n.
Proof.
  intros HF HD.
  refine (fix IH (n : node) : P n :=
            match n with
            | File => HF
            | Dir entries =>
                HD entries
                  ((fix each (es : list (str * node))
                      : Forall (fun e => P (snd e)) es :=
                      match es with
                      | [] => Forall_nil _
                      | (d, sub) :: es' =>
                          Forall_cons (d, sub) (IH sub) (each es')
                      end) entries)
            end).
Qed.

Lemma subwalks_cons below d sub es :
  subwalks below ((d, sub) :: es)
  = match sub with
    | File => subwalks below es
    | Dir _ =>
        if str_eqb d (lit "backups") then subwalks below es
        else (d, below d sub) :: subwalks below es
    end.
Proof. reflexivity. Qed.

Lemma subwalks_flat_map below es :
  subwalks below es
  = flat_map
      (fun e =>
         match snd e with
         | File => []
         | Dir _ =>
             if str_eqb (fst e) (lit "backups") then []
             else [(fst e, below (fst e) (snd e))]
         end) es.
Proof.
  induction es as [|[d sub] es IH]; [reflexivity|].
  rewrite subwalks_cons. cbn [flat_map fst snd].
  destruct sub; [exact IH|].
  destruct (str_eqb d (lit "backups")); rewrite IH; reflexivity.
Qed.

Lemma in_subwalks below es d ps :
  In (d, ps) (subwalks below es)
  <-> exists sub,
        In (d, Dir sub) es /\ d <> lit "backups" /\ ps = below d (Dir sub).
Proof.
  induction es as [|[d' sub'] es IH].
  - simpl. split; [tauto | intros [sub [[] _]]].
  - rewrite subwalks_cons. destruct sub' as [|sub'].
    + rewrite IH. split; intros [sub [Hin H]]; exists sub; (split; [|exact H]).
      * right. exact Hin.
      * destruct Hin as [E | Hin]; [discriminate E | exact Hin].
    + destruct (str_eqb d' (lit "backups")) eqn:E.
      * apply str_eqb_eq in E. rewrite IH.
        split; intros [sub [Hin [Hne Hps]]]; exists sub;
          (split; [|split; assumption]).
        -- right. exact Hin.
        -- destruct Hin as [Heq | Hin]; [|exact Hin].
           inversion Heq. subst. contradiction.
      * apply str_eqb_neq in E. cbn [In]. rewrite IH. split.
        -- intros [Heq | [sub [Hin H]]].
           ++ inversion Heq. subst. exists sub'.
              split; [left; reflexivity | split; [exact E | reflexivity]].
           ++ exists sub. split; [right; exact Hin | exact H].
        -- intros [sub [[Heq | Hin] [Hne Hps]]].
           ++ left. inversion Heq. subst. reflexivity.
           ++ right. exists sub. auto.
Qed.

Lemma in_file_names es name : In name (file_names es) <-> In (name, File) es.
Proof.
  unfold file_names. rewrite in_flat_map. split.
  - intros [[d sub] [Hin H]]. simpl in H.
    destruct sub; [destruct H as [<- | []]; exact Hin | destruct H].
  - intros H. exists (name, File). split; [exact H | left; reflexivity].
Qed.

Lemma walk_dir r x root entries :
  walk r x root (Dir entries)
  = map (join root)
        (filter (has_extension x)
                (sorted (fun filename => filename) (file_names entries)))
    ++ (if r
        then
          List.concat
            (map snd
               (sorted fst
                  (subwalks (fun d sub => walk r x (join root d) sub)
                            entries)))
        else []).
Proof. reflexivity. Qed.

Lemma walk_yields r x :
  forall n root p, In p (walk r x root n) <-> candidate r x root n p.
Proof.
  apply (node_induction
           (fun n => forall root p,
                In p (walk r x root n) <-> candidate r x root n p)).
  - intros root p. simpl. split; [tauto|].
    intros [ds [name [Hu _]]]. inversion Hu.
  - intros entries IH root p. rewrite Forall_forall in IH.
    rewrite walk_dir, in_app_iff. split.
    + intros [H | H].
      * apply in_map_iff in H. destruct H as [name [<- Hf]].
        apply filter_In in Hf. destruct Hf as [Hin Hext].
        apply in_sorted, in_file_names in Hin.
        exists [], name. split; [constructor; exact Hin|].
        split; [reflexivity|]. split; [intros []|].
        split; [exact Hext | reflexivity].
      * destruct r; [|destruct H].
        apply in_concat in H. destruct H as [ps [Hps Hp]].
        apply in_map_iff in Hps. destruct Hps as [[d ps'] [Heq Hin]].
        simpl in Heq. subst ps'.
        apply in_sorted, in_subwalks in Hin.
        destruct Hin as [sub [Hin [Hne Hps]]]. subst ps.
        apply (IH (d, Dir sub) Hin) in Hp.
        destruct Hp as [ds [name [Hu [Hr [Hb [Hext Hpath]]]]]].
        simpl in Hu. exists (d :: ds), name.
        split; [econstructor; eassumption|].
        split; [intros; discriminate|].
        split; [|split; [exact Hext | exact Hpath]].
        intros [E | E]; [apply Hne; exact E | exact (Hb E)].
    + intros [ds [name [Hu [Hr [Hb [Hext Hpath]]]]]].
      inversion Hu as [es name' Hin | es d sub ds' name' Hin Hu']; subst.
      * left. apply in_map_iff. exists name. split; [reflexivity|].
        apply filter_In. split; [|exact Hext].
        apply in_sorted, in_file_names. exact Hin.
      * right. destruct r; [|specialize (Hr eq_refl); discriminate].
        apply in_concat.
        exists (walk true x (join root d) (Dir sub)). split.
        -- apply in_map_iff.
           exists (d, walk true x (join root d) (Dir sub)).
           split; [reflexivity|].
           apply in_sorted, in_subwalks. exists sub.
           split; [exact Hin|]. split; [|reflexivity].
           intros E. apply Hb. left. exact E.
        -- apply (IH (d, Dir sub) Hin).
           exists ds', name. split; [exact Hu'|].
           split; [intros; discriminate|].
           split; [|split; [exact Hext | reflexivity]].
           intros E. apply Hb. right. exact E.
Qed.

Lemma entries_inj (es : list (str * node)) d v v' :
  NoDup (map fst es) -> In (d, v) es -> In (d, v') es -> v = v'.
Proof.
  induction es as [|[k u] es IH]; simpl; intros Hn H1 H2; [destruct H1|].
  inversion Hn as [|? ? Hk Hn']; subst.
  destruct H1 as [E1 | H1], H2 as [E2 | H2].
  - congruence.
  - inversion E1. subst. exfalso. apply Hk.
    apply in_map_iff. exists (d, v'). split; [reflexivity | exact H2].
  - inversion E2. subst. exfalso. apply Hk.
    apply in_map_iff. exists (d, v). split; [reflexivity | exact H1].
  - apply IH; assumption.
Qed.

Lemma walk_reordered r x root es es' :
  NoDup (map fst es) -> Permutation es es' ->
  walk r x root (Dir es) = walk r x root (Dir es').
Proof.
  intros Hn Hp. rewrite !walk_dir. f_equal.
  - f_equal. f_equal. apply sorted_of_permutation.
    + unfold file_names. apply Permutation_flat_map. exact Hp.
    + intros a b _ _ E. exact E.
  - destruct r; [|reflexivity]. f_equal. f_equal.
    apply sorted_of_permutation.
    + rewrite !subwalks_flat_map. apply Permutation_flat_map. exact Hp.
    + intros [d ps] [d' ps'] Ha Hb E. simpl in E. subst d'.
      apply in_subwalks in Ha, Hb.
      destruct Ha as [sub [Ha [_ ->]]]. destruct Hb as [sub' [Hb [_ ->]]].
      assert (Hs : Dir sub = Dir sub') by (eapply entries_inj; eassumption).
      rewrite Hs. reflexivity.
Qed.

Lemma walk_inside r x root es1 d sub sub' es2 :
  (forall root', walk r x root' (Dir sub) = walk r x root' (Dir sub')) ->
  walk r x root (Dir (es1 ++ (d, Dir sub) :: es2))
  = walk r x root (Dir (es1 ++ (d, Dir sub') :: es2)).
Proof.
  intros H. rewrite !walk_dir. f_equal.
  - unfold file_names. rewrite !flat_map_app. reflexivity.
  - destruct r; [|reflexivity].
    rewrite !subwalks_flat_map, !flat_map_app. cbn [flat_map fst snd].
    rewrite (H (join root d)). reflexivity.
Qed.

(** X20.  The order in which directories list their entries does not
    matter: two trees that differ in that order only, at any depth, give
    the same files in the same order. *)
Theorem listing_order_does_not_matter tree tree' :
  same_tree tree tree' ->
  forall recursive extensions root,
    walk recursive extensions root tree
    = walk recursive extensions root tree'.
Proof.
  induction 1 as [n | a b c _ IH1 _ IH2 | es es' Hn Hp
                 | es1 d sub sub' es2 _ IH]; intros r x root.
  - reflexivity.
  - rewrite IH1. apply IH2.
  - apply walk_reordered; assumption.
  - apply walk_inside. intros root'. apply IH.
Qed.

(** X21.  Whatever [main] writes or copies is a file that the walk was to
    yield for the path, the extensions and the recursion of the command
    line, and [main] writes and copies nothing in a dry run, whatever the
    network and the disk do and however the run ends. *)
Theorem main_writes_candidates_only (w : World) args tree disk :
  Forall (main_event args tree)
    (trace (fst (main w args tree (initial_state disk)))).
Proof.
  change (main w args tree (initial_state disk))
    with (run w disk
            (walk (arg_recursive args)
               (parse_extensions (arg_extensions args)) (arg_path args) tree)
            (arg_github_token args) (arg_dry_run args) (arg_backup args)
            (arg_verbose args)).
  eapply Forall_impl; [|apply run_events].
  intros e He. destruct e; simpl in *; auto.
  - destruct He as [Hd [_ [Hin _]]]. split; [exact Hd|].
    apply walk_yields. exact Hin.
  - destruct He as [Hd Hin]. split; [exact Hd|].
    apply walk_yields. exact Hin.
Qed.

(** X19.  The files that the walk hands to the updater are the files of
    the tree whose name ends with one of the extensions and that are
    reached without passing through a directory named [backups], those of
    the folder itself only if the walk is not recursive; each under the
    path that joins the folder, the directories and the name. *)
Theorem walk_yields_the_candidates recursive extensions root tree p :
  In p (walk recursive extensions root tree)
  <-> candidate recursive extensions root tree p.
Proof. apply walk_yields. Qed.

(** An instance: two listings of one folder. *)
Lemma listing_order_does_not_matter_witness :
  walk true [lit ".yml"] (lit ".")
    (Dir [(lit "b.yml", File);
          (lit "sub", Dir [(lit "d.yml", File); (lit "c.yml", File)]);
          (lit "a.yml", File)])
  = walk true [lit ".yml"] (lit ".")
      (Dir [(lit "a.yml", File); (lit "b.yml", File);
            (lit "sub", Dir [(lit "c.yml", File); (lit "d.yml", File)])]).
Proof.
  apply listing_order_does_not_matter.
  apply same_trans
    with (b := Dir [(lit "b.yml", File);
                    (lit "sub", Dir [(lit "c.yml", File); (lit "d.yml", File)]);
                    (lit "a.yml", File)]).
  - apply (@same_inside [(lit "b.yml", File)] (lit "sub")
             [(lit "d.yml", File); (lit "c.yml", File)]
             [(lit "c.yml", File); (lit "d.yml", File)]
             [(lit "a.yml", File)]).
    apply same_reordered.
    + repeat constructor; simpl; intros H;
        repeat (destruct H as [H | H]; [discriminate H|]); exact H.
    + apply perm_swap.
  - apply same_reordered.
    + repeat constructor; simpl; intros H;
        repeat (destruct H as [H | H]; [discriminate H|]); exact H.
    + apply Permutation_sym.
      apply (Permutation_cons_app [(lit "b.yml", File);
                                   (lit "sub", Dir [(lit "c.yml", File);
                                                    (lit "d.yml", File)])]
               []).
      rewrite app_nil_r. reflexivity.
Defined.

(** ** Two updates of one file *)

Lemma backup_path_is_not_backup_dir path :
  backup_path_of path <> backup_dir_of path.
Proof.
  rewrite backup_path_spelled. intros E.
  apply (f_equal (@List.length ascii)) in E.
  rewrite !length_app in E. simpl in E. lia.
Qed.

Section TwoUpdates.
Variable w : World.

(** The disk after an update with a backup, when the three I/O calls
    succeed. *)
Lemma finalize_update_with_backup_disk path lines n verbose st original :
  file_get path (files (fs st)) = Some original ->
  file_get (backup_dir_of path) (files (fs st)) = None ->
  io w (io_made st) (OpMakeDirs (backup_dir_of path)) = IoOk ->
  io w (S (io_made st)) (OpCopy path (backup_path_of path)) = IoOk ->
  io w (S (S (io_made st))) (OpWrite path) = IoOk ->
  exists st',
    finalize_update w path lines true n false true verbose st = (st', Ok tt)
    /\ fs st'
       = put_file path (List.concat lines)
           (put_file path []
              (put_file (backup_path_of path) original
                 (add_dir (backup_dir_of path) (fs st))))
    /\ io_made st' = S (S (S (io_made st))).
Proof.
  intros Hfile Hdir Hmk Hcp Hwr.
  rewrite finalize_update_unfold. unfold when at 1.
  rewrite create_backup_unfold.
  rewrite (makedirs_ok w (backup_dir_of path) (count_update n st))
    by assumption.
  rewrite (copyfile_ok w path (backup_path_of path) (content := original));
    [|exact Hcp | simpl; rewrite files_add_dir; exact Hfile].
  destruct verbose; unfold when, print, modify, ret;
    rewrite write_file_unfold; cbv zeta; simpl io_made; rewrite Hwr;
    eexists; (split; [reflexivity|]); simpl; split; reflexivity.
Qed.

(** X22.  A backup holds what the file held before its last update, and
    nothing older: when a file is updated a second time, its backup copy
    is overwritten with the content that the first update wrote, and the
    content from before the first update is kept nowhere. *)
Theorem backup_holds_the_last_content_only
  path lines1 n1 lines2 n2 verbose st original :
  file_get path (files (fs st)) = Some original ->
  file_get (backup_dir_of path) (files (fs st)) = None ->
  backup_dir_of path <> path ->
  io w (io_made st) (OpMakeDirs (backup_dir_of path)) = IoOk ->
  io w (1 + io_made st) (OpCopy path (backup_path_of path)) = IoOk ->
  io w (2 + io_made st) (OpWrite path) = IoOk ->
  io w (3 + io_made st) (OpMakeDirs (backup_dir_of path)) = IoOk ->
  io w (4 + io_made st) (OpCopy path (backup_path_of path)) = IoOk ->
  io w (5 + io_made st) (OpWrite path) = IoOk ->
  exists st1 st2,
    finalize_update w path lines1 true n1 false true verbose st = (st1, Ok tt)
    /\ file_get (backup_path_of path) (files (fs st1)) = Some original
    /\ finalize_update w path lines2 true n2 false true verbose st1
       = (st2, Ok tt)
    /\ file_get (backup_path_of path) (files (fs st2))
       = Some (List.concat lines1)
    /\ file_get path (files (fs st2)) = Some (List.concat lines2).
Proof.
  intros Hfile Hdir Hne M1 C1 W1 M2 C2 W2.
  assert (Hpb : path <> backup_path_of path).
  { intros E. apply (@backup_path_differs path). symmetry. exact E. }
  destruct (@finalize_update_with_backup_disk path lines1 n1 verbose st
              original Hfile Hdir M1 C1 W1) as [st1 [R1 [F1 I1]]].
  assert (Hfile1 : file_get path (files (fs st1)) = Some (List.concat lines1)).
  { rewrite F1. apply file_get_put_file_same. }
  assert (Hdir1 : file_get (backup_dir_of path) (files (fs st1)) = None).
  { rewrite F1.
    rewrite file_get_put_file_other
      by (intros E; apply Hne; symmetry; exact E).
    rewrite file_get_put_file_other
      by (intros E; apply Hne; symmetry; exact E).
    rewrite file_get_put_file_other by apply backup_path_is_not_backup_dir.
    rewrite files_add_dir. exact Hdir. }
  destruct (@finalize_update_with_backup_disk path lines2 n2 verbose st1
              (List.concat lines1) Hfile1 Hdir1) as [st2 [R2 [F2 I2]]];
    try (rewrite I1; assumption).
  exists st1, st2. split; [exact R1|]. split.
  { rewrite F1. rewrite !file_get_put_file_other by exact Hpb.
    apply file_get_put_file_same. }
  split; [exact R2|]. split.
  - rewrite F2. rewrite !file_get_put_file_other by exact Hpb.
    apply file_get_put_file_same.
  - rewrite F2. apply file_get_put_file_same.
Qed.
End TwoUpdates.

(** An instance: [ci.yml] updated twice. *)
Lemma backup_holds_the_last_content_only_witness :
  let w := world_of (tags "v1.3.0" "cafebabe") in
  let st := initial_state (disk_of tool_line tool_line) in
  exists st1 st2,
    finalize_update w ci_yml [updated_tool_line] true 1 false true false st
    = (st1, Ok tt)
    /\ file_get (backup_path_of ci_yml) (files (fs st1)) = Some tool_line
    /\ finalize_update w ci_yml [checkout_line] true 1 false true false st1
       = (st2, Ok tt)
    /\ file_get (backup_path_of ci_yml) (files (fs st2))
       = Some (List.concat [updated_tool_line])
    /\ file_get ci_yml (files (fs st2)) = Some (List.concat [checkout_line]).
Proof.
  cbv zeta.
  apply (@backup_holds_the_last_content_only
           (world_of (tags "v1.3.0" "cafebabe")) ci_yml
           [updated_tool_line] 1 [checkout_line] 1 false
           (initial_state (disk_of tool_line tool_line)) tool_line);
    try (vm_compute; reflexivity).
  vm_compute. discriminate.
Defined.

(** *** Instances of the statistics and of the walk *)

Lemma run_statistics_witness :
  let out := run (world_of (tags "v1.3.0" "cafebabe"))
               (disk_of tool_line updated_tool_line) [ci_yml; release_yml]
               None false false false in
  let s := stats (fst out) in
  files_updated s <= total_files s
  /\ total_files s <= 2
  /\ files_updated s <= total_changes s
  /\ (snd out = Ok tt -> total_files s = 2).
Proof.
  apply (@run_statistics (world_of (tags "v1.3.0" "cafebabe"))
           (disk_of tool_line updated_tool_line) [ci_yml; release_yml]
           None false false false).
Defined.

Lemma walk_yields_the_candidates_witness :
  In (lit "./sub/c.yml")
     (walk true [lit ".yml"] (lit ".")
        (Dir [(lit "b.yml", File);
              (lit "backups", Dir [(lit "b.yml", File)]);
              (lit "sub",
               Dir [(lit "c.yml", File); (lit "notes.txt", File)])])).
Proof.
  apply walk_yields_the_candidates.
  exists [lit "sub"], (lit "c.yml").
  split.
  - apply file_below with (sub := [(lit "c.yml", File);
                                   (lit "notes.txt", File)]).
    + right. right. left. reflexivity.
    + apply file_here. left. reflexivity.
  - split; [discriminate|]. split.
    + intros [E | []]. vm_compute in E. discriminate.
    + split; vm_compute; reflexivity.
Defined.

(** ** What is printed without [--verbose] *)

Lemma emits_when_false (P : event -> Prop) c : emits P (when false c).
Proof. apply emits_ret. Qed.

Ltac quiet_steps :=
  repeat first
    [ apply emits_ret
    | apply emits_raise
    | apply emits_gets
    | apply emits_when_false
    | apply emits_except
    | apply emits_quiet; intros ?; reflexivity
    | apply emits_log; reflexivity
    | apply emits_bind; [|intros ?]
    | match goal with
      | |- emits _ (io_call _ _) => apply emits_nothing; intros ?; reflexivity
      | |- emits _ (match ?x with _ => _ end) => destruct x
      end ].

Section Quiet.
Variable w : World.

Local Notation "'plain'" := (fun e => detail e = false).

Lemma get_latest_version_quiet owner repo tok :
  emits plain (get_latest_version w owner repo tok false).
Proof.
  unfold get_latest_version, check_rate_limit, get_cached_version,
    execute_github_request, handle_http_error, handle_version_response,
    handle_rate_limit, int_header, sleep, print.
  cbv zeta. quiet_steps.
Qed.

Lemma process_line_quiet line tok dry :
  emits plain (process_line w line tok dry false).
Proof.
  unfold process_line.
  destruct (re_search uses_re line) as [[[pre gs] post]|];
    [|apply emits_ret].
  destruct gs as [|owner [|repo [|sha [|ver [|x gs]]]]]; try apply emits_ret.
  apply emits_bind; [apply get_latest_version_quiet|].
  intros r. unfold re_sub_text, print. cbv zeta. quiet_steps.
Qed.

Lemma for_lines_quiet lines tok dry updated changed n :
  emits plain (for_lines w lines tok dry false updated changed n).
Proof.
  revert updated changed n. induction lines as [|line rest IH];
    intros updated changed n; simpl.
  - apply emits_ret.
  - apply emits_bind; [apply process_line_quiet|].
    intros [updated_line was_changed]. destruct was_changed; apply IH.
Qed.

Lemma update_action_version_quiet path tok dry backup :
  emits plain (update_action_version w path tok dry backup false).
Proof.
  unfold update_action_version.
  apply emits_except; [|unfold print; quiet_steps].
  apply emits_bind; [unfold read_file; quiet_steps|].
  intros lines.
  apply emits_bind; [apply for_lines_quiet|].
  intros [[updated changed] n].
  unfold finalize_update. destruct changed; [|apply emits_ret].
  apply emits_bind; [quiet_steps|]. intros _.
  destruct dry; simpl negb; cbv iota; [apply emits_ret|].
  apply emits_bind.
  - destruct backup; [|apply emits_ret].
    unfold when, create_backup, makedirs, copyfile, print. cbv zeta.
    quiet_steps.
  - intros _.
    unfold write_file, open_w, writelines, close_w, store, print.
    quiet_steps.
Qed.

Lemma for_files_quiet paths tok dry backup :
  emits plain (for_files w paths tok dry backup false).
Proof.
  induction paths as [|path rest IH]; simpl.
  - apply emits_ret.
  - apply emits_bind; [quiet_steps | intros _].
    apply emits_bind; [quiet_steps | intros _].
    apply emits_bind; [apply update_action_version_quiet | intros _].
    exact IH.
Qed.
End Quiet.

(** X23.  Without [--verbose] none of the five messages that stand under
    [if verbose] is printed, whatever the network and the disk do and
    however the run ends: no [Skipping API request], no [Found update], no
    [Backup created], no [Updated file] and no [Checking file]. *)
Theorem quiet_run_prints_no_detail (w : World) disk paths tok dry backup :
  Forall (fun e => detail e = false)
    (trace (fst (run w disk paths tok dry backup false))).
Proof.
  unfold run, update_all_actions.
  assert (H : emits (fun e => detail e = false)
                (modify (set_stats (mkStats 0 0 0)) ;;;
                 for_files w paths tok dry backup false)).
  { apply emits_bind; [quiet_steps | intros _]. apply for_files_quiet. }
  destruct (H (initial_state disk)) as [t [Ht HP]].
  rewrite Ht. exact HP.
Qed.
